(** * nodist: the npm version manager (lib/npm.js)

    A shallow embedding of [lib/npm.js] and of the JavaScript primitives it
    relies on, followed by the properties of version resolution, installation,
    removal, symlink repair and the active-version store. *)

From Stdlib Require Import String Ascii List ZArith Lia Bool Arith.
From Stdlib Require Import Permutation Sorted DecimalString.
Import ListNotations.

Set Warnings "-register-all".

Open Scope string_scope.
Open Scope list_scope.

(** ** JavaScript string primitives *)

Module JsString.

(** [s.slice(n)] for [0 <= n]. *)
Fixpoint drop (n : nat) (s : string) : string :=
  match n, s with
  | O, _ => s
  | S _, EmptyString => EmptyString
  | S n', String _ s' => drop n' s'
  end.

(** Position of the first occurrence of [needle] in [s], counted from [i]. *)
Fixpoint find_from (needle s : string) (i : nat) : option nat :=
  if String.prefix needle s then Some i
  else match s with
       | EmptyString => None
       | String _ s' => find_from needle s' (S i)
       end.

(** [s.indexOf(needle)]: [-1] when there is no occurrence. *)
Definition indexOf (s needle : string) : Z :=
  match find_from needle s 0 with
  | Some i => Z.of_nat i
  | None => (-1)%Z
  end.

(** Text before and text after the first occurrence of [pat] in [s]. *)
Fixpoint split_first (pat s : string) : option (string * string) :=
  if String.prefix pat s then Some (EmptyString, drop (String.length pat) s)
  else match s with
       | EmptyString => None
       | String c s' =>
           match split_first pat s' with
           | Some (b, a) => Some (String c b, a)
           | None => None
           end
       end.

(** GetSubstitution for a string pattern (no capture groups): in the
    replacement text a dollar sign followed by a dollar sign, an ampersand,
    a backquote or a quote is expanded; every other character is copied. *)
Fixpoint get_substitution (matched before after repl : string) : string :=
  match repl with
  | EmptyString => EmptyString
  | String c r =>
      if Ascii.eqb c "$" then
        match r with
        | String d r' =>
            if Ascii.eqb d "$" then
              String "$" (get_substitution matched before after r')
            else if Ascii.eqb d "&" then
              (matched ++ get_substitution matched before after r')%string
            else if Ascii.eqb d "`" then
              (before ++ get_substitution matched before after r')%string
            else if Ascii.eqb d "'" then
              (after ++ get_substitution matched before after r')%string
            else String c (get_substitution matched before after r)
        | EmptyString => String c EmptyString
        end
      else String c (get_substitution matched before after r)
  end.

(** [s.replace(pat, repl)] with a string pattern: only the first occurrence
    is replaced. *)
Definition replace (s pat repl : string) : string :=
  match split_first pat s with
  | None => s
  | Some (b, a) => (b ++ get_substitution pat b a repl ++ a)%string
  end.

(** [s.split(sep)] for a one-character separator. The result is never
    empty: the empty string splits into one empty segment. *)
Fixpoint split (sep : ascii) (s : string) : list string :=
  match s with
  | EmptyString => [EmptyString]
  | String c s' =>
      if Ascii.eqb c sep then EmptyString :: split sep s'
      else match split sep s' with
           | [] => [String c EmptyString]
           | h :: t => String c h :: t
           end
  end.

(** [arr.join(sep)]. *)
Definition join (sep : string) (l : list string) : string :=
  String.concat sep l.

(** A text is held as its bytes in UTF-8. White space and line
    terminators removed by [trim] that take one byte: tab, line feed,
    vertical tab, form feed, carriage return, space. *)
Definition is_space (c : ascii) : bool :=
  let n := nat_of_ascii c in
  (((9 <=? n) && (n <=? 13)) || (n =? 32))%nat.

Definition byte_is (c : ascii) (n : nat) : bool := (nat_of_ascii c =? n)%nat.

(** In two bytes: the no-break space U+00A0. *)
Definition is_space2 (c1 c2 : ascii) : bool :=
  byte_is c1 194 && byte_is c2 160.

(** In three bytes: U+1680, U+2000 to U+200A, the line and paragraph
    separators U+2028 and U+2029, U+202F, U+205F, U+3000 and the byte
    order mark U+FEFF. *)
Definition is_space3 (c1 c2 c3 : ascii) : bool :=
  let n := nat_of_ascii c3 in
  (byte_is c1 225 && byte_is c2 154 && byte_is c3 128)
  || (byte_is c1 226 && byte_is c2 128
      && (((128 <=? n) && (n <=? 138)) || (n =? 168) || (n =? 169)
          || (n =? 175))%nat)
  || (byte_is c1 226 && byte_is c2 129 && byte_is c3 159)
  || (byte_is c1 227 && byte_is c2 128 && byte_is c3 128)
  || (byte_is c1 239 && byte_is c2 187 && byte_is c3 191).

Fixpoint trim_start (s : string) : string :=
  match s with
  | EmptyString => EmptyString
  | String c1 s1 =>
      if is_space c1 then trim_start s1
      else
        match s1 with
        | EmptyString => s
        | String c2 s2 =>
            if is_space2 c1 c2 then trim_start s2
            else
              match s2 with
              | EmptyString => s
              | String c3 s3 =>
                  if is_space3 c1 c2 c3 then trim_start s3 else s
              end
        end
  end.

(** The same from the end, over the bytes taken last first. *)
Fixpoint drop_spaces_rev (r : list ascii) : list ascii :=
  match r with
  | [] => []
  | c1 :: r1 =>
      if is_space c1 then drop_spaces_rev r1
      else
        match r1 with
        | [] => r
        | c2 :: r2 =>
            if is_space2 c2 c1 then drop_spaces_rev r2
            else
              match r2 with
              | [] => r
              | c3 :: r3 =>
                  if is_space3 c3 c2 c1 then drop_spaces_rev r3 else r
              end
        end
  end.

Definition trim_end (s : string) : string :=
  string_of_list_ascii (rev (drop_spaces_rev (rev (list_ascii_of_string s)))).

Definition trim (s : string) : string := trim_end (trim_start s).

(** Does [c] occur in [s]? *)
Fixpoint mem (c : ascii) (s : string) : bool :=
  match s with
  | EmptyString => false
  | String d s' => Ascii.eqb d c || mem c s'
  end.

End JsString.

(** ** The download URL *)

(** [NPMIST.downloadUrl] (npm.js 186-189). *)
Definition downloadUrl (version : string) : string :=
  JsString.replace "https://codeload.github.com/npm/cli/tar.gz/vVERSION"
                   "VERSION" (JsString.replace version "v" "").

(** ** The local active-version file *)

Module VersionStore.

(** The callback of [getLocal] is called either with no argument at all or
    with [(null, version, file)]. *)
Inductive local_result : Type :=
| NoArguments
| Found (version file : string).

Section GetLocal.

(** [fs.readFile]: the file's text, or [None] when the read fails. *)
Variable readFile : string -> option string.

(** The recursive [search] of [getLocal] (npm.js 400-411). [dirArray] is
    kept as a stack whose top is the last path segment, so [pop] removes
    the head. *)
Fixpoint search (stack : list string) : local_result :=
  match stack with
  | [] => NoArguments
  | _ :: rest =>
      let dir := JsString.join "\" (rev stack) in
      let file := (dir ++ "\.npm-version")%string in
      match readFile file with
      | None => search rest
      | Some version => Found (JsString.trim version) file
      end
  end.

(** [NPMIST.getLocal] (npm.js 395-413), called with [process.cwd() = cwd]. *)
Definition getLocal (cwd : string) : local_result :=
  search (rev (JsString.split "\" cwd)).

End GetLocal.

End VersionStore.


(** ** JavaScript values, errors and promises *)

Inductive jsval : Type :=
| JUndefined
| JNull
| JNumber (z : Z)
| JString (s : string)
| JObject (props : list (string * jsval)).

(** Errors are told apart by where they come from: thrown by the runtime,
    built by [new Error(message)], a plain object with a [message], or
    handed over by a collaborator (file system, network, host runtime). *)
Inductive js_error : Type :=
| TypeError (message : string)
| Error (message : string)
| PlainMessage (message : string)
| External (code : string).

(** A settled promise, or the result of code that may throw. *)
Inductive outcome (A : Type) : Type :=
| Resolved (a : A)
| Rejected (e : js_error).

Arguments Resolved {A} a.
Arguments Rejected {A} e.

Definition bind {A B : Type} (m : outcome A) (k : A -> outcome B) : outcome B :=
  match m with
  | Resolved a => k a
  | Rejected e => Rejected e
  end.

Notation "x <- m ;; k" := (bind m (fun x => k))
  (at level 61, m at next level, right associativity).

(** What a node-style callback [done] received, if it was called at all. *)
Inductive callback (A : Type) : Type :=
| NotCalled
| Called (r : outcome A).

Arguments NotCalled {A}.
Arguments Called {A} r.

Module Js.

Fixpoint assoc (k : string) (props : list (string * jsval)) : option jsval :=
  match props with
  | [] => None
  | (k', v) :: rest => if String.eqb k k' then Some v else assoc k rest
  end.

(** [v.k]: reading a property of [undefined] or [null] throws; a string
    has a [length] and no other named property of its own. *)
Definition get_prop (v : jsval) (k : string) : outcome jsval :=
  match v with
  | JUndefined => Rejected (TypeError "Cannot read properties of undefined")
  | JNull => Rejected (TypeError "Cannot read properties of null")
  | JNumber _ => Resolved JUndefined
  | JString s =>
      Resolved (if String.eqb k "length"
                then JNumber (Z.of_nat (String.length s)) else JUndefined)
  | JObject props =>
      Resolved (match assoc k props with Some x => x | None => JUndefined end)
  end.

(** [recv.indexOf(needle)]: only a string receiver has the method. *)
Definition call_indexOf (recv : jsval) (needle : string) : outcome Z :=
  match recv with
  | JString s => Resolved (JsString.indexOf s needle)
  | JUndefined => Rejected (TypeError "Cannot read properties of undefined")
  | JNull => Rejected (TypeError "Cannot read properties of null")
  | _ => Rejected (TypeError "indexOf is not a function")
  end.

(** ToBoolean. *)
Definition truthy (v : jsval) : bool :=
  match v with
  | JUndefined | JNull => false
  | JNumber z => negb (Z.eqb z 0)
  | JString s => negb (String.eqb s "")
  | JObject _ => true
  end.

(** A string-or-null result of a library call, as a value. *)
Definition of_option (o : option string) : jsval :=
  match o with
  | Some s => JString s
  | None => JNull
  end.

(** [arr.filter(p)] with a callback that may throw; the callback also
    receives the index of the element. *)
Fixpoint filter_from {A : Type} (p : A -> nat -> outcome bool)
         (i : nat) (l : list A) : outcome (list A) :=
  match l with
  | [] => Resolved []
  | x :: rest =>
      keep <- p x i ;;
      rest' <- filter_from p (S i) rest ;;
      Resolved (if keep then x :: rest' else rest')
  end.

Definition filter {A : Type} (p : A -> nat -> outcome bool) (l : list A)
  : outcome (list A) :=
  filter_from p 0 l.

(** The same for a callback that cannot throw. *)
Fixpoint filteri_from {A : Type} (p : A -> nat -> bool) (i : nat)
         (l : list A) : list A :=
  match l with
  | [] => []
  | x :: rest =>
      if p x i then x :: filteri_from p (S i) rest
      else filteri_from p (S i) rest
  end.

Definition filteri {A : Type} (p : A -> nat -> bool) (l : list A) : list A :=
  filteri_from p 0 l.

(** [arr.sort(comparefn)]. The language fixes no algorithm; this is the
    insertion sort engines apply to short arrays, which looks only at
    whether [comparefn] is positive. [ins] inserts into the part
    already sorted, held in reverse (largest first). *)
Fixpoint ins {A : Type} (cmp : A -> A -> Z) (x : A) (sorted_rev : list A)
  : list A :=
  match sorted_rev with
  | [] => [x]
  | y :: rest =>
      if (0 <? cmp y x)%Z then y :: ins cmp x rest else x :: y :: rest
  end.

Definition sort {A : Type} (cmp : A -> A -> Z) (l : list A) : list A :=
  rev (fold_left (fun acc x => ins cmp x acc) l []).

(** [arr.sort(comparefn)] with a [comparefn] that may throw: the first
    exception ends the sort and is the one the caller sees. The first
    element is placed without a comparison; every later one is compared
    at least once. *)
Fixpoint ins_with {A : Type} (cmp : A -> A -> outcome Z) (x : A)
         (sorted_rev : list A) : outcome (list A) :=
  match sorted_rev with
  | [] => Resolved [x]
  | y :: rest =>
      c <- cmp y x ;;
      if (0 <? c)%Z
      then (r <- ins_with cmp x rest ;; Resolved (y :: r))
      else Resolved (x :: y :: rest)
  end.

Definition sort_with {A : Type} (cmp : A -> A -> outcome Z) (l : list A)
  : outcome (list A) :=
  acc <- fold_left (fun acc x => a <- acc ;; ins_with cmp x a) l (Resolved []) ;;
  Resolved (rev acc).

(** [arr.pop()] on a non-empty array: the last element. *)
Definition pop {A : Type} (l : list A) : option A :=
  match rev l with
  | [] => None
  | x :: _ => Some x
  end.

End Js.

(** ** The semver library (external) *)

(** The functions of the [semver] package that [npm.js] calls. [sv_valid]
    takes the options argument first: [Array.prototype.filter] passes the
    element index in that position. [sv_compare] is the comparison of two
    texts the library can build a version from; [sv_error] is the message
    of the [TypeError] that [new SemVer(text)] throws, for a text it
    cannot build one from. *)
Class Semver : Type := {
  sv_valid : jsval -> string -> option string;
  sv_clean : string -> option string;
  sv_validRange : string -> option string;
  sv_satisfies : string -> string -> bool;
  sv_compare : string -> string -> Z;
  sv_gte : string -> string -> bool;
  sv_error : string -> option string
}.

Section SemverDerived.

Context {SV : Semver}.

(** [semver.valid(version)] where [version] may be [null]. *)
Definition valid (version : option string) : option string :=
  match version with
  | Some s => sv_valid JUndefined s
  | None => None
  end.

Definition is_version (s : string) : Prop := sv_valid JUndefined s <> None.

(** [new SemVer(text)], as far as it may throw. *)
Definition construct (s : string) : outcome unit :=
  match sv_error s with
  | Some message => Rejected (TypeError message)
  | None => Resolved tt
  end.

(** [semver.compare(a, b)], [new SemVer(a).compare(new SemVer(b))]: the
    version of [a] is built first, then the one of [b], and either may
    throw. This is the function [getNpmReleases] hands to [sort]. *)
Definition semver_compare (a b : string) : outcome Z :=
  _ <- construct a ;;
  _ <- construct b ;;
  Resolved (sv_compare a b).

(** The element of a pool as a version string; other values are never
    versions. *)
Definition as_version (x : jsval) : option string :=
  match x with
  | JString s => Some s
  | _ => None
  end.

(** One step of the [forEach] of [semver.maxSatisfying]. *)
Definition max_step (range : string) (max : option jsval) (x : jsval)
  : option jsval :=
  match as_version x with
  | Some s =>
      if sv_satisfies s range then
        match max with
        | None => Some x
        | Some m =>
            match as_version m with
            | Some ms => if (sv_compare ms s =? -1)%Z then Some x else max
            | None => Some x
            end
        end
      else max
  | None => max
  end.

(** [semver.maxSatisfying(versions, range)]: [null] for a range that does
    not parse, else the greatest satisfying element, as it stands in
    [versions]. *)
Definition maxSatisfying (versions : list jsval) (range : string)
  : option jsval :=
  match sv_validRange range with
  | None => None
  | Some _ => fold_left (max_step range) versions None
  end.

End SemverDerived.

(** The part of the library's contract the properties below rely on:
    [compare] orders versions totally, and only versions satisfy a range or
    are valid ranges' members. *)
Class SemverLaws (SV : Semver) : Prop := {
  compare_cases : forall a b,
    is_version a -> is_version b ->
    sv_compare a b = (-1)%Z \/ sv_compare a b = 0%Z \/ sv_compare a b = 1%Z;
  compare_antisym : forall a b,
    is_version a -> is_version b -> sv_compare b a = (- sv_compare a b)%Z;
  compare_trans : forall a b c,
    is_version a -> is_version b -> is_version c ->
    (sv_compare a b <= 0)%Z -> (sv_compare b c <= 0)%Z ->
    (sv_compare a c <= 0)%Z;
  satisfies_version : forall s r, sv_satisfies s r = true -> is_version s;
  version_nonempty : forall s, is_version s -> s <> ""
}.

(** ** The remote catalog and version resolution *)

(** A release entry of the GitHub release feed. [name] may be [null]. *)
Record release : Type := {
  tag_name : string;
  name : option string
}.

(** The collaborators of [npm.js]: the octokit client and the host runtime's
    version manager. *)
Record Remote : Type := {
  (** [octokit.rest.repos.listReleases] on npm/cli, 50 per page: the
      [data] of the response for a page number, or a rejection. *)
  listReleases : nat -> outcome (list release);
  (** All pages of the npm/npm and of the npm/cli feed, 100 per page, as
      [octokit.paginate] walks them. *)
  npm_pages : outcome (list (list release));
  cli_pages : outcome (list (list release));
  (** [nodist.getCurrentVersion] and [nodist.getMatchingNpmVersion]. *)
  getCurrentVersion : outcome string;
  getMatchingNpmVersion : string -> outcome string
}.

Module Tag.

Definition is_digit (c : ascii) : bool :=
  let n := nat_of_ascii c in ((48 <=? n) && (n <=? 57))%nat.

Fixpoint skip_digits (s : string) : string :=
  match s with
  | EmptyString => EmptyString
  | String c r => if is_digit c then skip_digits r else s
  end.

(** One or more digits, then the rest. *)
Definition digits (s : string) : option string :=
  match s with
  | EmptyString => None
  | String c r => if is_digit c then Some (skip_digits r) else None
  end.

Definition dot (s : string) : option string :=
  match s with
  | EmptyString => None
  | String c r => if Ascii.eqb c "." then Some r else None
  end.

Definition opt_bind {A B} (o : option A) (k : A -> option B) : option B :=
  match o with Some a => k a | None => None end.

(** The test of the regular expression of [getNpmReleases] (npm.js 144):
    the letter v, digits, a dot, digits, a dot, digits, end of text. *)
Definition is_release_tag (s : string) : bool :=
  match s with
  | EmptyString => false
  | String c r =>
      Ascii.eqb c "v" &&
      match opt_bind (opt_bind (opt_bind (opt_bind (digits r) dot) digits)
                        dot) digits with
      | Some EmptyString => true
      | _ => false
      end
  end.

End Tag.

Section Resolver.

Context {SV : Semver}.
Variable remote : Remote.

(** [getNpmReleases] (npm.js 137-147). An exception of [semver.compare]
    inside [sort] is thrown in the [then] callback and rejects the promise. *)
Definition getNpmReleases (page : nat) : outcome (list string) :=
  data <- listReleases remote page ;;
  Js.sort_with semver_compare
    (List.filter Tag.is_release_tag (map tag_name data)).

(** The loop of [latestVersion] (npm.js 157-162) from the state
    [(releases, page)]; [fetched] lists the pages requested so far, last
    first. [None]: the loop has not ended after [fuel] iterations. *)
Fixpoint latest_loop (fuel : nat) (releases : list string) (page : nat)
         (fetched : list nat) : option (outcome (option string) * list nat) :=
  match releases with
  | _ :: _ => Some (Resolved (Js.pop releases), rev fetched)
  | [] =>
      match fuel with
      | O => None
      | S fuel' =>
          match getNpmReleases page with
          | Rejected e => Some (Rejected e, rev (page :: fetched))
          | Resolved rs => latest_loop fuel' rs (page + 1) (page :: fetched)
          end
      end
  end.

(** [NPMIST.latestVersion] (npm.js 153-163). *)
Definition latestVersion (fuel : nat)
  : option (outcome (option string) * list nat) :=
  latest_loop fuel [] 1 [].

(** [NPMIST.matchingVersion] (npm.js 169-179). *)
Definition matchingVersion : outcome string :=
  nodeVersion <- getCurrentVersion remote ;;
  getMatchingNpmVersion remote nodeVersion.

(** [octokit.paginate] with the mapping callback of [listAvailable]
    (npm.js 79-81): the tag names of all pages, in order. *)
Definition paginate_tags (pages : outcome (list (list release)))
  : outcome (list jsval) :=
  ps <- pages ;;
  Resolved (flat_map (fun data => map (fun r => JString (tag_name r)) data) ps).

(** The filter callback of [listAvailable] (npm.js 95):
    [release.name.indexOf(':') < 0]. *)
Definition has_no_colon (release : jsval) : outcome bool :=
  n <- Js.get_prop release "name" ;;
  i <- Js.call_indexOf n ":" ;;
  Resolved (i <? 0)%Z.

(** The [then] callback of [listAvailable] (npm.js 90-98). *)
Definition merge_feeds (npm cli : list jsval) : outcome (list jsval) :=
  cli' <- Js.filter (fun r _ => has_no_colon r) cli ;;
  Resolved (npm ++ cli').

(** [NPMIST.listAvailable] (npm.js 73-99). *)
Definition listAvailable : outcome (list jsval) :=
  npm <- paginate_tags (npm_pages remote) ;;
  cli <- paginate_tags (cli_pages remote) ;;
  merge_feeds npm cli.

Definition quote : string := String (ascii_of_nat 34) EmptyString.

Definition no_match_message (v : string) : string :=
  ("Version spec, " ++ quote ++ v ++ quote ++ ", didn't match any version")%string.

(** The [then] callback of [resolveVersion] (npm.js 243-255). *)
Definition resolve_in (v : string) (available : list jsval) : outcome jsval :=
  let version := Js.of_option (sv_clean v) in
  let version :=
    if Js.truthy (Js.of_option (sv_validRange v))
    then match maxSatisfying available v with
         | Some x => x
         | None => JNull
         end
    else version in
  if negb (Js.truthy version)
  then Rejected (Error (no_match_message v))
  else Resolved version.

(** [NPMIST.resolveVersion] (npm.js 225-259): what [done] receives.
    [None]: the call has not settled after [fuel] page fetches. A
    rejection of [latestVersion] or [matchingVersion] has no handler, so
    [done] is not called. *)
Definition resolveVersion (fuel : nat) (v : string)
  : option (callback jsval) :=
  if String.eqb "latest" v || String.eqb v "" then
    match latestVersion fuel with
    | None => None
    | Some (Resolved (Some latest), _) => Some (Called (Resolved (JString latest)))
    | Some (Resolved None, _) => Some (Called (Resolved JUndefined))
    | Some (Rejected _, _) => Some NotCalled
    end
  else if String.eqb "match" v then
    match matchingVersion with
    | Resolved version => Some (Called (Resolved (JString version)))
    | Rejected _ => Some NotCalled
    end
  else
    match listAvailable with
    | Resolved available =>
        match resolve_in v available with
        | Resolved version => Some (Called (Resolved version))
        | Rejected e => Some (Called (Rejected e))
        end
    | Rejected e => Some (Called (Rejected e))
    end.

End Resolver.

(** ** The file system *)

Module Fs.

(** A path: its segments below the root. *)
Definition path : Type := list string.

Inductive kind : Type :=
| KFile
| KDir
| KLink (target : string)
| KJunction (target : string).

(** The file system: every existing path with what is there. A directory
    lists its entries in the order they stand here. Paths through a link
    or a junction are not resolved: nothing is found below one. *)
Definition t : Type := list (path * kind).

Fixpoint path_eqb (p q : path) : bool :=
  match p, q with
  | [], [] => true
  | a :: p', b :: q' => String.eqb a b && path_eqb p' q'
  | _, _ => false
  end.

Fixpoint is_prefix (p q : path) : bool :=
  match p, q with
  | [], _ => true
  | a :: p', b :: q' => String.eqb a b && is_prefix p' q'
  | _ :: _, [] => false
  end.

(** Path text to segments: both separators split. *)
Fixpoint segments (s : string) : list string :=
  match s with
  | EmptyString => [EmptyString]
  | String c s' =>
      if Ascii.eqb c "\" || Ascii.eqb c "/" then EmptyString :: segments s'
      else match segments s' with
           | [] => [String c EmptyString]
           | h :: r => String c h :: r
           end
  end.

(** Normalisation as [path.join] does it: empty and dot segments vanish,
    a double dot removes the segment before it. [acc] is reversed. *)
Fixpoint normalize (acc : list string) (segs : list string) : path :=
  match segs with
  | [] => rev acc
  | s :: rest =>
      if String.eqb s "" || String.eqb s "." then normalize acc rest
      else if String.eqb s ".." then normalize (tl acc) rest
      else normalize (s :: acc) rest
  end.

(** [path.join(base, rel)] for a normalised absolute [base]. *)
Definition join (base : path) (rel : string) : path :=
  normalize (rev base) (segments rel).

Fixpoint lookup (fs : t) (p : path) : option kind :=
  match fs with
  | [] => None
  | (q, k) :: rest => if path_eqb q p then Some k else lookup rest p
  end.

(** What is at [p]; the root is always there. *)
Definition kind_at (fs : t) (p : path) : option kind :=
  match p with
  | [] => Some KDir
  | _ => lookup fs p
  end.

Definition existsSync (fs : t) (p : path) : bool :=
  match kind_at fs p with
  | Some _ => true
  | None => false
  end.

(** A directory entry as [readdir] with [withFileTypes] reports it: the
    kind is the one seen when the directory was read. *)
Record dirent : Type := {
  d_name : string;
  d_kind : kind
}.

Definition isSymbolicLink (d : dirent) : bool :=
  match d_kind d with
  | KLink _ | KJunction _ => true
  | _ => false
  end.

Definition isDirectory (d : dirent) : bool :=
  match d_kind d with
  | KDir => true
  | _ => false
  end.

(** The name under which [p] is an entry of the directory [dir]. *)
Fixpoint entry_name (dir p : path) : option string :=
  match dir, p with
  | [], [n] => Some n
  | a :: dir', b :: p' => if String.eqb a b then entry_name dir' p' else None
  | _, _ => None
  end.

Fixpoint entries (fs : t) (dir : path) : list dirent :=
  match fs with
  | [] => []
  | (p, k) :: rest =>
      match entry_name dir p with
      | Some n => {| d_name := n; d_kind := k |} :: entries rest dir
      | None => entries rest dir
      end
  end.

Definition readdir (fs : t) (dir : path) : outcome (list dirent) :=
  match kind_at fs dir with
  | Some KDir => Resolved (entries fs dir)
  | Some _ => Rejected (External "ENOTDIR")
  | None => Rejected (External "ENOENT")
  end.

Definition readlink (fs : t) (p : path) : outcome string :=
  match kind_at fs p with
  | Some (KLink target) | Some (KJunction target) => Resolved target
  | Some _ => Rejected (External "EINVAL")
  | None => Rejected (External "ENOENT")
  end.

Fixpoint remove_key (fs : t) (p : path) : t :=
  match fs with
  | [] => []
  | (q, k) :: rest =>
      if path_eqb q p then remove_key rest p else (q, k) :: remove_key rest p
  end.

Definition unlink (fs : t) (p : path) : outcome t :=
  match kind_at fs p with
  | Some KDir => Rejected (External "EPERM")
  | Some _ => Resolved (remove_key fs p)
  | None => Rejected (External "ENOENT")
  end.

Definition parent (p : path) : path := removelast p.

Definition parent_is_dir (fs : t) (p : path) : bool :=
  match p with
  | [] => false
  | _ =>
      match kind_at fs (parent p) with
      | Some KDir => true
      | _ => false
      end
  end.

(** [fs.symlink(target, p, 'junction')]; [supported] tells whether the
    volume takes a junction at [p]. *)
Definition symlink_junction (supported : path -> bool) (fs : t)
           (target : string) (p : path) : outcome t :=
  if existsSync fs p then Rejected (External "EEXIST")
  else if negb (parent_is_dir fs p) then Rejected (External "ENOENT")
  else if supported p then Resolved (fs ++ [(p, KJunction target)])
  else Rejected (External "EPERM").

Fixpoint move_keys (src dst : path) (fs : t) : t :=
  match fs with
  | [] => []
  | (q, k) :: rest =>
      (if is_prefix src q then (dst ++ skipn (length src) q, k) else (q, k))
        :: move_keys src dst rest
  end.

(** [fs.rename(src, dst)]: the whole tree below [src] moves. It fails when
    [src] is missing, when [dst] lies in [src] or exists, and when the
    directory that is to hold [dst] is missing. *)
Definition rename (fs : t) (src dst : path) : outcome t :=
  match kind_at fs src with
  | None => Rejected (External "ENOENT")
  | Some _ =>
      if is_prefix src dst then Rejected (External "EINVAL")
      else if existsSync fs dst then Rejected (External "EPERM")
      else if negb (parent_is_dir fs dst) then Rejected (External "ENOENT")
      else Resolved (move_keys src dst fs)
  end.

(** [mkdirp(p)]: every missing directory on the way to [p] is made;
    [done] is the part of the path already walked, reversed. *)
Fixpoint mkdirp_from (fs : t) (done : list string) (todo : list string)
  : outcome t :=
  match todo with
  | [] => Resolved fs
  | s :: rest =>
      let here := rev (s :: done) in
      match kind_at fs here with
      | Some KDir => mkdirp_from fs (s :: done) rest
      | Some _ => Rejected (External "ENOTDIR")
      | None => mkdirp_from (fs ++ [(here, KDir)]) (s :: done) rest
      end
  end.

Definition mkdirp (fs : t) (p : path) : outcome t := mkdirp_from fs [] p.

Fixpoint remove_tree (fs : t) (p : path) : t :=
  match fs with
  | [] => []
  | (q, k) :: rest =>
      if is_prefix p q then remove_tree rest p else (q, k) :: remove_tree rest p
  end.

(** Entries of an archive, relative to the directory they are unpacked
    into. *)
Definition unpack (fs : t) (cwd : path) (content : list (path * kind)) : t :=
  fs ++ map (fun e => (cwd ++ fst e, snd e)) content.

End Fs.

(** ** Installer, remover and symlink repair *)

(** What the module asks of the world outside the process, in the order it
    asks. *)
Inductive event : Type :=
| EvExists (p : Fs.path)
| EvMkdirp (p : Fs.path)
| EvDownload (url : string) (cwd : Fs.path)
| EvRimraf (p : Fs.path)
| EvReaddir (p : Fs.path)
| EvReadlink (p : Fs.path)
| EvUnlink (p : Fs.path)
| EvSymlink (target : string) (p : Fs.path)
| EvRename (src dst : Fs.path).

Definition is_network (e : event) : bool :=
  match e with
  | EvDownload _ _ => true
  | _ => false
  end.

Record world : Type := {
  files : Fs.t;
  log : list event
}.

Definition emit (e : event) (w : world) : world :=
  {| files := files w; log := log w ++ [e] |}.

Definition with_files (fs : Fs.t) (w : world) : world :=
  {| files := fs; log := log w |}.

(** What the machine and the network answer. *)
Record Host : Type := {
  (** Does the volume take a junction at this path? *)
  junction_supported : Fs.path -> bool;
  (** The error code of [rimraf] on a path, if it fails. *)
  rimraf_failure : Fs.path -> option string;
  (** The archive behind a URL: the entries unpacked (first path component
      stripped) until the [tar] stream ended or emitted an error, and that
      error. Only the [tar] stream has a listener for errors; an error of
      the download stream or of the unzip stream is an uncaught exception
      that ends the process without a call of [done], and a run of that
      kind is not among the ones described here. *)
  downloadFileStream : string -> list (Fs.path * Fs.kind) * option string
}.

(** [Promise.all]: the values, or the first rejection. *)
Fixpoint promise_all {A : Type} (ps : list (outcome A)) : outcome (list A) :=
  match ps with
  | [] => Resolved []
  | p :: rest =>
      a <- p ;;
      r <- promise_all rest ;;
      Resolved (a :: r)
  end.

Section Installer.

Context {SV : Semver}.
Variable host : Host.
Variable repoPath : Fs.path.

(** The body of the symbolic-link branch of [resolveLinkedWorkspaces]
    (npm.js 53-60). *)
Definition repair_link (dirPath filePath : Fs.path) (w : world)
  : outcome unit * world :=
  let w := emit (EvReadlink filePath) w in
  match Fs.readlink (files w) filePath with
  | Rejected e => (Rejected e, w)
  | Resolved linkTarget =>
      let w := emit (EvUnlink filePath) w in
      match Fs.unlink (files w) filePath with
      | Rejected e => (Rejected e, w)
      | Resolved fs1 =>
          let w := emit (EvSymlink linkTarget filePath) (with_files fs1 w) in
          match Fs.symlink_junction (junction_supported host) (files w)
                  linkTarget filePath with
          | Resolved fs2 => (Resolved tt, with_files fs2 w)
          | Rejected _ =>
              let src := Fs.join dirPath linkTarget in
              let w := emit (EvRename src filePath) w in
              match Fs.rename (files w) src filePath with
              | Resolved fs3 => (Resolved tt, with_files fs3 w)
              | Rejected e => (Rejected e, w)
              end
          end
      end
  end.

(** The last line of [resolveLinkedWorkspaces] (npm.js 66). *)
Definition sum_counts (dirPromises : list (outcome nat)) (fixedLinks : nat)
  : outcome nat :=
  counts <- promise_all dirPromises ;;
  Resolved (fold_left Nat.add counts fixedLinks).

(** The [for] loop of [resolveLinkedWorkspaces] (npm.js 50-65) over the
    entries still to visit; [walk] is the recursive call. A rejected
    sub-walk does not stop the loop: its rejection surfaces in
    [Promise.all]. *)
Fixpoint repair_entries (walk : Fs.path -> world -> option (outcome nat * world))
         (dirPath : Fs.path) (files : list Fs.dirent) (fixedLinks : nat)
         (dirPromises : list (outcome nat)) (w : world)
  : option (outcome nat * world) :=
  match files with
  | [] => Some (sum_counts dirPromises fixedLinks, w)
  | file :: rest =>
      let filePath := dirPath ++ [Fs.d_name file] in
      if Fs.isSymbolicLink file then
        match repair_link dirPath filePath w with
        | (Rejected e, w') => Some (Rejected e, w')
        | (Resolved _, w') =>
            repair_entries walk dirPath rest (S fixedLinks) dirPromises w'
        end
      else if Fs.isDirectory file then
        match walk filePath w with
        | None => None
        | Some (r, w') =>
            repair_entries walk dirPath rest fixedLinks (dirPromises ++ [r]) w'
        end
      else repair_entries walk dirPath rest fixedLinks dirPromises w
  end.

(** [resolveLinkedWorkspaces] (npm.js 46-67). A sub-walk runs to its end
    where it is called; the interleaving of concurrent sub-walks is not
    modelled. [None]: the directory tree is deeper than [fuel]. *)
Fixpoint resolveLinkedWorkspaces (fuel : nat) (dirPath : Fs.path) (w : world)
  : option (outcome nat * world) :=
  match fuel with
  | O => None
  | S fuel' =>
      let w := emit (EvReaddir dirPath) w in
      match Fs.readdir (files w) dirPath with
      | Rejected e => Some (Rejected e, w)
      | Resolved files =>
          repair_entries (resolveLinkedWorkspaces fuel') dirPath files 0 [] w
      end
  end.

(** [NPMIST.remove] (npm.js 267-285): what [done] receives, and the world
    after. *)
Definition remove (v : string) (w : world) : outcome string * world :=
  let version := sv_clean v in
  if negb (Js.truthy (Js.of_option (valid version)))
  then (Rejected (Error "Invalid version"), w)
  else
    match version with
    | None => (Rejected (Error "Invalid version"), w)
    | Some version =>
        let archivePath := Fs.join repoPath version in
        let w := emit (EvExists archivePath) w in
        if negb (Fs.existsSync (files w) archivePath)
        then (Resolved version, w)
        else
          let w := emit (EvRimraf archivePath) w in
          match rimraf_failure host archivePath with
          | Some err => (Rejected (External err), w)
          | None =>
              (Resolved version,
               with_files (Fs.remove_tree (files w) archivePath) w)
          end
    end.

(** The download and unpack step of [install] (npm.js 315-324): the
    promise is settled by the [end] or the [error] of the [tar] stream. *)
Definition download_and_extract (version : string) (archivePath : Fs.path)
           (w : world) : outcome unit * world :=
  let downloadLink := downloadUrl version in
  let w := emit (EvDownload downloadLink archivePath) w in
  let (content, failure) := downloadFileStream host downloadLink in
  let w := with_files (Fs.unpack (files w) archivePath content) w in
  match failure with
  | Some err => (Rejected (External err), w)
  | None => (Resolved tt, w)
  end.

(** [NPMIST.install] (npm.js 294-341): what [done] receives, and the world
    after. [None]: the unpacked tree is deeper than [fuel]. *)
Definition install (fuel : nat) (v : string) (w : world)
  : option (outcome string * world) :=
  let version := sv_clean v in
  if negb (Js.truthy (Js.of_option (valid version)))
  then Some (Rejected (Error "Invalid version"), w)
  else
    match version with
    | None => Some (Rejected (Error "Invalid version"), w)
    | Some version =>
        let archivePath := Fs.join repoPath version in
        let w := emit (EvExists archivePath) w in
        if Fs.existsSync (files w) archivePath
        then Some (Resolved version, w)
        else
          let w := emit (EvMkdirp archivePath) w in
          match Fs.mkdirp (files w) archivePath with
          | Rejected err => Some (Rejected err, w)
          | Resolved fs1 =>
              match download_and_extract version archivePath
                      (with_files fs1 w) with
              | (Rejected err, w) => Some (Rejected err, w)
              | (Resolved _, w) =>
                  if sv_gte version "8.0.0" then
                    match resolveLinkedWorkspaces fuel
                            (Fs.join archivePath "node_modules") w with
                    | None => None
                    | Some (Rejected err, w) => Some (Rejected err, w)
                    | Some (Resolved _, w) => Some (Resolved version, w)
                    end
                  else Some (Resolved version, w)
              end
          end
    end.

End Installer.

(** ** The installed set *)

(** [vermanager.compareable] of [lib/versions.js], a file that is not among
    the sources: it is taken as a parameter. The specification calls it a
    custom comparable projection of a semantic version; here it sends a
    version to a number. *)
Class VersionManager : Type := {
  compareable : string -> Z
}.

(** The state an [npmist] object carries between calls. *)
Record npmist : Type := {
  installedCache : option (list string)
}.

Definition message_of (e : js_error) : string :=
  match e with
  | TypeError m | Error m | PlainMessage m | External m => m
  end.

Section InstalledSet.

Context {SV : Semver} {VM : VersionManager}.
Variable repoPath : Fs.path.

(** The comparison callback of [listInstalled] (npm.js 123-130). *)
Definition by_compareable (v1 v2 : string) : Z :=
  if (compareable v2 <? compareable v1)%Z then 1%Z else (-1)%Z.

(** [ls.filter(semver.valid)] followed by the sort (npm.js 122-130).
    [filter] calls [semver.valid(entry, index, ls)]. *)
Definition installed_of (ls : list string) : list string :=
  Js.sort by_compareable
    (Js.filteri (fun v i =>
       Js.truthy (Js.of_option (sv_valid (JNumber (Z.of_nat i)) v))) ls).

(** [NPMIST.listInstalled] (npm.js 106-135): what [cb] receives, and the
    object after. An empty array is a cache hit as well. *)
Definition listInstalled (self : npmist) (w : world)
  : outcome (list string) * npmist * world :=
  match installedCache self with
  | Some cached => (Resolved cached, self, w)
  | None =>
      let w := emit (EvReaddir repoPath) w in
      match Fs.readdir (files w) repoPath with
      | Rejected err =>
          (Rejected (PlainMessage
             ("Reading the version directory " ++ JsString.join "\" repoPath
              ++ " failed: " ++ message_of err)%string), self, w)
      | Resolved entries =>
          let ls := installed_of (map Fs.d_name entries) in
          (Resolved ls, {| installedCache := Some ls |}, w)
      end
  end.

End InstalledSet.

(** ** Reference definitions in the words of the specification *)

(** The version without its leading letter v, if it has one. *)
Definition strip_leading_v (version : string) : string :=
  match version with
  | EmptyString => EmptyString
  | String c rest => if Ascii.eqb c "v" then rest else version
  end.

(** The download URL as the specification words it: the template, then the
    version with only a leading v stripped. *)
Definition downloadUrl_spec (version : string) : string :=
  ("https://codeload.github.com/npm/cli/tar.gz/v" ++ strip_leading_v version)%string.

(** The path of the version file in the directory made of [segs]. *)
Definition version_file (segs : list string) : string :=
  (JsString.join "\" segs ++ "\.npm-version")%string.


(** ** A fragment of node-semver, for the examples

    Versions of the form MAJOR.MINOR.PATCH with an optional leading v; the
    ranges are a star, a caret range or one exact version. It stands in for
    the library wherever a property is run on concrete versions. A number
    of a version has no leading zero, unless the version is parsed loosely:
    then leading zeros pass, and so does any run of the letter v, equal
    signs and white space in front. *)

Module SemverCore.

Definition triple : Type := (N * N * N)%type.

Definition all_digits (s : string) : bool :=
  match Tag.digits s with
  | Some EmptyString => true
  | _ => false
  end.

(** A numeric identifier: digits, the first of which is a zero only when
    it stands alone. *)
Definition numeric (s : string) : bool :=
  all_digits s &&
  match s with
  | String c (String _ _) => negb (Ascii.eqb c "0")
  | _ => true
  end.

Fixpoint number (acc : N) (s : string) : N :=
  match s with
  | EmptyString => acc
  | String c r => number (acc * 10 + (N.of_nat (nat_of_ascii c) - 48)) r
  end.

Definition parse (s : string) : option triple :=
  match JsString.split "." (strip_leading_v s) with
  | [a; b; c] =>
      if numeric a && numeric b && numeric c
      then Some (number 0 a, number 0 b, number 0 c)
      else None
  | _ => None
  end.

(** What the loose grammar skips in front of the numbers. *)
Fixpoint skip_loose_prefix (s : string) : string :=
  match s with
  | EmptyString => EmptyString
  | String c r =>
      if Ascii.eqb c "v" || Ascii.eqb c "=" || JsString.is_space c
      then skip_loose_prefix r
      else s
  end.

Definition parse_loose (s : string) : option triple :=
  match JsString.split "." (skip_loose_prefix s) with
  | [a; b; c] =>
      if all_digits a && all_digits b && all_digits c
      then Some (number 0 a, number 0 b, number 0 c)
      else None
  | _ => None
  end.

(** The options argument of the library: nothing falsy asks for loose
    parsing, an object asks for it by its [loose] property, and any other
    truthy value (a number, a text) asks for it as well. *)
Definition loose_option (options : jsval) : bool :=
  match options with
  | JObject props =>
      match Js.assoc "loose" props with
      | Some flag => Js.truthy flag
      | None => false
      end
  | other => Js.truthy other
  end.

Definition decimal (n : N) : string := NilZero.string_of_uint (N.to_uint n).

(** The [version] property of a parsed version. *)
Definition show (x : triple) : string :=
  let '(a, b, c) := x in
  (decimal a ++ "." ++ decimal b ++ "." ++ decimal c)%string.

Definition compare3 (x y : triple) : Z :=
  let '(a, b, c) := x in
  let '(a', b', c') := y in
  match (a ?= a')%N with
  | Lt => (-1)%Z
  | Gt => 1%Z
  | Eq =>
      match (b ?= b')%N with
      | Lt => (-1)%Z
      | Gt => 1%Z
      | Eq =>
          match (c ?= c')%N with
          | Lt => (-1)%Z
          | Gt => 1%Z
          | Eq => 0%Z
          end
      end
  end.

Definition compare (a b : string) : Z :=
  match parse a, parse b with
  | Some x, Some y => compare3 x y
  | _, _ => 0%Z
  end.

Definition valid (options : jsval) (s : string) : option string :=
  if loose_option options then
    match parse_loose s with
    | Some x => Some (show x)
    | None => None
    end
  else
    match parse s with
    | Some _ => Some (strip_leading_v s)
    | None => None
    end.

(** The constructor throws for a text that is not a version. *)
Definition error (s : string) : option string :=
  match parse s with
  | Some _ => None
  | None => Some ("Invalid Version: " ++ s)%string
  end.

Definition clean (s : string) : option string :=
  valid JUndefined (JsString.trim s).

(** A caret range lets the parts right of the first non-zero one grow. *)
Definition caret (x base : triple) : bool :=
  let '(a, b, c) := base in
  let '(a', b', c') := x in
  (0 <=? compare3 x base)%Z &&
  (if (0 <? a)%N then (a' =? a)%N
   else if (0 <? b)%N then (a' =? 0)%N && (b' =? b)%N
   else (compare3 x base =? 0)%Z).

Definition validRange (r : string) : option string :=
  if String.eqb r "*" then Some r
  else match r with
       | EmptyString => None
       | String c v =>
           match (if Ascii.eqb c "^" then parse v else parse r) with
           | Some _ => Some r
           | None => None
           end
       end.

Definition satisfies (s r : string) : bool :=
  match parse s with
  | None => false
  | Some x =>
      if String.eqb r "*" then true
      else match r with
           | EmptyString => false
           | String c v =>
               if Ascii.eqb c "^" then
                 match parse v with
                 | Some base => caret x base
                 | None => false
                 end
               else
                 match parse r with
                 | Some y => (compare3 x y =? 0)%Z
                 | None => false
                 end
           end
  end.

Definition gte (a b : string) : bool := (0 <=? compare a b)%Z.

(** The comparable projection: each part padded to three digits. *)
Definition padded (s : string) : Z :=
  match parse s with
  | Some (a, b, c) => Z.of_N (a * 1000000 + b * 1000 + c)
  | None => 0%Z
  end.

End SemverCore.

#[export] Instance semver_core : Semver := {|
  sv_valid := SemverCore.valid;
  sv_clean := SemverCore.clean;
  sv_validRange := SemverCore.validRange;
  sv_satisfies := SemverCore.satisfies;
  sv_compare := SemverCore.compare;
  sv_gte := SemverCore.gte;
  sv_error := SemverCore.error
|}.

#[export] Instance padded_versions : VersionManager := {|
  compareable := SemverCore.padded
|}.


(** ** Example catalogs *)

Module Examples.

Definition rel (tag title : string) : release :=
  {| tag_name := tag; name := Some title |}.

Definition no_runtime : outcome string := Rejected (External "ENOENT").

(** A catalog whose first page holds a library release only and whose
    second page holds the tag v8.1.0. *)
Definition two_pages : Remote := {|
  listReleases := fun page =>
    match page with
    | 1 => Resolved [rel "libnpmaccess-v7.0.0" "libnpmaccess: v7.0.0"]
    | 2 => Resolved [rel "v8.1.0" "v8.1.0"]
    | _ => Resolved []
    end;
  npm_pages := Resolved [];
  cli_pages := Resolved [];
  getCurrentVersion := no_runtime;
  getMatchingNpmVersion := fun _ => no_runtime
|}.


(** A catalog every page of which holds the version v2.0.0 and the tag
    v01.0.0, whose major number has a leading zero. *)
Definition leading_zero : Remote := {|
  listReleases := fun _ =>
    Resolved [rel "v2.0.0" "v2.0.0"; rel "v01.0.0" "v01.0.0"];
  npm_pages := Resolved [];
  cli_pages := Resolved [];
  getCurrentVersion := no_runtime;
  getMatchingNpmVersion := fun _ => no_runtime
|}.

(** The first feed with three releases, the second one empty. *)
Definition npm_feed_only : Remote := {|
  listReleases := fun _ => Resolved [];
  npm_pages := Resolved [[rel "1.0.0" "1.0.0"; rel "2.0.0" "2.0.0"];
                         [rel "2.5.3" "2.5.3"]];
  cli_pages := Resolved [];
  getCurrentVersion := no_runtime;
  getMatchingNpmVersion := fun _ => no_runtime
|}.

(** Both feeds filled; the second one mixes a release of npm with a
    release of a library. *)
Definition both_feeds : Remote := {|
  listReleases := fun _ => Resolved [];
  npm_pages := Resolved [[rel "v1.0.0" "v1.0.0"]];
  cli_pages := Resolved [[rel "v8.1.0" "v8.1.0";
                          rel "arborist-v2.0.0" "arborist: v2.0.0"]];
  getCurrentVersion := no_runtime;
  getMatchingNpmVersion := fun _ => no_runtime
|}.

End Examples.


(** ** The candidate pool *)

(** Does the entry carry a name with a colon in it? *)
Definition name_has_colon (r : jsval) : bool :=
  match Js.get_prop r "name" with
  | Resolved (JString s) => JsString.mem ":" s
  | _ => false
  end.

(** [sub] occurs in [s]. *)
Definition contains (sub s : string) : Prop :=
  exists a b, s = (a ++ sub ++ b)%string.

Section Pool.

Context {SV : Semver}.

(** A pool entry that is a version satisfying the range. *)
Definition satisfying (range : string) (x : jsval) : Prop :=
  exists s, as_version x = Some s /\ sv_satisfies s range = true.

(** [x] is not above [m] in the order of [semver.compare]. *)
Definition not_above (x m : jsval) : Prop :=
  forall sx sm, as_version x = Some sx -> as_version m = Some sm ->
                (sv_compare sx sm <= 0)%Z.

(** [m] is a greatest entry of [pool] satisfying [range]. *)
Definition greatest_satisfying (pool : list jsval) (range : string)
           (m : jsval) : Prop :=
  In m pool /\ satisfying range m
  /\ forall x, In x pool -> satisfying range x -> not_above x m.

End Pool.


(** ** Example machines and trees *)

Module Trees.

(** A volume that takes no junction; nothing to download, nothing that
    keeps [rimraf] from its work. *)
Definition no_junctions : Host := {|
  junction_supported := fun _ => false;
  rimraf_failure := fun _ => None;
  downloadFileStream := fun _ => ([], None)
|}.

(** A tree with one symbolic link, [a], whose target is the directory [b]
    next to it; the directory lists [a] before [b]. *)
Definition link_beside_target : Fs.t :=
  [ (["npm"], Fs.KDir);
    (["npm"; "node_modules"], Fs.KDir);
    (["npm"; "node_modules"; "a"], Fs.KLink "b");
    (["npm"; "node_modules"; "b"], Fs.KDir);
    (["npm"; "node_modules"; "b"; "index.js"], Fs.KFile) ].

(** A tree with one symbolic link whose target lies outside the walked
    directory, as in the npm archive. *)
Definition link_to_workspace : Fs.t :=
  [ (["npm"], Fs.KDir);
    (["npm"; "node_modules"], Fs.KDir);
    (["npm"; "node_modules"; "arborist"], Fs.KLink "../workspaces/arborist");
    (["npm"; "node_modules"; "semver"], Fs.KDir);
    (["npm"; "node_modules"; "semver"; "index.js"], Fs.KFile);
    (["npm"; "workspaces"], Fs.KDir);
    (["npm"; "workspaces"; "arborist"], Fs.KDir);
    (["npm"; "workspaces"; "arborist"; "index.js"], Fs.KFile) ].

Definition fresh (fs : Fs.t) : world := {| files := fs; log := [] |}.

End Trees.


(** The install repository of the examples and a world in which version
    6.14.0 is installed. *)
Module Repo.

Definition repoPath : Fs.path := ["nodist"; "npmv"].

Definition one_installed : world := {|
  files := [ (["nodist"], Fs.KDir);
             (["nodist"; "npmv"], Fs.KDir);
             (["nodist"; "npmv"; "6.14.0"], Fs.KDir);
             (["nodist"; "npmv"; "6.14.0"; "package.json"], Fs.KFile);
             (["nodist"; "npmv"; "README"], Fs.KFile) ];
  log := []
|}.

(** A machine whose download of any archive unpacks a package file and a
    dependency directory. *)
Definition online : Host := {|
  junction_supported := fun _ => true;
  rimraf_failure := fun _ => None;
  downloadFileStream := fun _ =>
    ([ (["package.json"], Fs.KFile);
       (["node_modules"], Fs.KDir);
       (["node_modules"; "semver"], Fs.KDir) ], None)
|}.

End Repo.


(** ** The installed set in the words of the specification *)

Section InstalledSpec.

Context {SV : Semver} {VM : VersionManager}.

(** Is the directory entry a valid semantic version? *)
Definition is_valid_entry (v : string) : bool :=
  Js.truthy (Js.of_option (sv_valid JUndefined v)).

(** Ascending in the comparable projection. *)
Definition ascending (l : list string) : Prop :=
  StronglySorted (fun a b => (compareable a <= compareable b)%Z) l.

(** The verdict of [semver.valid] on the entries does not hang on the
    index that [filter] passes along as second argument. *)
Definition index_blind (ls : list string) : Prop :=
  forall v i, In v ls ->
    Js.truthy (Js.of_option (sv_valid (JNumber (Z.of_nat i)) v))
    = is_valid_entry v.

(** No two valid entries project to the same number. *)
Definition distinct_keys (ls : list string) : Prop :=
  forall a b, In a ls -> In b ls ->
    is_valid_entry a = true -> is_valid_entry b = true ->
    compareable a = compareable b -> a = b.

End InstalledSpec.


(** Two listings of one repository: three versions and a stray file, in
    two different orders. *)
Module Listing.

Definition entry (name : string) (k : Fs.kind) : Fs.path * Fs.kind :=
  (Repo.repoPath ++ [name], k).

Definition repository : list (Fs.path * Fs.kind) :=
  [ entry "8.1.0" Fs.KDir; entry "README" Fs.KFile;
    entry "6.14.0" Fs.KDir; entry "10.2.0" Fs.KDir ].

Definition base : Fs.t := [ (["nodist"], Fs.KDir); (Repo.repoPath, Fs.KDir) ].

Definition listed : world := {| files := base ++ repository; log := [] |}.

(** A repository that holds the version 6.14.0 and a directory named
    8.01.0, which is no semantic version: its second number has a leading
    zero. The directory lists the stray entry last, or first. *)
Definition stray_last : world := {|
  files := base ++ [ entry "6.14.0" Fs.KDir; entry "8.01.0" Fs.KDir ];
  log := []
|}.

Definition stray_first : world := {|
  files := base ++ [ entry "8.01.0" Fs.KDir; entry "6.14.0" Fs.KDir ];
  log := []
|}.

Definition listed_backwards : world :=
  {| files := base ++ rev repository; log := [] |}.

End Listing.


(** The number of links a log records as removed. *)
Fixpoint unlinks (l : list event) : nat :=
  match l with
  | [] => 0
  | EvUnlink _ :: rest => S (unlinks rest)
  | _ :: rest => unlinks rest
  end.


(** ** Resolution among the installed versions *)

(** [arr[i]]: nothing outside the array. *)
Definition js_index {A : Type} (l : list A) (i : Z) : option A :=
  if (i <? 0)%Z then None else nth_error l (Z.to_nat i).

(** What [done] of [resolveVersionLocally] received: no argument, an error,
    or a value; or the exception that escaped the callback instead. *)
Inductive local_done : Type :=
| DoneNothing
| DoneError (e : js_error)
| DoneValue (v : jsval)
| Thrown (e : js_error).

Section LocalResolver.

Context {SV : Semver} {VM : VersionManager}.
Variable remote : Remote.
Variable repoPath : Fs.path.

(** The inner [resolveVersion] of [resolveVersionLocally] (npm.js 209-217).
    [installed] is [None] when [listInstalled] reported an error: the
    callback ignores the error and goes on with [undefined]. *)
Definition resolve_installed (spec : string) (installed : option (list string))
  : local_done :=
  let version := Js.of_option (sv_clean spec) in
  if Js.truthy (Js.of_option (sv_validRange spec)) then
    match installed with
    | None => Thrown (TypeError "Cannot read properties of undefined")
    | Some l =>
        DoneValue (match maxSatisfying (map JString l) spec with
                   | Some x => x
                   | None => JNull
                   end)
    end
  else DoneValue version.

(** [NPMIST.resolveVersionLocally] (npm.js 191-218). *)
Definition resolveVersionLocally (spec : string) (self : npmist) (w : world)
  : local_done * npmist * world :=
  if String.eqb spec "" then (DoneNothing, self, w)
  else
    let '(listed, self, w) := listInstalled repoPath self w in
    let installed :=
      match listed with
      | Resolved l => Some l
      | Rejected _ => None
      end in
    if String.eqb spec "latest" then
      match installed with
      | None =>
          (Thrown (TypeError "Cannot read properties of undefined"), self, w)
      | Some l =>
          (DoneValue (match js_index l (Z.of_nat (length l) - 1) with
                      | Some x => JString x
                      | None => JUndefined
                      end), self, w)
      end
    else if String.eqb spec "match" then
      match getCurrentVersion remote with
      | Rejected er => (DoneError er, self, w)
      | Resolved nodeVersion =>
          match getMatchingNpmVersion remote nodeVersion with
          | Rejected er => (DoneError er, self, w)
          | Resolved npmVersion =>
              (resolve_installed npmVersion installed, self, w)
          end
      end
    else (resolve_installed spec installed, self, w).

End LocalResolver.

(** ** The global and the local version file, written and read *)

Module Store.

(** The text files of the machine. A path text names the file at its
    normalised segments, so that doubled separators and dot segments do not
    tell two names of one file apart. *)
Definition t : Type := Fs.path -> option string.

Definition key (file : string) : Fs.path :=
  Fs.normalize [] (Fs.segments file).

(** A relative path is taken from the working directory. *)
Definition key_in (cwd file : string) : Fs.path :=
  Fs.normalize [] (Fs.segments cwd ++ Fs.segments file).

Definition put (st : t) (k : Fs.path) (text : string) : t :=
  fun p => if Fs.path_eqb p k then Some text else st p.

(** [fs.readFile] of an absolute path. *)
Definition readFile (st : t) (file : string) : outcome string :=
  match st (key file) with
  | Some text => Resolved text
  | None => Rejected (External "ENOENT")
  end.

End Store.

Section ActiveVersion.

(** The message of the failure of [fs.writeFile] on a file, if it fails. *)
Variable write_failure : Fs.path -> option string.
Variable nodistDir : string.

Definition could_not_set (versionSpec message : string) : js_error :=
  Error ("Could not set npm version " ++ versionSpec
         ++ " (" ++ message ++ ")")%string.

(** [NPMIST.setGlobal] (npm.js 348-358): what [cb] receives, and the files
    after. *)
Definition setGlobal (versionSpec : string) (st : Store.t)
  : outcome unit * Store.t :=
  let globalFile := (nodistDir ++ "/.npm-version-global")%string in
  match write_failure (Store.key globalFile) with
  | Some message => (Rejected (could_not_set versionSpec message), st)
  | None => (Resolved tt, Store.put st (Store.key globalFile) versionSpec)
  end.

(** [NPMIST.getGlobal] (npm.js 365-371). *)
Definition getGlobal (st : Store.t) : outcome string :=
  let globalFile := (nodistDir ++ "/.npm-version-global")%string in
  version <- Store.readFile st globalFile ;;
  Resolved (JsString.trim version).

(** [NPMIST.setLocal] (npm.js 379-388), with [process.cwd() = cwd]: [cb]
    receives the path of the file. *)
Definition setLocal (cwd versionSpec : string) (st : Store.t)
  : outcome string * Store.t :=
  match write_failure (Store.key_in cwd "./.npm-version") with
  | Some message => (Rejected (could_not_set versionSpec message), st)
  | None =>
      (Resolved (cwd ++ "\.npm-version")%string,
       Store.put st (Store.key_in cwd "./.npm-version") versionSpec)
  end.

(** [NPMIST.getLocal] (npm.js 395-413) on these files. *)
Definition getLocal_in (cwd : string) (st : Store.t) : VersionStore.local_result :=
  VersionStore.getLocal
    (fun file => match Store.readFile st file with
                 | Resolved text => Some text
                 | Rejected _ => None
                 end) cwd.

End ActiveVersion.

(** [NPMIST.getEnv] (npm.js 421-424): [cb] receives nothing when no version
    came with the environment (an empty text counts as none). *)
Definition getEnv (envVersion : option string) : option string :=
  match envVersion with
  | Some v => if String.eqb v "" then None else Some v
  | None => None
  end.


(** ** More example collaborators *)

Module Outage.

(** A catalog whose first page holds a library release only and whose
    second page cannot be fetched. *)
Definition second_page_down : Remote := {|
  listReleases := fun page =>
    match page with
    | 1 => Resolved [Examples.rel "libnpmaccess-v7.0.0" "libnpmaccess: v7.0.0"]
    | _ => Rejected (External "ETIMEDOUT")
    end;
  npm_pages := Resolved [];
  cli_pages := Resolved [];
  getCurrentVersion := Examples.no_runtime;
  getMatchingNpmVersion := fun _ => Examples.no_runtime
|}.

(** A host runtime at 18.0.0 that recommends the range ^8.0.0. *)
Definition runtime_18 : Remote := {|
  listReleases := fun _ => Resolved [];
  npm_pages := Resolved [];
  cli_pages := Resolved [];
  getCurrentVersion := Resolved "18.0.0";
  getMatchingNpmVersion := fun _ => Resolved "^8.0.0"
|}.

(** A repository directory that cannot be read: it is not there. *)
Definition no_repository : world := {| files := []; log := [] |}.

End Outage.


(** ** What a log holds *)

(** The events of symlink repair. *)
Definition is_repair_event (e : event) : bool :=
  match e with
  | EvReaddir _ | EvReadlink _ | EvUnlink _ | EvSymlink _ _ | EvRename _ _ => true
  | _ => false
  end.

Definition is_rename (e : event) : bool :=
  match e with
  | EvRename _ _ => true
  | _ => false
  end.

Definition is_readdir (e : event) : bool :=
  match e with
  | EvReaddir _ => true
  | _ => false
  end.

(** The log [l'] continues the log [l] with events that all pass [p]. *)
Definition extends_with (p : event -> bool) (l l' : list event) : Prop :=
  exists more, l' = l ++ more /\ forallb p more = true.

(** No symbolic link and no junction at or below [dir]. *)
Definition link_free (fs : Fs.t) (dir : Fs.path) : Prop :=
  forall p k, In (p, k) fs -> Fs.is_prefix dir p = true ->
              k = Fs.KFile \/ k = Fs.KDir.


(** A machine whose download breaks off after the first file. *)
Definition broken_download : Host := {|
  junction_supported := fun _ => true;
  rimraf_failure := fun _ => None;
  downloadFileStream := fun _ => ([ (["package.json"], Fs.KFile) ], Some "ECONNRESET")
|}.


(** A machine without any text file, and a disk that takes every write. *)
Definition no_files : Store.t := fun _ => None.

Definition writable : Fs.path -> option string := fun _ => None.


(** ** The release shape, in words *)

Fixpoint all_digits (s : string) : bool :=
  match s with
  | EmptyString => true
  | String c r => Tag.is_digit c && all_digits r
  end.

(** One or more digits. *)
Definition is_number (s : string) : bool :=
  negb (String.eqb s "") && all_digits s.

(** The letter v, then three numbers with a dot between them, and nothing
    else. *)
Definition release_shape (s : string) : Prop :=
  exists a b c,
    is_number a = true /\ is_number b = true /\ is_number c = true
    /\ s = ("v" ++ a ++ "." ++ b ++ "." ++ c)%string.

(** * Properties *)

(** ** String primitives *)

Module JsStringFacts.
Import JsString.

Lemma find_from_none (c : ascii) (s : string) (i : nat) :
  find_from (String c EmptyString) s i = None <-> mem c s = false.
Proof.
  revert i. induction s as [|d s IH]; intros i; simpl.
  - tauto.
  - destruct (ascii_dec c d) as [->|Hcd].
    + rewrite Ascii.eqb_refl. simpl. destruct s; split; discriminate.
    + assert (Hdc : Ascii.eqb d c = false)
        by (apply Ascii.eqb_neq; congruence).
      rewrite Hdc. simpl. apply IH.
Qed.

(** [indexOf] is negative exactly when the character does not occur. *)
Lemma indexOf_negative (c : ascii) (s : string) :
  (indexOf s (String c EmptyString) <? 0)%Z = negb (mem c s).
Proof.
  unfold indexOf.
  destruct (find_from (String c EmptyString) s 0) as [i|] eqn:E.
  - destruct (mem c s) eqn:M.
    + simpl. apply Z.ltb_ge. lia.
    + apply find_from_none with (i := 0) in M. congruence.
  - apply find_from_none in E. rewrite E. reflexivity.
Qed.

End JsStringFacts.

(** ** The download URL *)

Module DownloadUrlFacts.
Import JsString.

Lemma get_substitution_plain (m b a repl : string) :
  mem "$" repl = false -> get_substitution m b a repl = repl.
Proof.
  induction repl as [|c r IH]; simpl; [reflexivity|].
  intros H. apply orb_false_iff in H as [Hc Hr].
  rewrite Hc, (IH Hr). reflexivity.
Qed.

Lemma split_first_absent (c : ascii) (s : string) :
  mem c s = false -> split_first (String c EmptyString) s = None.
Proof.
  induction s as [|d s IH]; simpl; [reflexivity|].
  intros H. apply orb_false_iff in H as [Hd Hs].
  destruct (ascii_dec c d) as [->|_].
  - rewrite Ascii.eqb_refl in Hd. discriminate.
  - rewrite (IH Hs). reflexivity.
Qed.

Lemma template_filled (x : string) :
  mem "$" x = false ->
  replace "https://codeload.github.com/npm/cli/tar.gz/vVERSION" "VERSION" x
  = ("https://codeload.github.com/npm/cli/tar.gz/v" ++ x)%string.
Proof.
  intros H. unfold replace.
  change (split_first "VERSION"
            "https://codeload.github.com/npm/cli/tar.gz/vVERSION")
    with (Some ("https://codeload.github.com/npm/cli/tar.gz/v", EmptyString)).
  cbv beta iota.
  rewrite get_substitution_plain by assumption.
  f_equal. clear H. induction x as [|c x IH]; [reflexivity|].
  simpl. rewrite IH. reflexivity.
Qed.

(** Where the URL is the documented one: a version that starts with the
    letter v. *)
Lemma downloadUrl_leading_v (rest : string) :
  mem "$" rest = false ->
  downloadUrl (String "v" rest) = downloadUrl_spec (String "v" rest).
Proof.
  intros H. unfold downloadUrl, downloadUrl_spec.
  assert (E : replace (String "v" rest) "v" "" = rest).
  { unfold replace. simpl. destruct rest; reflexivity. }
  rewrite E. simpl strip_leading_v. apply template_filled. assumption.
Qed.

(** And a version without any letter v. *)
Lemma downloadUrl_without_v (version : string) :
  mem "v" version = false -> mem "$" version = false ->
  downloadUrl version = downloadUrl_spec version.
Proof.
  intros Hv H. unfold downloadUrl, downloadUrl_spec.
  assert (E : replace version "v" "" = version).
  { unfold replace. rewrite split_first_absent by assumption. reflexivity. }
  rewrite E.
  assert (S : strip_leading_v version = version).
  { destruct version as [|c r]; [reflexivity|]. simpl in *.
    apply orb_false_iff in Hv as [-> _]. reflexivity. }
  rewrite S. apply template_filled. assumption.
Qed.

End DownloadUrlFacts.

(** C9, at the version [1.0.0-preview]: the first letter v of the version
    is removed wherever it stands, so the URL names [1.0.0-preiew], while the
    documented URL keeps the version whole because it has no leading v. *)
Theorem downloadUrl_interior_v :
  downloadUrl "1.0.0-preview"
  = "https://codeload.github.com/npm/cli/tar.gz/v1.0.0-preiew"
  /\ downloadUrl_spec "1.0.0-preview"
     = "https://codeload.github.com/npm/cli/tar.gz/v1.0.0-preview"
  /\ downloadUrl "1.0.0-preview" <> downloadUrl_spec "1.0.0-preview".
Proof.
  repeat split; try reflexivity.
  vm_compute. discriminate.
Qed.

(** ** The local version file *)

Module VersionStoreFacts.
Import VersionStore.

Section Search.

Variable readFile : string -> option string.

(** Directories without the file are passed over, innermost first. *)
Lemma search_skips (inner base : list string) :
  (forall l1 l2, inner = l1 ++ l2 -> l2 <> [] ->
                 readFile (version_file (rev (l2 ++ base))) = None) ->
  search readFile (inner ++ base) = search readFile base.
Proof.
  induction inner as [|s inner IH]; intros Hnone; [reflexivity|].
  simpl.
  pose proof (Hnone [] (s :: inner) eq_refl ltac:(discriminate)) as H0.
  unfold version_file in H0. simpl in H0. rewrite H0.
  apply IH. intros l1 l2 E N. apply (Hnone (s :: l1) l2); [|assumption].
  simpl. rewrite E. reflexivity.
Qed.

Lemma search_hit (base : list string) (content : string) :
  base <> [] ->
  readFile (version_file (rev base)) = Some content ->
  search readFile base
  = Found (JsString.trim content) (version_file (rev base)).
Proof.
  destruct base as [|s base]; [congruence|].
  intros _ H. unfold version_file in *. simpl in *. rewrite H. reflexivity.
Qed.

Lemma suffix_of_rev (post l1 l2 : list string) :
  rev post = l1 ++ l2 -> post = rev l2 ++ rev l1.
Proof.
  intros E. rewrite <- rev_app_distr, <- E, rev_involutive. reflexivity.
Qed.

End Search.

End VersionStoreFacts.

(** C7: [getLocal] looks for the version file in the current directory and
    then in each directory above it, one segment at a time (segments are
    separated by the backslash the code splits on). When the directory
    [pre] has the file and no directory between it and the current one
    does, the callback gets the trimmed text of that file and its path;
    when no directory up to the top has it, the callback gets no argument. *)
Theorem getLocal_searches_upward :
  forall (readFile : string -> option string) (cwd : string),
    (forall pre post content,
        JsString.split "\" cwd = pre ++ post ->
        pre <> [] ->
        readFile (version_file pre) = Some content ->
        (forall post1 post2, post = post1 ++ post2 -> post1 <> [] ->
                             readFile (version_file (pre ++ post1)) = None) ->
        VersionStore.getLocal readFile cwd
        = VersionStore.Found (JsString.trim content) (version_file pre))
    /\ ((forall s1 s2, JsString.split "\" cwd = s1 ++ s2 -> s1 <> [] ->
                       readFile (version_file s1) = None) ->
        VersionStore.getLocal readFile cwd = VersionStore.NoArguments).
Proof.
  intros readFile cwd. split.
  - intros pre post content Hsplit Hpre Hfile Hnone.
    unfold VersionStore.getLocal. rewrite Hsplit, rev_app_distr.
    rewrite VersionStoreFacts.search_skips.
    + rewrite VersionStoreFacts.search_hit with (content := content).
      * rewrite rev_involutive. reflexivity.
      * intros E. apply Hpre. rewrite <- (rev_involutive pre), E. reflexivity.
      * rewrite rev_involutive. assumption.
    + intros l1 l2 E N.
      apply VersionStoreFacts.suffix_of_rev in E.
      rewrite rev_app_distr, rev_involutive.
      apply (Hnone (rev l2) (rev l1) E).
      intros R. apply N. rewrite <- (rev_involutive l2), R. reflexivity.
  - intros Hnone. unfold VersionStore.getLocal.
    rewrite <- (app_nil_r (rev (JsString.split "\" cwd))).
    rewrite VersionStoreFacts.search_skips; [reflexivity|].
    intros l1 l2 E N. rewrite app_nil_r.
    apply VersionStoreFacts.suffix_of_rev in E.
    apply (Hnone (rev l2) (rev l1) E).
    intros R. apply N. rewrite <- (rev_involutive l2), R. reflexivity.
Qed.

(** A working directory written with forward slashes is one single segment
    for the search: only that directory itself is looked at. *)
Lemma getLocal_single_segment (readFile : string -> option string) :
  readFile "/a/b/c\.npm-version" = None ->
  VersionStore.getLocal readFile "/a/b/c" = VersionStore.NoArguments.
Proof.
  intros H. unfold VersionStore.getLocal. simpl. rewrite H. reflexivity.
Qed.

(** The scenario of C7: the file is in [\a] only and the search starts in
    [\a\b\c]; and the same start with no file anywhere. *)
Lemma getLocal_searches_upward_witness :
  VersionStore.getLocal
    (fun f => if String.eqb f "\a\.npm-version" then Some " 6.14.0
" else None) "\a\b\c"
  = VersionStore.Found "6.14.0" "\a\.npm-version"
  /\ VersionStore.getLocal (fun _ => None) "\a\b\c" = VersionStore.NoArguments.
Proof.
  split.
  - apply (proj1 (getLocal_searches_upward _ "\a\b\c")
             [""; "a"] ["b"; "c"] " 6.14.0
").
    + reflexivity.
    + discriminate.
    + reflexivity.
    + intros [|x [|y [|z p1]]] p2 E N; simpl in E; inversion E; subst;
        try congruence; reflexivity.
  - apply (proj2 (getLocal_searches_upward (fun _ => None) "\a\b\c")).
    reflexivity.
Defined.

(** ** Sorting *)

Module SortFacts.

Lemma StronglySorted_snoc {A : Type} (R : A -> A -> Prop) (l : list A) (x : A) :
  StronglySorted R l -> Forall (fun y => R y x) l ->
  StronglySorted R (l ++ [x]).
Proof.
  induction 1 as [|a l Hl IH Ha]; intros Hx; simpl.
  - constructor; constructor.
  - inversion Hx; subst. constructor.
    + apply IH; assumption.
    + apply Forall_app. split; [assumption|]. constructor; [assumption|constructor].
Qed.

Lemma StronglySorted_rev {A : Type} (R : A -> A -> Prop) (l : list A) :
  StronglySorted (fun a b => R b a) l -> StronglySorted R (rev l).
Proof.
  induction 1 as [|a l Hl IH Ha]; simpl; [constructor|].
  apply StronglySorted_snoc; [assumption|].
  apply Forall_forall. intros y Hy. apply in_rev in Hy.
  rewrite Forall_forall in Ha. apply Ha; assumption.
Qed.

Section Order.

Context {A : Type} (cmp : A -> A -> Z) (P : A -> Prop).

(** What insertion needs of [cmp] on the values at hand: it is never
    positive both ways, and being non-positive is transitive. *)
Hypothesis asym : forall x y,
    P x -> P y -> (0 < cmp y x)%Z -> (cmp x y <= 0)%Z.
Hypothesis trans : forall a b c,
    P a -> P b -> P c ->
    (cmp a b <= 0)%Z -> (cmp b c <= 0)%Z -> (cmp a c <= 0)%Z.

Definition le (a b : A) : Prop := (cmp a b <= 0)%Z.


Lemma ins_perm (x : A) (acc : list A) :
  Permutation (x :: acc) (Js.ins cmp x acc).
Proof.
  induction acc as [|y acc IH]; simpl; [reflexivity|].
  destruct (0 <? cmp y x)%Z; [|reflexivity].
  rewrite perm_swap. constructor. assumption.
Qed.

Lemma ins_sorted (x : A) (acc : list A) :
  P x -> Forall P acc ->
  StronglySorted (fun a b => le b a) acc ->
  StronglySorted (fun a b => le b a) (Js.ins cmp x acc).
Proof.
  intros Hx. induction acc as [|y acc IH]; intros HP Hs; simpl.
  - constructor; constructor.
  - inversion HP as [|? ? Hy HPacc]; subst.
    inversion Hs as [|? ? Hsacc Hyacc]; subst.
    destruct (0 <? cmp y x)%Z eqn:E.
    + apply Z.ltb_lt in E. constructor.
      * apply IH; assumption.
      * eapply Permutation_Forall; [apply ins_perm|].
        constructor; [|assumption]. apply asym; assumption.
    + apply Z.ltb_ge in E. constructor; [assumption|].
      constructor; [exact E|].
      rewrite Forall_forall in *. intros z Hz.
      apply (trans z y x); [apply HPacc| | |apply Hyacc|]; assumption.
Qed.

Lemma fold_perm (l acc : list A) :
  Permutation (l ++ acc) (fold_left (fun acc x => Js.ins cmp x acc) l acc).
Proof.
  revert acc. induction l as [|x l IH]; intros acc; simpl; [reflexivity|].
  rewrite <- IH, <- ins_perm. apply Permutation_middle.
Qed.

Lemma sort_perm (l : list A) : Permutation l (Js.sort cmp l).
Proof.
  unfold Js.sort. rewrite <- Permutation_rev.
  rewrite <- fold_perm, app_nil_r. reflexivity.
Qed.

Lemma fold_ins (l acc : list A) :
  Forall P l -> Forall P acc ->
  StronglySorted (fun a b => le b a) acc ->
  StronglySorted (fun a b => le b a)
    (fold_left (fun acc x => Js.ins cmp x acc) l acc)
  /\ Permutation (l ++ acc)
       (fold_left (fun acc x => Js.ins cmp x acc) l acc).
Proof.
  revert acc. induction l as [|x l IH]; intros acc Hl Hacc Hs; simpl.
  - split; [assumption|reflexivity].
  - inversion Hl as [|? ? Hx Hl']; subst.
    destruct (IH (Js.ins cmp x acc)) as [S Pm].
    + assumption.
    + eapply Permutation_Forall; [apply ins_perm|]. constructor; assumption.
    + apply ins_sorted; assumption.
    + split; [assumption|].
      rewrite <- Pm. rewrite <- ins_perm. apply Permutation_middle.
Qed.

(** The sorted array holds the same elements, in ascending order. *)
Lemma sort_sorted (l : list A) :
  Forall P l ->
  StronglySorted le (Js.sort cmp l) /\ Permutation l (Js.sort cmp l).
Proof.
  intros Hl. unfold Js.sort.
  destruct (fold_ins l [] Hl) as [S Pm]; [constructor|constructor|].
  split.
  - apply StronglySorted_rev. assumption.
  - rewrite <- Permutation_rev. rewrite app_nil_r in Pm. assumption.
Qed.


End Order.

(** Sorting a single element calls no comparison. *)
Lemma sort_singleton {A : Type} (cmp : A -> A -> Z) (x : A) :
  Js.sort cmp [x] = [x].
Proof. reflexivity. Qed.

Lemma sort_nil {A : Type} (cmp : A -> A -> Z) : Js.sort cmp (@nil A) = [].
Proof. reflexivity. Qed.

Lemma sort_nonempty {A : Type} (cmp : A -> A -> Z) (l : list A) :
  l <> [] -> Js.sort cmp l <> [].
Proof.
  intros Hne E. apply Hne.
  pose proof (sort_perm cmp l) as Pm.
  rewrite E in Pm. apply Permutation_sym, Permutation_nil in Pm. assumption.
Qed.

(** *** Sorting with a comparison that may throw *)

Section Throwing.

Context {A : Type} (cmp : A -> A -> outcome Z).
Context (bad : A -> option js_error) (f : A -> A -> Z).

(** [cmp] answers as [f] on two good values and throws the error of one
    of its arguments when one of them is bad. *)
Hypothesis cmp_good : forall a b,
    bad a = None -> bad b = None -> cmp a b = Resolved (f a b).
Hypothesis cmp_bad : forall a b,
    bad a <> None \/ bad b <> None ->
    exists t e, (t = a \/ t = b) /\ bad t = Some e /\ cmp a b = Rejected e.

Definition good (x : A) : Prop := bad x = None.

Definition step (acc : outcome (list A)) (x : A) : outcome (list A) :=
  a <- acc ;; Js.ins_with cmp x a.

Lemma sort_with_fold (l : list A) :
  Js.sort_with cmp l
  = (acc <- fold_left step l (Resolved []) ;; Resolved (rev acc)).
Proof. reflexivity. Qed.

Lemma good_dec (x : A) : {good x} + {~ good x}.
Proof. unfold good. destruct (bad x); [right; discriminate|left; reflexivity]. Qed.

Lemma ins_with_good (x : A) (acc : list A) :
  good x -> Forall good acc ->
  Js.ins_with cmp x acc = Resolved (Js.ins f x acc).
Proof.
  intros Hx. induction acc as [|y acc IH]; intros Hacc; [reflexivity|].
  inversion Hacc as [|? ? Hy Hrest]; subst. simpl.
  rewrite (cmp_good y x Hy Hx). simpl.
  destruct (0 <? f y x)%Z; [|reflexivity].
  rewrite (IH Hrest). reflexivity.
Qed.

Lemma fold_rejected (l : list A) (e : js_error) :
  fold_left step l (Rejected e) = Rejected e.
Proof. induction l as [|x l IH]; [reflexivity|exact IH]. Qed.

Lemma fold_good (l : list A) :
  forall acc, Forall good l -> Forall good acc ->
    fold_left step l (Resolved acc)
    = Resolved (fold_left (fun acc x => Js.ins f x acc) l acc).
Proof.
  induction l as [|x l IH]; intros acc Hl Hacc; [reflexivity|].
  inversion Hl as [|? ? Hx Hl']; subst. simpl.
  rewrite (ins_with_good x acc Hx Hacc). apply IH; [assumption|].
  eapply Permutation_Forall; [apply ins_perm|]. constructor; assumption.
Qed.

(** On good values the comparison never throws and the sort is the plain
    one. *)
Lemma sort_with_good (l : list A) :
  Forall good l -> Js.sort_with cmp l = Resolved (Js.sort f l).
Proof.
  intros Hl. rewrite sort_with_fold, (fold_good l [] Hl); [reflexivity|].
  constructor.
Qed.

(** Zero or one element: nothing is compared. *)
Lemma sort_with_short (l : list A) :
  length l <= 1 -> Js.sort_with cmp l = Resolved l.
Proof.
  destruct l as [|x [|y l]]; simpl; intros H; [reflexivity|reflexivity|lia].
Qed.

(** Inserting a bad value beside good ones throws its error. *)
Lemma ins_with_bad (x : A) (acc : list A) :
  acc <> [] -> Forall good acc -> ~ good x ->
  exists e, bad x = Some e /\ Js.ins_with cmp x acc = Rejected e.
Proof.
  intros Hne Hacc Hx. destruct acc as [|y acc]; [congruence|].
  inversion Hacc as [|? ? Hy _]; subst.
  destruct (cmp_bad y x) as [t [e [Ht [Hb Hc]]]]; [right; exact Hx|].
  destruct Ht as [-> | ->]; [unfold good in Hy; congruence|].
  exists e. split; [assumption|]. simpl. rewrite Hc. reflexivity.
Qed.

Lemma fold_bad (l : list A) :
  forall acc, acc <> [] -> Forall good acc -> Exists (fun t => ~ good t) l ->
    exists t e, In t l /\ bad t = Some e
                /\ fold_left step l (Resolved acc) = Rejected e.
Proof.
  induction l as [|x l IH]; intros acc Hne Hacc Hex; [inversion Hex|].
  simpl. destruct (good_dec x) as [Hx|Hx].
  - rewrite (ins_with_good x acc Hx Hacc).
    destruct (IH (Js.ins f x acc)) as [t [e [Hin [Hb Hf]]]].
    + intros E. pose proof (ins_perm f x acc) as Pm. rewrite E in Pm.
      apply Permutation_sym, Permutation_nil in Pm. discriminate.
    + eapply Permutation_Forall; [apply ins_perm|]. constructor; assumption.
    + inversion Hex; subst; [contradiction|assumption].
    + exists t, e. split; [right; assumption|]. split; assumption.
  - destruct (ins_with_bad x acc Hne Hacc Hx) as [e [Hb Hi]].
    exists x, e. split; [left; reflexivity|]. split; [assumption|].
    rewrite Hi. apply fold_rejected.
Qed.

(** Two or more elements, one of them bad: the sort throws the error of a
    bad element. *)
Lemma sort_with_bad (l : list A) :
  2 <= length l -> Exists (fun t => ~ good t) l ->
  exists t e, In t l /\ bad t = Some e /\ Js.sort_with cmp l = Rejected e.
Proof.
  intros Hlen Hex. destruct l as [|x [|y l]]; simpl in Hlen; try lia.
  rewrite sort_with_fold. destruct (good_dec x) as [Hx|Hx].
  - destruct (fold_bad (y :: l) [x]) as [t [e [Hin [Hb Hf]]]].
    + discriminate.
    + constructor; [assumption|constructor].
    + inversion Hex; subst; [contradiction|assumption].
    + exists t, e. split; [right; assumption|]. split; [assumption|].
      change (fold_left step (x :: y :: l) (Resolved []))
        with (fold_left step (y :: l) (Resolved [x])).
      rewrite Hf. reflexivity.
  - destruct (cmp_bad x y) as [t [e [Ht [Hb Hc]]]]; [left; exact Hx|].
    exists t, e. split; [destruct Ht as [-> | ->]; simpl; auto|].
    split; [assumption|].
    change (fold_left step (x :: y :: l) (Resolved []))
      with (fold_left step l (c <- cmp x y ;;
                              if (0 <? c)%Z
                              then (r <- Js.ins_with cmp y [] ;; Resolved (x :: r))
                              else Resolved [y; x])).
    rewrite Hc. simpl. rewrite fold_rejected. reflexivity.
Qed.

(** Whatever the elements are, a sort that returns has returned what the
    plain sort gives. *)
Lemma sort_with_resolved (l rs : list A) :
  Js.sort_with cmp l = Resolved rs -> rs = Js.sort f l.
Proof.
  intros H. destruct (Forall_Exists_dec good good_dec l) as [Hall|Hex].
  - rewrite (sort_with_good l Hall) in H. congruence.
  - destruct (le_lt_dec (length l) 1) as [Hlen|Hlen].
    + rewrite (sort_with_short l Hlen) in H. injection H as <-.
      destruct l as [|x [|y l]]; simpl in Hlen; try lia; reflexivity.
    + destruct (sort_with_bad l Hlen Hex) as [t [e [_ [_ Hr]]]]. congruence.
Qed.

End Throwing.

End SortFacts.

(** ** The comparison of the library throws on what is not a version *)

Module CompareFacts.

Section Compare.

Context {SV : Semver}.

(** The error [semver.compare] throws for a text, if it throws for it. *)
Definition thrown (s : string) : option js_error :=
  match sv_error s with
  | Some message => Some (TypeError message)
  | None => None
  end.

Lemma compare_good (a b : string) :
  thrown a = None -> thrown b = None ->
  semver_compare a b = Resolved (sv_compare a b).
Proof.
  unfold thrown, semver_compare, construct.
  destruct (sv_error a); [discriminate|].
  destruct (sv_error b); [discriminate|]. reflexivity.
Qed.

Lemma compare_bad (a b : string) :
  thrown a <> None \/ thrown b <> None ->
  exists t e, (t = a \/ t = b) /\ thrown t = Some e
              /\ semver_compare a b = Rejected e.
Proof.
  unfold thrown, semver_compare, construct. intros H.
  destruct (sv_error a) as [ma|] eqn:Ea.
  - exists a, (TypeError ma). rewrite Ea. auto.
  - destruct (sv_error b) as [mb|] eqn:Eb.
    + exists b, (TypeError mb). rewrite Eb. auto.
    + destruct H as [H|H]; congruence.
Qed.

End Compare.

End CompareFacts.

(** ** The semver fragment keeps the library's contract *)

Module SemverCoreFacts.
Import SemverCore.

Definition lex_le (x y : triple) : Prop :=
  let '(a, b, c) := x in
  let '(a', b', c') := y in
  (a < a' \/ (a = a' /\ (b < b' \/ (b = b' /\ c <= c'))))%N.

Lemma compare3_le (x y : triple) : (compare3 x y <= 0)%Z <-> lex_le x y.
Proof.
  destruct x as [[a b] c], y as [[a' b'] c']. unfold compare3, lex_le.
  destruct (N.compare_spec a a'); destruct (N.compare_spec b b');
    destruct (N.compare_spec c c'); lia.
Qed.

Lemma compare3_cases (x y : triple) :
  compare3 x y = (-1)%Z \/ compare3 x y = 0%Z \/ compare3 x y = 1%Z.
Proof.
  destruct x as [[a b] c], y as [[a' b'] c']. unfold compare3.
  destruct (a ?= a')%N; destruct (b ?= b')%N; destruct (c ?= c')%N; auto.
Qed.

Lemma compare3_antisym (x y : triple) : compare3 y x = (- compare3 x y)%Z.
Proof.
  destruct x as [[a b] c], y as [[a' b'] c']. unfold compare3.
  rewrite (N.compare_antisym a a'), (N.compare_antisym b b'),
    (N.compare_antisym c c').
  destruct (a ?= a')%N; destruct (b ?= b')%N; destruct (c ?= c')%N;
    reflexivity.
Qed.

Lemma compare3_trans (x y z : triple) :
  (compare3 x y <= 0)%Z -> (compare3 y z <= 0)%Z -> (compare3 x z <= 0)%Z.
Proof.
  rewrite !compare3_le.
  destruct x as [[a b] c], y as [[a' b'] c'], z as [[a'' b''] c''].
  unfold lex_le. lia.
Qed.

Lemma is_version_parse (s : string) :
  @is_version semver_core s -> exists x, parse s = Some x.
Proof.
  unfold is_version. simpl. unfold valid. simpl.
  destruct (parse s) as [x|]; [eauto|congruence].
Qed.

Lemma parse_is_version (s : string) (x : triple) :
  parse s = Some x -> @is_version semver_core s.
Proof.
  unfold is_version. simpl. unfold valid. simpl. intros ->. discriminate.
Qed.

End SemverCoreFacts.

#[export] Instance semver_core_laws : SemverLaws semver_core.
Proof.
  constructor.
  - intros a b Ha Hb.
    apply SemverCoreFacts.is_version_parse in Ha as [x Hx].
    apply SemverCoreFacts.is_version_parse in Hb as [y Hy].
    simpl. unfold SemverCore.compare. rewrite Hx, Hy.
    apply SemverCoreFacts.compare3_cases.
  - intros a b Ha Hb.
    apply SemverCoreFacts.is_version_parse in Ha as [x Hx].
    apply SemverCoreFacts.is_version_parse in Hb as [y Hy].
    simpl. unfold SemverCore.compare. rewrite Hx, Hy.
    apply SemverCoreFacts.compare3_antisym.
  - intros a b c Ha Hb Hc.
    apply SemverCoreFacts.is_version_parse in Ha as [x Hx].
    apply SemverCoreFacts.is_version_parse in Hb as [y Hy].
    apply SemverCoreFacts.is_version_parse in Hc as [z Hz].
    simpl. unfold SemverCore.compare. rewrite Hx, Hy, Hz.
    apply SemverCoreFacts.compare3_trans.
  - intros s r. simpl. unfold SemverCore.satisfies.
    destruct (SemverCore.parse s) as [x|] eqn:E; [|discriminate].
    intros _. eapply SemverCoreFacts.parse_is_version; eassumption.
  - intros s Hs ->.
    apply SemverCoreFacts.is_version_parse in Hs as [x Hx]. discriminate.
Qed.

(** ** The latest version *)

Module LatestFacts.

Section Loop.

Context {SV : Semver}.
Variable remote : Remote.
Variable pages : nat -> list release.
Hypothesis fetch : forall p, listReleases remote p = Resolved (pages p).















End Loop.

End LatestFacts.

Lemma pop_in {A : Type} (l : list A) (m : A) : Js.pop l = Some m -> In m l.
Proof.
  unfold Js.pop. destruct (rev l) as [|x r] eqn:E; [discriminate|].
  intros [= <-]. apply in_rev. rewrite E. left. reflexivity.
Qed.

Lemma pop_some {A : Type} (l : list A) : l <> [] -> exists m, Js.pop l = Some m.
Proof.
  unfold Js.pop. intros N. destruct (rev l) as [|x r] eqn:E; [|eauto].
  exfalso. apply N. rewrite <- (rev_involutive l), E. reflexivity.
Qed.

(** The library's comparison, on versions, meets what sorting needs. *)
Lemma compare_asym {SV : Semver} {L : SemverLaws SV} (x y : string) :
  is_version x -> is_version y ->
  (0 < sv_compare y x)%Z -> (sv_compare x y <= 0)%Z.
Proof.
  intros Hx Hy H. rewrite (compare_antisym y x) by assumption. lia.
Qed.




(** C2, as the code has it: for the empty specifier, when the first page
    of the catalog has no qualifying tag and the second page holds exactly
    the tag v8.1.0, [resolveVersion] hands [done] that tag as it is, v8.1.0
    with its letter v, after fetching pages 1 and 2; one fetch is not
    enough to settle. *)
Theorem resolveVersion_empty_second_page :
  forall (SV : Semver) (remote : Remote) (page1 : list release) (r2 : release),
    listReleases remote 1 = Resolved page1 ->
    List.filter Tag.is_release_tag (map tag_name page1) = [] ->
    listReleases remote 2 = Resolved [r2] ->
    tag_name r2 = "v8.1.0" ->
    latestVersion remote 1 = None
    /\ forall fuel, 2 <= fuel ->
         latestVersion remote fuel = Some (Resolved (Some "v8.1.0"), [1; 2])
         /\ resolveVersion remote fuel ""
            = Some (Called (Resolved (JString "v8.1.0"))).
Proof.
  intros SV remote page1 r2 H1 Hq1 H2 Htag.
  assert (L1 : latestVersion remote 1 = None).
  { unfold latestVersion. simpl. unfold getNpmReleases. rewrite H1. simpl.
    rewrite Hq1. reflexivity. }
  split; [exact L1|]. intros fuel Hfuel.
  assert (L : latestVersion remote fuel
              = Some (Resolved (Some "v8.1.0"), [1; 2])).
  { destruct fuel as [|[|fuel]]; try lia.
    unfold latestVersion. simpl. unfold getNpmReleases.
    rewrite H1. simpl. rewrite Hq1. simpl.
    rewrite H2. simpl. rewrite Htag. simpl.
    destruct fuel; reflexivity. }
  split; [exact L|].
  unfold resolveVersion. simpl. rewrite L. reflexivity.
Qed.

Lemma resolveVersion_empty_second_page_witness :
  resolveVersion Examples.two_pages 2 ""
  = Some (Called (Resolved (JString "v8.1.0"))).
Proof.
  apply (resolveVersion_empty_second_page semver_core Examples.two_pages
           [Examples.rel "libnpmaccess-v7.0.0" "libnpmaccess: v7.0.0"]
           (Examples.rel "v8.1.0" "v8.1.0")); reflexivity || lia.
Defined.

(** C2 as stated fails: on the catalog of the scenario the resolved value is
    the tag v8.1.0, not the text 8.1.0. *)
Lemma resolveVersion_empty_keeps_v :
  resolveVersion Examples.two_pages 2 ""
  = Some (Called (Resolved (JString "v8.1.0")))
  /\ resolveVersion Examples.two_pages 2 ""
     <> Some (Called (Resolved (JString "8.1.0"))).
Proof.
  split; [reflexivity|]. vm_compute. discriminate.
Qed.

(** ** The candidate pool *)

Module PoolFacts.

Lemma has_no_colon_named (r : jsval) (s : string) :
  Js.get_prop r "name" = Resolved (JString s) ->
  has_no_colon r = Resolved (negb (name_has_colon r)).
Proof.
  intros H. unfold has_no_colon, name_has_colon. rewrite H. simpl.
  rewrite JsStringFacts.indexOf_negative. reflexivity.
Qed.

Lemma filter_named (cli : list jsval) (i : nat) :
  Forall (fun r => exists s, Js.get_prop r "name" = Resolved (JString s)) cli ->
  Js.filter_from (fun r _ => has_no_colon r) i cli
  = Resolved (List.filter (fun r => negb (name_has_colon r)) cli).
Proof.
  revert i. induction cli as [|r cli IH]; intros i Hall; [reflexivity|].
  inversion Hall as [|? ? [s Hs] Hrest]; subst. simpl.
  rewrite (has_no_colon_named r s Hs). simpl.
  rewrite (IH (S i) Hrest). simpl.
  destruct (name_has_colon r); reflexivity.
Qed.

(** A tag is a string, and a string has no [name]. *)
Lemma has_no_colon_tag (t : string) :
  has_no_colon (JString t)
  = Rejected (TypeError "Cannot read properties of undefined").
Proof. reflexivity. Qed.

(** As the feeds hand over tag names, any entry in the second feed makes
    [listAvailable] reject. *)
Lemma listAvailable_rejects (remote : Remote) (npm cli : list (list release)) :
  npm_pages remote = Resolved npm ->
  cli_pages remote = Resolved cli ->
  concat cli <> [] ->
  listAvailable remote
  = Rejected (TypeError "Cannot read properties of undefined").
Proof.
  intros Hn Hc Hne. unfold listAvailable, paginate_tags.
  rewrite Hn, Hc. simpl. unfold merge_feeds, Js.filter.
  rewrite flat_map_concat_map.
  rewrite <- (map_id cli) in Hne. 
  assert (E : exists t rest,
             concat (map (fun data => map (fun r => JString (tag_name r)) data) cli)
             = JString t :: rest).
  { clear Hc. induction cli as [|d cli IH]; [simpl in Hne; congruence|].
    destruct d as [|r d].
    - simpl in *. apply IH. assumption.
    - simpl. eauto. }
  destruct E as [t [rest ->]]. reflexivity.
Qed.

(** With an empty second feed the pool is the first feed's tags. *)
Lemma listAvailable_first_feed (remote : Remote) (npm : list (list release)) :
  npm_pages remote = Resolved npm ->
  cli_pages remote = Resolved [] ->
  listAvailable remote
  = Resolved (map (fun r => JString (tag_name r)) (concat npm)).
Proof.
  intros Hn Hc. unfold listAvailable, paginate_tags. rewrite Hn, Hc. simpl.
  unfold merge_feeds. simpl.
  rewrite app_nil_r, flat_map_concat_map, concat_map. reflexivity.
Qed.

End PoolFacts.

(** C3: the pool is never merged. Both feeds reach the merge step as bare
    tag names, and a tag name, a text, has no [name]: as soon as the second
    feed holds a release, whatever its name is, with a colon or without,
    the filter throws on the first entry and [listAvailable] is rejected
    with that type error; no pool comes back, neither the one with the
    second feed's entries kept nor the one with them left out. *)
Theorem listAvailable_never_merges :
  forall (remote : Remote) (npm cli : list (list release)),
    npm_pages remote = Resolved npm ->
    cli_pages remote = Resolved cli ->
    concat cli <> [] ->
    listAvailable remote
    = Rejected (TypeError "Cannot read properties of undefined")
    /\ (forall pool, listAvailable remote <> Resolved pool)
    /\ forall tag,
         has_no_colon (JString tag)
         = Rejected (TypeError "Cannot read properties of undefined").
Proof.
  intros remote npm cli Hn Hc Hne.
  pose proof (PoolFacts.listAvailable_rejects remote npm cli Hn Hc Hne) as R.
  split; [exact R|]. split.
  - intros pool. rewrite R. discriminate.
  - intros tag. apply PoolFacts.has_no_colon_tag.
Qed.

(** C3 on the catalog with both feeds filled: the second feed holds npm's
    own release v8.1.0 and a library release named with a colon. *)
Lemma listAvailable_never_merges_witness :
  listAvailable Examples.both_feeds
  = Rejected (TypeError "Cannot read properties of undefined")
  /\ listAvailable Examples.both_feeds
     <> Resolved [JString "v1.0.0"; JString "v8.1.0"]
  /\ listAvailable Examples.both_feeds
     <> Resolved [JString "v1.0.0"; JString "arborist-v2.0.0"].
Proof.
  destruct (listAvailable_never_merges Examples.both_feeds
              [[Examples.rel "v1.0.0" "v1.0.0"]]
              [[Examples.rel "v8.1.0" "v8.1.0";
                Examples.rel "arborist-v2.0.0" "arborist: v2.0.0"]]
              eq_refl eq_refl) as [R [Hno _]]; [discriminate|].
  split; [exact R|]. split; apply Hno.
Defined.

(** ** Resolving a range *)

Module ResolveFacts.

Section Max.

Context {SV : Semver} {L : SemverLaws SV}.
Variable range : string.

(** What the [forEach] of [maxSatisfying] has established after the
    entries [seen]. *)
Definition inv (seen : list jsval) (max : option jsval) : Prop :=
  match max with
  | None => forall x, In x seen -> ~ satisfying range x
  | Some m => greatest_satisfying seen range m
  end.

Lemma satisfying_version (x : jsval) (s : string) :
  as_version x = Some s -> sv_satisfies s range = true -> is_version s.
Proof. intros _ H. eapply satisfies_version; eassumption. Qed.

Lemma compare_refl (s : string) : is_version s -> sv_compare s s = 0%Z.
Proof.
  intros H. pose proof (compare_antisym s s H H). lia.
Qed.

Lemma not_above_refl (x : jsval) : satisfying range x -> not_above x x.
Proof.
  intros [s [Hs Hsat]] sx sm Hx Hm.
  rewrite Hs in Hx, Hm. injection Hx as <-. injection Hm as <-.
  rewrite compare_refl; [lia|]. eapply satisfies_version; eassumption.
Qed.

Lemma not_above_trans (x y z : jsval) :
  satisfying range x -> satisfying range y -> satisfying range z ->
  not_above x y -> not_above y z -> not_above x z.
Proof.
  intros [sx [Hx Sx]] [sy [Hy Sy]] [sz [Hz Sz]] Hxy Hyz sx' sz' Hx' Hz'.
  rewrite Hx in Hx'. rewrite Hz in Hz'.
  injection Hx' as <-. injection Hz' as <-.
  apply (compare_trans sx sy sz);
    try (eapply satisfies_version; eassumption).
  - apply Hxy; assumption.
  - apply Hyz; assumption.
Qed.

Lemma max_step_inv (seen : list jsval) (max : option jsval) (x : jsval) :
  inv seen max -> inv (seen ++ [x]) (max_step range max x).
Proof.
  intros Hinv. unfold max_step.
  destruct (as_version x) as [s|] eqn:Hs.
  2:{ (* not a version: nothing changes *)
    destruct max as [m|]; simpl in *.
    - destruct Hinv as [Hin [Hsat Hmax]]. split; [|split]; auto.
      + apply in_or_app. left. assumption.
      + intros y Hy Sy. apply in_app_or in Hy as [Hy|[<-|[]]]; auto.
        destruct Sy as [s' [Hs' _]]. congruence.
    - intros y Hy Sy. apply in_app_or in Hy as [Hy|[<-|[]]].
      + apply (Hinv y); assumption.
      + destruct Sy as [s' [Hs' _]]. congruence. }
  destruct (sv_satisfies s range) eqn:Hsat.
  2:{ (* a version outside the range: nothing changes *)
    destruct max as [m|]; simpl in *.
    - destruct Hinv as [Hin [Hm Hmax]]. split; [|split]; auto.
      + apply in_or_app. left. assumption.
      + intros y Hy Sy. apply in_app_or in Hy as [Hy|[<-|[]]]; auto.
        destruct Sy as [s' [Hs' Hsat']]. congruence.
    - intros y Hy Sy. apply in_app_or in Hy as [Hy|[<-|[]]].
      + apply (Hinv y); assumption.
      + destruct Sy as [s' [Hs' Hsat']]. congruence. }
  assert (Sx : satisfying range x) by (exists s; auto).
  destruct max as [m|]; simpl in Hinv.
  - destruct Hinv as [Hin [Hm Hmax]].
    destruct Hm as [ms [Hms Smm]].
    assert (Sm : satisfying range m) by (exists ms; auto).
    rewrite Hms.
    assert (Vs : is_version s) by (eapply satisfies_version; eassumption).
    assert (Vm : is_version ms) by (eapply satisfies_version; eassumption).
    destruct (sv_compare ms s =? -1)%Z eqn:E; simpl.
    + (* the new entry is greater *)
      apply Z.eqb_eq in E.
      assert (Hmx : not_above m x).
      { intros a b Ha Hb. rewrite Hms in Ha. rewrite Hs in Hb.
        injection Ha as <-. injection Hb as <-. lia. }
      split; [|split]; auto.
      * apply in_or_app. right. left. reflexivity.
      * intros y Hy Sy. apply in_app_or in Hy as [Hy|[<-|[]]].
        -- apply (not_above_trans y m x); auto.
        -- apply not_above_refl. assumption.
    + (* the maximum so far stays *)
      apply Z.eqb_neq in E.
      split; [|split]; auto.
      * apply in_or_app. left. assumption.
      * intros y Hy Sy. apply in_app_or in Hy as [Hy|[<-|[]]]; auto.
        intros a b Ha Hb. rewrite Hs in Ha. rewrite Hms in Hb.
        injection Ha as <-. injection Hb as <-.
        rewrite (compare_antisym ms s) by assumption.
        destruct (compare_cases ms s Vm Vs) as [C|[C|C]]; lia.
  - (* the first satisfying entry *)
    split; [|split]; auto.
    + apply in_or_app. right. left. reflexivity.
    + intros y Hy Sy. apply in_app_or in Hy as [Hy|[<-|[]]].
      * exfalso. apply (Hinv y); assumption.
      * apply not_above_refl. assumption.
Qed.

Lemma fold_inv (l seen : list jsval) (max : option jsval) :
  inv seen max -> inv (seen ++ l) (fold_left (max_step range) l max).
Proof.
  revert seen max. induction l as [|x l IH]; intros seen max Hinv; simpl.
  - rewrite app_nil_r. assumption.
  - replace (seen ++ x :: l) with ((seen ++ [x]) ++ l)
      by (rewrite <- app_assoc; reflexivity).
    apply IH. apply max_step_inv. assumption.
Qed.

(** [maxSatisfying] on a valid range: a greatest satisfying entry, or
    [null] when no entry satisfies the range. *)
Lemma maxSatisfying_spec (pool : list jsval) :
  sv_validRange range <> None ->
  inv pool (maxSatisfying pool range).
Proof.
  intros Hr. unfold maxSatisfying.
  destruct (sv_validRange range); [|congruence].
  apply (fold_inv pool [] None). intros x [].
Qed.

Lemma satisfying_truthy (m : jsval) :
  satisfying range m -> Js.truthy m = true.
Proof.
  intros [s [Hs Hsat]]. destruct m; try discriminate.
  injection Hs as ->. simpl.
  apply negb_true_iff, String.eqb_neq.
  apply version_nonempty. eapply satisfies_version; eassumption.
Qed.

End Max.

Lemma message_contains (v : string) : contains v (no_match_message v).
Proof.
  exists ("Version spec, " ++ quote)%string,
    (quote ++ ", didn't match any version")%string.
  unfold no_match_message. reflexivity.
Qed.

End ResolveFacts.

(** C1: for a specifier [r] that is a semantic range and is neither empty
    nor latest nor match, and a candidate pool [P] delivered by the remote
    catalog, [resolveVersion] hands [done] a greatest entry of [P] that
    satisfies [r] when there is one, and otherwise the no-match error, whose
    message holds the text of [r]. *)
Theorem resolveVersion_range :
  forall (SV : Semver) (L : SemverLaws SV) (remote : Remote)
         (r : string) (P : list jsval) (fuel : nat),
    r <> "" -> r <> "latest" -> r <> "match" ->
    Js.truthy (Js.of_option (sv_validRange r)) = true ->
    listAvailable remote = Resolved P ->
    ((exists x, In x P /\ satisfying r x) ->
     exists m, resolveVersion remote fuel r = Some (Called (Resolved m))
               /\ greatest_satisfying P r m)
    /\ ((forall x, In x P -> ~ satisfying r x) ->
        resolveVersion remote fuel r
        = Some (Called (Rejected (Error (no_match_message r))))
        /\ contains r (no_match_message r)).
Proof.
  intros SV L remote r P fuel Hne Hlatest Hmatch Hrange Hpool.
  assert (Hvr : sv_validRange r <> None).
  { destruct (sv_validRange r); [discriminate|discriminate Hrange]. }
  assert (Hhead : resolveVersion remote fuel r
                  = match resolve_in r P with
                    | Resolved version => Some (Called (Resolved version))
                    | Rejected e => Some (Called (Rejected e))
                    end).
  { unfold resolveVersion.
    assert (E1 : String.eqb "latest" r = false)
      by (apply String.eqb_neq; congruence).
    assert (E2 : String.eqb r "" = false) by (apply String.eqb_neq; congruence).
    assert (E3 : String.eqb "match" r = false)
      by (apply String.eqb_neq; congruence).
    rewrite E1, E2, E3, Hpool. reflexivity. }
  pose proof (ResolveFacts.maxSatisfying_spec r P Hvr) as Hinv.
  split.
  - intros [x [Hx Sx]]. rewrite Hhead. unfold resolve_in. rewrite Hrange.
    destruct (maxSatisfying P r) as [m|]; simpl in Hinv.
    + exists m. destruct Hinv as [Hin [Sm Hmax]].
      rewrite (ResolveFacts.satisfying_truthy r m Sm). simpl.
      split; [reflexivity|]. split; [|split]; assumption.
    + exfalso. apply (Hinv x); assumption.
  - intros Hnone. split; [|apply ResolveFacts.message_contains].
    rewrite Hhead. unfold resolve_in. rewrite Hrange.
    destruct (maxSatisfying P r) as [m|]; simpl in Hinv.
    + exfalso. destruct Hinv as [Hin [Sm _]]. apply (Hnone m); assumption.
    + reflexivity.
Qed.

(** C1 on the pool 1.0.0, 2.0.0, 2.5.3: the caret range on 2.0.0 resolves to
    2.5.3, the caret range on 3.0.0 matches nothing. *)
Lemma resolveVersion_range_witness :
  (exists m, resolveVersion Examples.npm_feed_only 0 "^2.0.0"
             = Some (Called (Resolved m))
             /\ greatest_satisfying
                  [JString "1.0.0"; JString "2.0.0"; JString "2.5.3"]
                  "^2.0.0" m)
  /\ resolveVersion Examples.npm_feed_only 0 "^3.0.0"
     = Some (Called (Rejected (Error (no_match_message "^3.0.0")))).
Proof.
  split.
  - refine (proj1 (resolveVersion_range semver_core semver_core_laws
                     Examples.npm_feed_only "^2.0.0"
                     [JString "1.0.0"; JString "2.0.0"; JString "2.5.3"] 0
                     _ _ _ _ _) _);
      try discriminate; try reflexivity.
    exists (JString "2.0.0"). split; [right; left; reflexivity|].
    exists "2.0.0". split; reflexivity.
  - refine (proj1 (proj2 (resolveVersion_range semver_core semver_core_laws
                     Examples.npm_feed_only "^3.0.0"
                     [JString "1.0.0"; JString "2.0.0"; JString "2.5.3"] 0
                     _ _ _ _ _) _));
      try discriminate; try reflexivity.
    intros x Hx [s [Hs Hsat]].
    simpl in Hx. destruct Hx as [<-|[<-|[<-|[]]]];
      injection Hs as <-; vm_compute in Hsat; discriminate.
Defined.

(** ** The file system *)

Module FsFacts.
Import Fs.

Lemma path_eqb_eq (p q : path) : path_eqb p q = true <-> p = q.
Proof.
  revert q. induction p as [|a p IH]; intros [|b q]; simpl;
    try (split; [discriminate|congruence]); [tauto|].
  rewrite andb_true_iff, String.eqb_eq, IH. split.
  - intros [-> ->]. reflexivity.
  - intros [= -> ->]. auto.
Qed.

Lemma path_eqb_refl (p : path) : path_eqb p p = true.
Proof. apply path_eqb_eq. reflexivity. Qed.

Lemma path_eqb_neq (p q : path) : path_eqb p q = false <-> p <> q.
Proof.
  rewrite <- path_eqb_eq. destruct (path_eqb p q); split; congruence.
Qed.

Lemma is_prefix_iff (a b : path) :
  is_prefix a b = true <-> exists x, b = a ++ x.
Proof.
  revert b. induction a as [|s a IH]; intros b; simpl.
  - split; [intros _; exists b; reflexivity|reflexivity].
  - destruct b as [|s' b].
    + split; [discriminate|intros [x Hx]; discriminate].
    + rewrite andb_true_iff, String.eqb_eq, IH. split.
      * intros [-> [x ->]]. exists x. reflexivity.
      * intros [x [= -> ->]]. eauto.
Qed.

Lemma is_prefix_app (a x : path) : is_prefix a (a ++ x) = true.
Proof. apply is_prefix_iff. eauto. Qed.

Lemma is_prefix_trans (a b c : path) :
  is_prefix a b = true -> is_prefix b c = true -> is_prefix a c = true.
Proof.
  rewrite !is_prefix_iff. intros [x ->] [y ->].
  exists (x ++ y). rewrite app_assoc. reflexivity.
Qed.

(** [a] lies strictly above [d]. *)
Definition proper_ancestor (a d : path) : Prop :=
  exists x, x <> [] /\ d = a ++ x.

Lemma proper_ancestor_prefix (a d : path) :
  proper_ancestor a d -> is_prefix a d = true.
Proof. intros [x [_ ->]]. apply is_prefix_app. Qed.

Lemma proper_ancestor_length (a d : path) :
  proper_ancestor a d -> length a < length d.
Proof.
  intros [x [Hx ->]]. rewrite length_app.
  destruct x; [congruence|simpl; lia].
Qed.

Lemma proper_ancestor_neq (a d : path) : proper_ancestor a d -> a <> d.
Proof.
  intros H E. apply proper_ancestor_length in H. subst. lia.
Qed.

Lemma proper_ancestor_child (a d : path) (n : string) :
  proper_ancestor a d -> proper_ancestor a (d ++ [n]).
Proof.
  intros [x [Hx ->]]. exists (x ++ [n]). split.
  - destruct x; [congruence|discriminate].
  - rewrite app_assoc. reflexivity.
Qed.

Lemma proper_ancestor_self_child (a : path) (n : string) :
  proper_ancestor a (a ++ [n]).
Proof. exists [n]. split; [discriminate|reflexivity]. Qed.

Lemma lookup_app (fs more : t) (p : path) :
  lookup (fs ++ more) p
  = match lookup fs p with
    | Some k => Some k
    | None => lookup more p
    end.
Proof.
  induction fs as [|[q k] fs IH]; simpl; [reflexivity|].
  destruct (path_eqb q p); [reflexivity|assumption].
Qed.

Lemma lookup_remove_key (fs : t) (p q : path) :
  p <> q -> lookup (remove_key fs p) q = lookup fs q.
Proof.
  intros Hpq. induction fs as [|[r k] fs IH]; simpl; [reflexivity|].
  destruct (path_eqb r p) eqn:E.
  - apply path_eqb_eq in E. subst r.
    apply path_eqb_neq in Hpq. rewrite Hpq. assumption.
  - simpl. rewrite IH. reflexivity.
Qed.

(** A move into [dst] leaves what stands strictly above [dst]. *)
Lemma lookup_move_keys (fs : t) (src dst a : path) :
  proper_ancestor a dst -> is_prefix src dst = false ->
  lookup (move_keys src dst fs) a = lookup fs a.
Proof.
  intros Ha Hsrc. induction fs as [|[q k] fs IH]; simpl; [reflexivity|].
  destruct (is_prefix src q) eqn:E; simpl.
  - assert (E1 : path_eqb (dst ++ skipn (length src) q) a = false).
    { apply path_eqb_neq. intros H.
      apply proper_ancestor_length in Ha.
      apply (f_equal (@length string)) in H. rewrite length_app in H. lia. }
    assert (E2 : path_eqb q a = false).
    { apply path_eqb_neq. intros ->.
      apply proper_ancestor_prefix in Ha.
      rewrite (is_prefix_trans src a dst E Ha) in Hsrc. discriminate. }
    rewrite E1, E2. assumption.
  - rewrite IH. reflexivity.
Qed.

Lemma lookup_remove_tree (fs : t) (p q : path) :
  is_prefix p q = true -> lookup (remove_tree fs p) q = None.
Proof.
  intros H. induction fs as [|[r k] fs IH]; simpl; [reflexivity|].
  destruct (is_prefix p r) eqn:E; [assumption|]. simpl.
  destruct (path_eqb r q) eqn:E'; [|assumption].
  apply path_eqb_eq in E'. subst. congruence.
Qed.

(** [mkdirp] adds entries at the end and leaves the path a directory. *)
Lemma mkdirp_from_spec (todo : list string) :
  forall fs done fs',
    mkdirp_from fs done todo = Resolved fs' ->
    (exists more, fs' = fs ++ more)
    /\ (todo <> [] -> lookup fs' (rev done ++ todo) = Some KDir).
Proof.
  induction todo as [|s rest IH]; intros fs done fs' H; simpl in H.
  - injection H as <-. split; [exists []; rewrite app_nil_r; reflexivity|].
    congruence.
  - assert (Hhere : rev done ++ s :: rest = (rev done ++ [s]) ++ rest)
      by (rewrite <- app_assoc; reflexivity).
    assert (Hk : forall fs1, kind_at fs1 (rev done ++ [s])
                             = lookup fs1 (rev done ++ [s])).
    { intros fs1. unfold kind_at.
      destruct (rev done ++ [s]) eqn:E; [|reflexivity].
      destruct (rev done); discriminate. }
    rewrite Hk in H.
    destruct (lookup fs (rev done ++ [s])) as [k|] eqn:E.
    + destruct k; try discriminate.
      destruct (IH _ _ _ H) as [[more ->] Hdir].
      split; [eauto|]. intros _.
      destruct rest as [|s' rest'].
      * simpl in H. injection H as <-. simpl in *. assumption.
      * rewrite Hhere. apply Hdir. discriminate.
    + destruct (IH _ _ _ H) as [[more ->] Hdir].
      split; [exists ([(rev done ++ [s], KDir)] ++ more);
              rewrite app_assoc; reflexivity|].
      intros _. destruct rest as [|s' rest'].
      * simpl in H. injection H as <-.
        rewrite lookup_app, E. simpl. rewrite path_eqb_refl. reflexivity.
      * rewrite Hhere. apply Hdir. discriminate.
Qed.

Lemma mkdirp_exists (fs fs' : t) (p : path) :
  mkdirp fs p = Resolved fs' -> kind_at fs' p = Some KDir.
Proof.
  intros H. destruct p as [|s p]; [reflexivity|].
  apply mkdirp_from_spec in H as [_ H]. simpl in *. apply H. discriminate.
Qed.

End FsFacts.

(** ** Symlink repair leaves the directories above it in place *)

Module RepairFacts.
Import Fs FsFacts.

Section Keeps.

Variable host : Host.
Variable a : path.

Lemma kind_at_lookup (fs fs' : t) :
  lookup fs' a = lookup fs a -> kind_at fs' a = kind_at fs a.
Proof. intros H. unfold kind_at. destruct a; [reflexivity|assumption]. Qed.

Lemma unlink_keeps (fs fs' : t) (p : path) :
  proper_ancestor a p -> unlink fs p = Resolved fs' ->
  lookup fs' a = lookup fs a.
Proof.
  intros Ha H. unfold unlink in H.
  destruct (kind_at fs p) as [[]|]; try discriminate;
    injection H as <-; apply lookup_remove_key;
    intros E; apply (proper_ancestor_neq a p Ha); congruence.
Qed.

Lemma junction_keeps (fs fs' : t) (target : string) (p : path) :
  proper_ancestor a p ->
  symlink_junction (junction_supported host) fs target p = Resolved fs' ->
  lookup fs' a = lookup fs a.
Proof.
  intros Ha H. unfold symlink_junction in H.
  destruct (existsSync fs p); [discriminate|].
  destruct (negb (parent_is_dir fs p)); [discriminate|].
  destruct (junction_supported host p); [|discriminate].
  injection H as <-. rewrite lookup_app. simpl.
  assert (E : path_eqb p a = false).
  { apply path_eqb_neq. intros ->. apply (proper_ancestor_neq a a Ha).
    reflexivity. }
  rewrite E. destruct (lookup fs a); reflexivity.
Qed.

Lemma rename_keeps (fs fs' : t) (src dst : path) :
  proper_ancestor a dst -> rename fs src dst = Resolved fs' ->
  lookup fs' a = lookup fs a.
Proof.
  intros Ha H. unfold rename in H.
  destruct (kind_at fs src); [|discriminate].
  destruct (is_prefix src dst) eqn:E; [discriminate|].
  destruct (existsSync fs dst); [discriminate|].
  destruct (negb (parent_is_dir fs dst)); [discriminate|].
  injection H as <-. apply lookup_move_keys; assumption.
Qed.

Lemma repair_link_keeps (dirPath filePath : path) (w w' : world)
      (r : outcome unit) :
  proper_ancestor a filePath ->
  repair_link host dirPath filePath w = (r, w') ->
  lookup (files w') a = lookup (files w) a.
Proof.
  intros Ha H. unfold repair_link in H. simpl in H.
  destruct (readlink (files w) filePath) as [target|e].
  2:{ injection H as _ <-. reflexivity. }
  destruct (unlink (files w) filePath) as [fs1|e] eqn:U.
  2:{ injection H as _ <-. reflexivity. }
  pose proof (unlink_keeps _ _ _ Ha U) as K1.
  destruct (symlink_junction (junction_supported host) fs1 target filePath)
    as [fs2|e] eqn:J.
  { injection H as _ <-. simpl.
    rewrite (junction_keeps _ _ _ _ Ha J). assumption. }
  destruct (rename fs1 (Fs.join dirPath target) filePath) as [fs3|e'] eqn:R.
  - injection H as _ <-. simpl.
    rewrite (rename_keeps _ _ _ _ Ha R). assumption.
  - injection H as _ <-. simpl. assumption.
Qed.

Lemma repair_entries_keeps
      (walk : path -> world -> option (outcome nat * world)) (dirPath : path) :
  (forall p w r w', proper_ancestor a p -> walk p w = Some (r, w') ->
                    lookup (files w') a = lookup (files w) a) ->
  proper_ancestor a dirPath ->
  forall todo n ps w r w',
    repair_entries host walk dirPath todo n ps w = Some (r, w') ->
    lookup (files w') a = lookup (files w) a.
Proof.
  intros Hwalk Ha todo. induction todo as [|file rest IH];
    intros n ps w r w' H; simpl in H.
  - injection H as _ <-. reflexivity.
  - pose proof (proper_ancestor_child a dirPath (d_name file) Ha) as Hc.
    destruct (isSymbolicLink file).
    + destruct (repair_link host dirPath (dirPath ++ [d_name file]) w)
        as [[u|e] w1] eqn:R.
      * rewrite (IH _ _ _ _ _ H). eapply repair_link_keeps; eassumption.
      * injection H as _ <-. eapply repair_link_keeps; eassumption.
    + destruct (isDirectory file).
      * destruct (walk (dirPath ++ [d_name file]) w) as [[r1 w1]|] eqn:W;
          [|discriminate].
        rewrite (IH _ _ _ _ _ H). eapply Hwalk; eassumption.
      * eapply IH; eassumption.
Qed.

(** The walk of a directory changes nothing strictly above it. *)
Lemma walk_keeps (fuel : nat) :
  forall dirPath w r w',
    proper_ancestor a dirPath ->
    resolveLinkedWorkspaces host fuel dirPath w = Some (r, w') ->
    lookup (files w') a = lookup (files w) a.
Proof.
  induction fuel as [|fuel IH]; intros dirPath w r w' Ha H; simpl in H;
    [discriminate|].
  destruct (readdir (files w) dirPath) as [todo|e].
  - apply (repair_entries_keeps _ dirPath IH Ha) in H. assumption.
  - injection H as _ <-. reflexivity.
Qed.

End Keeps.

End RepairFacts.

(** ** Remove and install *)

Lemma valid_truthy_some {SV : Semver} (version : option string) :
  Js.truthy (Js.of_option (valid version)) = true ->
  exists s, version = Some s.
Proof.
  destruct version as [s|]; [eauto|]. simpl. discriminate.
Qed.

Lemma existsSync_kind_at (fs : Fs.t) (p : Fs.path) (k : Fs.kind) :
  Fs.kind_at fs p = Some k -> Fs.existsSync fs p = true.
Proof. unfold Fs.existsSync. intros ->. reflexivity. Qed.

Lemma join_node_modules (p : Fs.path) :
  Fs.join p "node_modules" = p ++ ["node_modules"].
Proof.
  unfold Fs.join. simpl. rewrite rev_involutive. reflexivity.
Qed.

Lemma lookup_remove_tree_other (fs : Fs.t) (p q : Fs.path) :
  Fs.is_prefix p q = false ->
  Fs.lookup (Fs.remove_tree fs p) q = Fs.lookup fs q.
Proof.
  intros H. induction fs as [|[r k] fs IH]; simpl; [reflexivity|].
  destruct (Fs.is_prefix p r) eqn:E.
  - destruct (Fs.path_eqb r q) eqn:E'; [|assumption].
    apply FsFacts.path_eqb_eq in E'. subst. congruence.
  - simpl. rewrite IH. reflexivity.
Qed.

(** C5: [remove] fails with the invalid-version error exactly when the
    specifier does not clean to a valid version, and then touches nothing.
    For a valid version whose directory is absent it reports the cleaned
    version after the existence check alone, the files unchanged. Otherwise
    it runs [rimraf] on the directory. When [rimraf] fails, its failure is
    handed on as it is. When it goes through, the version is reported and
    the tree is gone: nothing stands at the directory or at any path below
    it any more (the root of the file system aside, which is always
    there), and every path outside the directory holds what it held. *)
Theorem remove_outcomes :
  forall (SV : Semver) (host : Host) (repoPath : Fs.path) (v : string)
         (w : world),
    (fst (remove host repoPath v w) = Rejected (Error "Invalid version")
     <-> Js.truthy (Js.of_option (valid (sv_clean v))) = false)
    /\ (Js.truthy (Js.of_option (valid (sv_clean v))) = false ->
        snd (remove host repoPath v w) = w)
    /\ (forall version,
           sv_clean v = Some version ->
           Js.truthy (Js.of_option (valid (Some version))) = true ->
           (Fs.existsSync (files w) (Fs.join repoPath version) = false ->
            remove host repoPath v w
            = (Resolved version, emit (EvExists (Fs.join repoPath version)) w))
           /\ (Fs.existsSync (files w) (Fs.join repoPath version) = true ->
               match rimraf_failure host (Fs.join repoPath version) with
               | Some err =>
                   remove host repoPath v w
                   = (Rejected (External err),
                      emit (EvRimraf (Fs.join repoPath version))
                        (emit (EvExists (Fs.join repoPath version)) w))
               | None =>
                   exists w',
                     remove host repoPath v w = (Resolved version, w')
                     /\ log w'
                        = log w ++ [EvExists (Fs.join repoPath version);
                                    EvRimraf (Fs.join repoPath version)]
                     /\ (forall q,
                            q <> [] ->
                            Fs.is_prefix (Fs.join repoPath version) q = true ->
                            Fs.kind_at (files w') q = None)
                     /\ (forall q,
                            Fs.is_prefix (Fs.join repoPath version) q = false ->
                            Fs.kind_at (files w') q = Fs.kind_at (files w) q)
               end)).
Proof.
  intros SV host repoPath v w. split; [|split].
  - unfold remove.
    destruct (Js.truthy (Js.of_option (valid (sv_clean v)))) eqn:T; simpl.
    + split; [|discriminate].
      destruct (valid_truthy_some _ T) as [s ->]. simpl.
      destruct (Fs.existsSync (files w) (Fs.join repoPath s)); simpl;
        [|discriminate].
      destruct (rimraf_failure host (Fs.join repoPath s)); discriminate.
    + split; reflexivity.
  - intros T. unfold remove. rewrite T. reflexivity.
  - intros version Hclean T. unfold remove. rewrite Hclean, T. simpl. split.
    + intros ->. reflexivity.
    + intros ->. simpl.
      destruct (rimraf_failure host (Fs.join repoPath version));
        [reflexivity|].
      eexists. split; [reflexivity|]. simpl. split; [|split].
      * rewrite <- app_assoc. reflexivity.
      * intros q Hq Hpre. destruct q as [|s q]; [congruence|]. simpl.
        apply FsFacts.lookup_remove_tree. exact Hpre.
      * intros q Hpre. destruct q as [|s q]; [reflexivity|]. simpl.
        apply lookup_remove_tree_other. exact Hpre.
Qed.

(** C5 on the example repository: a stray name is refused, a version that
    was never installed is reported without any change, an installed one is
    deleted with the file it holds, and the stray file beside it stays. *)
Lemma remove_outcomes_witness :
  remove Trees.no_junctions Repo.repoPath "README" Repo.one_installed
  = (Rejected (Error "Invalid version"), Repo.one_installed)
  /\ remove Trees.no_junctions Repo.repoPath "v8.1.0" Repo.one_installed
     = (Resolved "8.1.0",
        emit (EvExists ["nodist"; "npmv"; "8.1.0"]) Repo.one_installed)
  /\ exists w',
       remove Trees.no_junctions Repo.repoPath "6.14.0" Repo.one_installed
       = (Resolved "6.14.0", w')
       /\ Fs.kind_at (files w') ["nodist"; "npmv"; "6.14.0"] = None
       /\ Fs.kind_at (files w') ["nodist"; "npmv"; "6.14.0"; "package.json"]
          = None
       /\ Fs.kind_at (files w') ["nodist"; "npmv"; "README"] = Some Fs.KFile.
Proof.
  destruct (remove_outcomes semver_core Trees.no_junctions Repo.repoPath
              "README" Repo.one_installed) as [Hinv [Hsame _]].
  destruct (remove_outcomes semver_core Trees.no_junctions Repo.repoPath
              "v8.1.0" Repo.one_installed) as [_ [_ Habsent]].
  destruct (remove_outcomes semver_core Trees.no_junctions Repo.repoPath
              "6.14.0" Repo.one_installed) as [_ [_ Hpresent]].
  split; [|split].
  - rewrite (surjective_pairing (remove _ _ _ _)).
    rewrite (proj2 Hinv eq_refl), (Hsame eq_refl). reflexivity.
  - exact (proj1 (Habsent "8.1.0" eq_refl eq_refl) eq_refl).
  - destruct (proj2 (Hpresent "6.14.0" eq_refl eq_refl) eq_refl)
      as [w' [Hr [_ [Hgone Hkept]]]].
    exists w'. split; [exact Hr|]. split; [|split].
    + apply Hgone; [discriminate|reflexivity].
    + apply Hgone; [discriminate|reflexivity].
    + rewrite Hkept; reflexivity.
Defined.

(** After a removal that went through, the directory is gone (the root
    itself aside). *)
Lemma remove_tree_gone (fs : Fs.t) (p : Fs.path) :
  p <> [] -> Fs.existsSync (Fs.remove_tree fs p) p = false.
Proof.
  intros Hp. unfold Fs.existsSync, Fs.kind_at.
  destruct p as [|s p]; [congruence|].
  rewrite FsFacts.lookup_remove_tree; [reflexivity|].
  apply FsFacts.is_prefix_iff. exists []. rewrite app_nil_r. reflexivity.
Qed.

(** Once [install] has reported success, the target directory is there. *)
Lemma install_leaves_directory {SV : Semver} (host : Host) (repoPath : Fs.path)
      (fuel : nat) (v version : string) (w w1 : world) (r : string) :
  sv_clean v = Some version ->
  Js.truthy (Js.of_option (valid (Some version))) = true ->
  install host repoPath fuel v w = Some (Resolved r, w1) ->
  r = version /\ Fs.existsSync (files w1) (Fs.join repoPath version) = true.
Proof.
  intros Hclean T H. unfold install in H. rewrite Hclean, T in H. simpl in H.
  set (ap := Fs.join repoPath version) in *.
  destruct (Fs.existsSync (files w) ap) eqn:E.
  { injection H as <- <-. split; [reflexivity|]. simpl. assumption. }
  destruct (Fs.mkdirp (files w) ap) as [fs1|e] eqn:M; [|discriminate].
  apply FsFacts.mkdirp_exists in M.
  unfold download_and_extract in H. simpl in H.
  destruct (downloadFileStream host (downloadUrl version)) as [content failure].
  assert (K : Fs.kind_at (Fs.unpack fs1 ap content) ap = Some Fs.KDir).
  { unfold Fs.kind_at in *. destruct ap; [reflexivity|].
    unfold Fs.unpack. rewrite FsFacts.lookup_app, M. reflexivity. }
  destruct failure as [err|]; [discriminate|].
  destruct (sv_gte version "8.0.0").
  - destruct (resolveLinkedWorkspaces host fuel (Fs.join ap "node_modules") _)
      as [[[n|e] w2]|] eqn:W; try discriminate.
    injection H as <- <-. split; [reflexivity|].
    rewrite join_node_modules in W.
    apply (RepairFacts.walk_keeps host ap) in W;
      [|apply FsFacts.proper_ancestor_self_child].
    apply RepairFacts.kind_at_lookup in W. simpl in W.
    eapply existsSync_kind_at. rewrite W. exact K.
  - injection H as <- <-. split; [reflexivity|].
    eapply existsSync_kind_at. exact K.
Qed.

(** C4: for a specifier that cleans to a valid version, [install] on a
    world in which the target directory exists reports the cleaned version
    at once: the only thing it asks is whether the directory exists, so
    nothing is downloaded and no file changes. In particular a second
    [install] after a first one that went through returns at once with the
    same version. *)
Theorem install_idempotent :
  forall (SV : Semver) (host : Host) (repoPath : Fs.path)
         (v version : string) (w : world) (fuel : nat),
    sv_clean v = Some version ->
    Js.truthy (Js.of_option (valid (Some version))) = true ->
    (Fs.existsSync (files w) (Fs.join repoPath version) = true ->
     install host repoPath fuel v w
     = Some (Resolved version, emit (EvExists (Fs.join repoPath version)) w))
    /\ (forall r w1,
           install host repoPath fuel v w = Some (Resolved r, w1) ->
           r = version
           /\ forall fuel',
               install host repoPath fuel' v w1
               = Some (Resolved version,
                       emit (EvExists (Fs.join repoPath version)) w1)).
Proof.
  intros SV host repoPath v version w fuel Hclean T.
  assert (Hexists : forall w0 fuel0,
             Fs.existsSync (files w0) (Fs.join repoPath version) = true ->
             install host repoPath fuel0 v w0
             = Some (Resolved version,
                     emit (EvExists (Fs.join repoPath version)) w0)).
  { intros w0 fuel0 E. unfold install. rewrite Hclean, T. simpl.
    rewrite E. reflexivity. }
  split; [apply Hexists|].
  intros r w1 H.
  destruct (install_leaves_directory host repoPath fuel v version w w1 r
              Hclean T H) as [-> E].
  split; [reflexivity|]. intros fuel'. apply Hexists. assumption.
Qed.

(** C4 on the example repository: version 8.1.0 is installed from the
    network, and installing it again asks for nothing but the existence of
    its directory. *)
Lemma install_idempotent_witness :
  exists w1,
    install Repo.online Repo.repoPath 5 "v8.1.0" Repo.one_installed
    = Some (Resolved "8.1.0", w1)
    /\ List.filter is_network (log w1)
       = [EvDownload "https://codeload.github.com/npm/cli/tar.gz/v8.1.0"
            ["nodist"; "npmv"; "8.1.0"]]
    /\ install Repo.online Repo.repoPath 5 "v8.1.0" w1
       = Some (Resolved "8.1.0",
               emit (EvExists ["nodist"; "npmv"; "8.1.0"]) w1).
Proof.
  destruct (install Repo.online Repo.repoPath 5 "v8.1.0" Repo.one_installed)
    as [[[r|e] w1]|] eqn:H; try (vm_compute in H; discriminate).
  exists w1.
  destruct (install_idempotent semver_core Repo.online Repo.repoPath
              "v8.1.0" "8.1.0" Repo.one_installed 5 eq_refl eq_refl)
    as [_ Hagain].
  destruct (Hagain r w1 H) as [-> Hsecond].
  split; [reflexivity|]. split; [|apply Hsecond].
  vm_compute in H. injection H as <-. reflexivity.
Defined.

(** ** The installed set *)

Module InstalledFacts.

Lemma StronglySorted_impl {A : Type} (R S : A -> A -> Prop) (l : list A) :
  (forall a b, R a b -> S a b) -> StronglySorted R l -> StronglySorted S l.
Proof.
  intros H. induction 1 as [|a l Hl IH Ha]; constructor; [assumption|].
  eapply Forall_impl; [|exact Ha]. intros b. apply H.
Qed.

(** Two ascending lists with the same elements are the same list when the
    key tells the elements apart. *)
Lemma sorted_unique {A : Type} (key : A -> Z) (l1 : list A) :
  forall l2,
    StronglySorted (fun a b => (key a <= key b)%Z) l1 ->
    StronglySorted (fun a b => (key a <= key b)%Z) l2 ->
    Permutation l1 l2 ->
    (forall a b, In a l1 -> In b l1 -> key a = key b -> a = b) ->
    l1 = l2.
Proof.
  induction l1 as [|a l1 IH]; intros l2 S1 S2 Pm Hinj.
  - apply Permutation_nil in Pm. congruence.
  - destruct l2 as [|b l2].
    + apply Permutation_sym, Permutation_nil in Pm. discriminate.
    + inversion S1 as [|? ? S1' Ha]; subst.
      inversion S2 as [|? ? S2' Hb]; subst.
      rewrite Forall_forall in Ha, Hb.
      assert (Hb1 : In b (a :: l1)).
      { eapply Permutation_in; [symmetry; exact Pm|]. left. reflexivity. }
      assert (Ha2 : In a (b :: l2)).
      { eapply Permutation_in; [exact Pm|]. left. reflexivity. }
      assert (E : a = b).
      { apply Hinj; [left; reflexivity|assumption|].
        destruct Hb1 as [->|Hb1]; [reflexivity|].
        destruct Ha2 as [->|Ha2]; [reflexivity|].
        specialize (Ha b Hb1). specialize (Hb a Ha2). lia. }
      subst b. f_equal. apply IH; try assumption.
      * eapply Permutation_cons_inv. exact Pm.
      * intros x y Hx Hy. apply Hinj; right; assumption.
Qed.

Lemma filteri_from_blind {A : Type} (p : A -> nat -> bool) (q : A -> bool)
      (l : list A) :
  forall i,
    (forall v j, In v l -> p v j = q v) ->
    Js.filteri_from p i l = List.filter q l.
Proof.
  induction l as [|x l IH]; intros i H; simpl; [reflexivity|].
  rewrite (H x i (or_introl eq_refl)).
  rewrite (IH (S i)) by (intros v j Hv; apply H; right; assumption).
  reflexivity.
Qed.

Section Sorting.

Context {SV : Semver} {VM : VersionManager}.

Lemma by_compareable_le (a b : string) :
  (by_compareable a b <= 0)%Z <-> (compareable a <= compareable b)%Z.
Proof.
  unfold by_compareable.
  destruct (compareable b <? compareable a)%Z eqn:E.
  - apply Z.ltb_lt in E. lia.
  - apply Z.ltb_ge in E. lia.
Qed.

Lemma by_compareable_asym (x y : string) :
  True -> True -> (0 < by_compareable y x)%Z -> (by_compareable x y <= 0)%Z.
Proof.
  intros _ _ H. apply by_compareable_le. unfold by_compareable in H.
  destruct (compareable x <? compareable y)%Z eqn:E; [|lia].
  apply Z.ltb_lt in E. lia.
Qed.

Lemma by_compareable_trans (a b c : string) :
  True -> True -> True ->
  (by_compareable a b <= 0)%Z -> (by_compareable b c <= 0)%Z ->
  (by_compareable a c <= 0)%Z.
Proof. intros _ _ _. rewrite !by_compareable_le. lia. Qed.

(** The filter and sort of [listInstalled]: the valid entries, ascending. *)
Lemma installed_of_spec (ls : list string) :
  index_blind ls ->
  Permutation (List.filter is_valid_entry ls) (installed_of ls)
  /\ ascending (installed_of ls).
Proof.
  intros Hblind. unfold installed_of, Js.filteri.
  rewrite (filteri_from_blind _ is_valid_entry ls 0 Hblind).
  destruct (SortFacts.sort_sorted by_compareable (fun _ => True)
              by_compareable_asym by_compareable_trans
              (List.filter is_valid_entry ls)) as [S Pm].
  { apply Forall_forall. intros; exact I. }
  split; [assumption|].
  eapply StronglySorted_impl; [|exact S].
  intros a b. apply by_compareable_le.
Qed.

End Sorting.

End InstalledFacts.

Lemma Permutation_filter {A : Type} (f : A -> bool) (l l' : list A) :
  Permutation l l' -> Permutation (List.filter f l) (List.filter f l').
Proof.
  induction 1 as [|x l l' _ IH|x y l|l l' l'' _ IH1 _ IH2]; simpl.
  - constructor.
  - destruct (f x); [constructor|]; assumption.
  - destruct (f x), (f y); try reflexivity. apply perm_swap.
  - etransitivity; eassumption.
Qed.

(** Where [semver.valid] does not change its verdict with the index that
    [filter] passes along: the first [listInstalled] of a process reads the
    repository directory and hands back its entries that are valid semantic
    versions, and only those, in ascending order of the comparable
    projection; and where the projection tells the versions apart, a
    listing of the same names in any other order gives the same result. *)
Lemma listInstalled_sorted_valid :
  forall (SV : Semver) (VM : VersionManager) (repoPath : Fs.path)
         (w : world) (dir : list Fs.dirent),
    Fs.readdir (files w) repoPath = Resolved dir ->
    index_blind (map Fs.d_name dir) ->
    exists result,
      listInstalled repoPath {| installedCache := None |} w
      = (Resolved result, {| installedCache := Some result |},
         emit (EvReaddir repoPath) w)
      /\ (forall v, In v result
                    <-> In v (map Fs.d_name dir) /\ is_valid_entry v = true)
      /\ Permutation (List.filter is_valid_entry (map Fs.d_name dir)) result
      /\ ascending result
      /\ (forall w' dir',
             Fs.readdir (files w') repoPath = Resolved dir' ->
             Permutation (map Fs.d_name dir) (map Fs.d_name dir') ->
             distinct_keys (map Fs.d_name dir) ->
             fst (fst (listInstalled repoPath {| installedCache := None |} w'))
             = Resolved result).
Proof.
  intros SV VM repoPath w dir Hread Hblind.
  destruct (InstalledFacts.installed_of_spec (map Fs.d_name dir) Hblind)
    as [Pm Hasc].
  exists (installed_of (map Fs.d_name dir)).
  split; [|split; [|split; [|split]]].
  - unfold listInstalled. simpl. rewrite Hread. reflexivity.
  - intros v. rewrite <- filter_In. split; intros H.
    + eapply Permutation_in; [symmetry; exact Pm|exact H].
    + eapply Permutation_in; [exact Pm|exact H].
  - exact Pm.
  - exact Hasc.
  - intros w' dir' Hread' Hperm Hkeys.
    unfold listInstalled. simpl. rewrite Hread'. simpl. f_equal.
    assert (Hblind' : index_blind (map Fs.d_name dir')).
    { intros v i Hv. apply Hblind.
      eapply Permutation_in; [symmetry; exact Hperm|exact Hv]. }
    destruct (InstalledFacts.installed_of_spec (map Fs.d_name dir') Hblind')
      as [Pm' Hasc'].
    apply (InstalledFacts.sorted_unique compareable); try assumption.
    + rewrite <- Pm', <- Pm. apply Permutation_filter.
      symmetry. exact Hperm.
    + intros a b Ha Hb.
      eapply Permutation_in in Ha; [|symmetry; exact Pm'].
      eapply Permutation_in in Hb; [|symmetry; exact Pm'].
      apply filter_In in Ha as [Ha Va]. apply filter_In in Hb as [Hb Vb].
      apply Hkeys; try assumption;
        (eapply Permutation_in; [symmetry; exact Hperm|assumption]).
Qed.

(** A later call answers from the cache without reading the directory. *)
Lemma listInstalled_cached {SV : Semver} {VM : VersionManager}
      (repoPath : Fs.path) (cached : list string) (w : world) :
  listInstalled repoPath {| installedCache := Some cached |} w
  = (Resolved cached, {| installedCache := Some cached |}, w).
Proof. reflexivity. Qed.

(** The example repository, listed in two orders: the stray file is left
    out and the versions come in ascending order, 10.2.0 last, both
    times. *)
Lemma listInstalled_sorted_valid_witness :
  fst (fst (listInstalled Repo.repoPath {| installedCache := None |}
              Listing.listed))
  = Resolved ["6.14.0"; "8.1.0"; "10.2.0"]
  /\ fst (fst (listInstalled Repo.repoPath {| installedCache := None |}
                 Listing.listed_backwards))
     = Resolved ["6.14.0"; "8.1.0"; "10.2.0"].
Proof.
  destruct (listInstalled_sorted_valid semver_core padded_versions
              Repo.repoPath Listing.listed
              (Fs.entries (files Listing.listed) Repo.repoPath))
    as [result [Heq [_ [_ [_ Hany]]]]].
  - reflexivity.
  - intros v i Hv. simpl in Hv.
    destruct Hv as [<-|[<-|[<-|[<-|[]]]]]; destruct i; reflexivity.
  - assert (E : result = ["6.14.0"; "8.1.0"; "10.2.0"]).
    { vm_compute in Heq. injection Heq as Heq _. symmetry. exact Heq. }
    split.
    + rewrite Heq, E. reflexivity.
    + rewrite <- E.
      apply (Hany Listing.listed_backwards
               (Fs.entries (files Listing.listed_backwards) Repo.repoPath)).
      * reflexivity.
      * apply (Permutation_rev ["8.1.0"; "README"; "6.14.0"; "10.2.0"]).
      * intros a b Ha Hb Va Vb K. simpl in Ha, Hb.
        destruct Ha as [<-|[<-|[<-|[<-|[]]]]];
          destruct Hb as [<-|[<-|[<-|[<-|[]]]]];
          try reflexivity; try discriminate Va; try discriminate Vb;
          vm_compute in K; discriminate K.
Defined.

(** An entry that [semver.valid] accepts when it is handed the entry's
    index as options is listed, whatever [semver.valid] says of the entry
    on its own. *)
Lemma installed_of_at_index {SV : Semver} {VM : VersionManager}
      (before after : list string) (v : string) :
  Js.truthy (Js.of_option (sv_valid (JNumber (Z.of_nat (length before))) v))
  = true ->
  In v (installed_of (before ++ v :: after)).
Proof.
  intros T. unfold installed_of, Js.filteri.
  eapply Permutation_in; [apply SortFacts.sort_perm|].
  assert (G : forall i,
             Js.truthy (Js.of_option
                          (sv_valid (JNumber (Z.of_nat (i + length before))) v))
             = true ->
             In v (Js.filteri_from
                     (fun v i =>
                        Js.truthy (Js.of_option
                                     (sv_valid (JNumber (Z.of_nat i)) v)))
                     i (before ++ v :: after))).
  { clear T. induction before as [|b before IH]; intros i Hi; simpl in *.
    - rewrite Nat.add_0_r in Hi. rewrite Hi. left. reflexivity.
    - replace (i + S (length before)) with (S i + length before) in Hi by lia.
      destruct (Js.truthy (Js.of_option (sv_valid (JNumber (Z.of_nat i)) b)));
        [right|]; apply IH; exact Hi. }
  apply G. exact T.
Qed.

(** C8: [semver.valid] is handed to [filter] as it is, so it receives the
    index of each entry as its options argument, and any index but 0 asks
    for loose parsing. In a repository that lists the version 6.14.0 first
    and then a directory named 8.01.0, the second entry is listed, though
    it is no valid semantic version (a number with a leading zero); and the
    same two entries listed the other way round give the version alone.
    The result holds an entry that is not a valid version, and it changes
    with the order of the directory listing. *)
Theorem listInstalled_lists_stray_entry :
  forall (VM : VersionManager),
    @is_valid_entry semver_core "8.01.0" = false
    /\ (exists result,
          fst (fst (@listInstalled semver_core VM Repo.repoPath
                      {| installedCache := None |} Listing.stray_last))
          = Resolved result
          /\ In "8.01.0" result /\ In "6.14.0" result)
    /\ fst (fst (@listInstalled semver_core VM Repo.repoPath
                   {| installedCache := None |} Listing.stray_first))
       = Resolved ["6.14.0"].
Proof.
  intros VM. split; [reflexivity|]. split; [|reflexivity].
  exists (@installed_of semver_core VM ["6.14.0"; "8.01.0"]).
  split; [reflexivity|]. split.
  - apply (@installed_of_at_index semver_core VM ["6.14.0"] [] "8.01.0").
    reflexivity.
  - apply (@installed_of_at_index semver_core VM [] ["8.01.0"] "6.14.0").
    reflexivity.
Qed.

(** ** The count of repaired links *)

Module CountFacts.

Lemma unlinks_app (l1 l2 : list event) :
  unlinks (l1 ++ l2) = unlinks l1 + unlinks l2.
Proof.
  induction l1 as [|e l1 IH]; simpl; [reflexivity|].
  destruct e; simpl; rewrite IH; reflexivity.
Qed.

Lemma fold_add (l : list nat) (n : nat) :
  fold_left Nat.add l (S n) = S (fold_left Nat.add l n).
Proof.
  revert n. induction l as [|c l IH]; intros n; simpl; [reflexivity|].
  rewrite <- IH. reflexivity.
Qed.

Lemma sum_counts_succ (ps : list (outcome nat)) (n total : nat) :
  sum_counts ps (S n) = Resolved total ->
  exists base, sum_counts ps n = Resolved base /\ total = S base.
Proof.
  unfold sum_counts. destruct (promise_all ps) as [counts|e]; simpl;
    [|discriminate].
  intros [= <-]. eexists. split; [reflexivity|]. apply fold_add.
Qed.

Lemma promise_all_snoc {A : Type} (ps : list (outcome A)) (r : outcome A)
      (l : list A) :
  promise_all (ps ++ [r]) = Resolved l ->
  exists l0 c, promise_all ps = Resolved l0 /\ r = Resolved c /\ l = l0 ++ [c].
Proof.
  revert l. induction ps as [|p ps IH]; intros l H; simpl in H.
  - destruct r as [c|e]; [|discriminate]. simpl in H. injection H as <-.
    exists [], c. auto.
  - destruct p as [a|e]; [|discriminate]. simpl in H.
    destruct (promise_all (ps ++ [r])) as [l'|e] eqn:E; [|discriminate].
    simpl in H. injection H as <-.
    destruct (IH l' eq_refl) as [l0 [c [H0 [Hr ->]]]].
    exists (a :: l0), c. simpl. rewrite H0. auto.
Qed.

Lemma sum_counts_snoc (ps : list (outcome nat)) (r : outcome nat)
      (n total : nat) :
  sum_counts (ps ++ [r]) n = Resolved total ->
  exists base c, sum_counts ps n = Resolved base /\ r = Resolved c
                 /\ total = base + c.
Proof.
  unfold sum_counts.
  destruct (promise_all (ps ++ [r])) as [l|e] eqn:E; [|discriminate].
  simpl. intros [= <-].
  destruct (promise_all_snoc ps r l E) as [l0 [c [H0 [Hr ->]]]].
  exists (fold_left Nat.add l0 n), c. rewrite H0. simpl.
  rewrite fold_left_app. auto.
Qed.

Section Count.

Variable host : Host.

(** A repair that went through removed one link. *)
Lemma repair_link_unlinks (dirPath filePath : Fs.path) (w w' : world) :
  repair_link host dirPath filePath w = (Resolved tt, w') ->
  unlinks (log w') = S (unlinks (log w)).
Proof.
  unfold repair_link. simpl.
  destruct (Fs.readlink (files w) filePath) as [target|e]; [|discriminate].
  destruct (Fs.unlink (files w) filePath) as [fs1|e]; [|discriminate].
  destruct (Fs.symlink_junction (junction_supported host) fs1 target filePath)
    as [fs2|e].
  - intros [= <-]. simpl. rewrite !unlinks_app. simpl. lia.
  - destruct (Fs.rename fs1 (Fs.join dirPath target) filePath) as [fs3|e'];
      [|discriminate].
    intros [= <-]. simpl. rewrite !unlinks_app. simpl. lia.
Qed.

Lemma repair_entries_counts
      (walk : Fs.path -> world -> option (outcome nat * world))
      (dirPath : Fs.path) :
  (forall p w r w', walk p w = Some (Resolved r, w') ->
                    unlinks (log w') = unlinks (log w) + r) ->
  forall todo n ps w total w',
    repair_entries host walk dirPath todo n ps w = Some (Resolved total, w') ->
    exists base, sum_counts ps n = Resolved base
                 /\ unlinks (log w') + base = unlinks (log w) + total.
Proof.
  intros Hwalk todo. induction todo as [|file rest IH];
    intros n ps w total w' H; simpl in H.
  - injection H as H <-. exists total. auto.
  - destruct (Fs.isSymbolicLink file).
    + destruct (repair_link host dirPath (dirPath ++ [Fs.d_name file]) w)
        as [[[]|e] w1] eqn:R; [|discriminate].
      apply repair_link_unlinks in R.
      destruct (IH _ _ _ _ _ H) as [base' [Hs Hu]].
      destruct (sum_counts_succ _ _ _ Hs) as [base [Hb ->]].
      exists base. split; [assumption|]. lia.
    + destruct (Fs.isDirectory file).
      * destruct (walk (dirPath ++ [Fs.d_name file]) w) as [[r1 w1]|] eqn:W;
          [|discriminate].
        destruct (IH _ _ _ _ _ H) as [base' [Hs Hu]].
        destruct (sum_counts_snoc _ _ _ _ Hs) as [base [c [Hb [-> ->]]]].
        apply Hwalk in W. exists base. split; [assumption|]. lia.
      * eapply IH; eassumption.
Qed.

(** The count a walk returns is the number of links it has removed and
    replaced, on all levels of the tree together. *)
Lemma walk_counts (fuel : nat) :
  forall dirPath w n w',
    resolveLinkedWorkspaces host fuel dirPath w = Some (Resolved n, w') ->
    unlinks (log w') = unlinks (log w) + n.
Proof.
  induction fuel as [|fuel IH]; intros dirPath w n w' H; simpl in H;
    [discriminate|].
  destruct (Fs.readdir (files w) dirPath) as [todo|e]; [|discriminate].
  destruct (repair_entries_counts _ dirPath IH _ _ _ _ _ _ H)
    as [base [Hs Hu]].
  unfold sum_counts in Hs. simpl in Hs. injection Hs as <-.
  simpl in Hu. rewrite unlinks_app in Hu. simpl in Hu. lia.
Qed.

End Count.

End CountFacts.

(** C6, on the tree with the one link [a] listed before the directory [b]
    it points to, on a volume without junctions: [b] is moved to the path of
    the link, its content with it, and then the walk follows the entry [b]
    read before the move; reading that directory fails, so the walk is
    rejected and reports no count. *)
Theorem repair_link_beside_target :
  forall fuel,
    exists w',
      resolveLinkedWorkspaces Trees.no_junctions (S (S fuel))
        ["npm"; "node_modules"] (Trees.fresh Trees.link_beside_target)
      = Some (Rejected (External "ENOENT"), w')
      /\ Fs.kind_at (files w') ["npm"; "node_modules"; "a"] = Some Fs.KDir
      /\ Fs.kind_at (files w') ["npm"; "node_modules"; "a"; "index.js"]
         = Some Fs.KFile
      /\ Fs.kind_at (files w') ["npm"; "node_modules"; "b"] = None
      /\ unlinks (log w') = 1.
Proof.
  intros fuel.
  eexists. split; [reflexivity|]. repeat split; reflexivity.
Qed.

(** Where the target lies outside the walked directory the repair goes
    through: the target directory stands at the path of the link and the
    count is 1. *)
Lemma repair_link_to_workspace :
  exists w',
    resolveLinkedWorkspaces Trees.no_junctions 2 ["npm"; "node_modules"]
      (Trees.fresh Trees.link_to_workspace)
    = Some (Resolved 1, w')
    /\ Fs.kind_at (files w') ["npm"; "node_modules"; "arborist"] = Some Fs.KDir
    /\ Fs.kind_at (files w') ["npm"; "node_modules"; "arborist"; "index.js"]
       = Some Fs.KFile
    /\ Fs.kind_at (files w') ["npm"; "workspaces"; "arborist"] = None.
Proof.
  eexists. split; [reflexivity|]. repeat split; reflexivity.
Qed.

(** * Further properties of the code *)

(** ** The candidate pool and the resolution that uses it *)

Lemma tags_of_pages (pages : list (list release)) :
  flat_map (fun data => map (fun r => JString (tag_name r)) data) pages
  = map (fun r => JString (tag_name r)) (concat pages).
Proof. rewrite flat_map_concat_map, concat_map. reflexivity. Qed.

(** X1: with both feeds fetched, [listAvailable] resolves exactly when the
    second feed holds no release at all, and the pool is then the tags of
    the first feed in feed order; any release in the second feed makes it
    reject with the type error of reading [name] of a tag. *)
Theorem listAvailable_second_feed :
  forall (remote : Remote) (npm cli : list (list release)),
    npm_pages remote = Resolved npm ->
    cli_pages remote = Resolved cli ->
    (concat cli = [] ->
     listAvailable remote
     = Resolved (map (fun r => JString (tag_name r)) (concat npm)))
    /\ (concat cli <> [] ->
        listAvailable remote
        = Rejected (TypeError "Cannot read properties of undefined")).
Proof.
  intros remote npm cli Hn Hc. split.
  - intros E. unfold listAvailable, paginate_tags. rewrite Hn, Hc. simpl.
    rewrite !tags_of_pages, E. unfold merge_feeds. simpl.
    rewrite app_nil_r. reflexivity.
  - intros N. apply (PoolFacts.listAvailable_rejects remote npm cli);
      assumption.
Qed.

Lemma listAvailable_second_feed_witness :
  listAvailable Examples.npm_feed_only
  = Resolved [JString "1.0.0"; JString "2.0.0"; JString "2.5.3"]
  /\ listAvailable Examples.both_feeds
     = Rejected (TypeError "Cannot read properties of undefined").
Proof.
  split.
  - apply (proj1 (listAvailable_second_feed Examples.npm_feed_only
                    [[Examples.rel "1.0.0" "1.0.0"; Examples.rel "2.0.0" "2.0.0"];
                     [Examples.rel "2.5.3" "2.5.3"]] [] eq_refl eq_refl)).
    reflexivity.
  - apply (proj2 (listAvailable_second_feed Examples.both_feeds
                    [[Examples.rel "v1.0.0" "v1.0.0"]]
                    [[Examples.rel "v8.1.0" "v8.1.0";
                      Examples.rel "arborist-v2.0.0" "arborist: v2.0.0"]]
                    eq_refl eq_refl)).
    discriminate.
Defined.

(** X2: as soon as the second feed holds a release, [resolveVersion] of any
    specifier other than the empty one, latest and match hands [done] that
    type error, whatever the specifier and the first feed are. *)
Theorem resolveVersion_fails_on_second_feed :
  forall (SV : Semver) (remote : Remote) (npm cli : list (list release))
         (v : string) (fuel : nat),
    v <> "" -> v <> "latest" -> v <> "match" ->
    npm_pages remote = Resolved npm ->
    cli_pages remote = Resolved cli ->
    concat cli <> [] ->
    resolveVersion remote fuel v
    = Some (Called (Rejected (TypeError "Cannot read properties of undefined"))).
Proof.
  intros SV remote npm cli v fuel H1 H2 H3 Hn Hc Hne.
  unfold resolveVersion.
  assert (E1 : String.eqb "latest" v = false)
    by (apply String.eqb_neq; congruence).
  assert (E2 : String.eqb v "" = false) by (apply String.eqb_neq; congruence).
  assert (E3 : String.eqb "match" v = false)
    by (apply String.eqb_neq; congruence).
  rewrite E1, E2, E3.
  rewrite (PoolFacts.listAvailable_rejects remote npm cli Hn Hc Hne).
  reflexivity.
Qed.

Lemma resolveVersion_fails_on_second_feed_witness :
  resolveVersion Examples.both_feeds 0 "^8.0.0"
  = Some (Called (Rejected (TypeError "Cannot read properties of undefined"))).
Proof.
  apply (resolveVersion_fails_on_second_feed semver_core Examples.both_feeds
           [[Examples.rel "v1.0.0" "v1.0.0"]]
           [[Examples.rel "v8.1.0" "v8.1.0";
             Examples.rel "arborist-v2.0.0" "arborist: v2.0.0"]]);
    try discriminate; reflexivity.
Defined.

(** ** One page of releases, whatever the catalog answers *)

Module ReleasesFacts.

Section Page.

Context {SV : Semver}.
Variable remote : Remote.

(** The tags of a page that pass the test of [getNpmReleases]. *)
Definition passing (data : list release) : list string :=
  List.filter Tag.is_release_tag (map tag_name data).

(** A page resolves to the plain sort of its passing tags. *)
Lemma releases_resolved (p : nat) (rs : list string) :
  getNpmReleases remote p = Resolved rs ->
  exists data, listReleases remote p = Resolved data
               /\ rs = Js.sort sv_compare (passing data).
Proof.
  unfold getNpmReleases.
  destruct (listReleases remote p) as [data|e]; simpl; [|discriminate].
  intros H. exists data. split; [reflexivity|].
  apply (SortFacts.sort_with_resolved semver_compare CompareFacts.thrown
           sv_compare CompareFacts.compare_good CompareFacts.compare_bad).
  exact H.
Qed.

(** A page is rejected by the fetch, or by the comparison inside [sort]:
    then it holds two passing tags or more, and the error is the one of a
    passing tag the library builds no version from. *)
Lemma releases_rejected (p : nat) (e : js_error) :
  getNpmReleases remote p = Rejected e ->
  listReleases remote p = Rejected e
  \/ exists data t message,
       listReleases remote p = Resolved data
       /\ 2 <= length (passing data)
       /\ In t (passing data)
       /\ sv_error t = Some message
       /\ e = TypeError message.
Proof.
  unfold getNpmReleases.
  destruct (listReleases remote p) as [data|e'] eqn:F; simpl;
    [|intros [= ->]; left; reflexivity].
  fold (passing data). intros H. right.
  destruct (le_lt_dec (length (passing data)) 1) as [Hlen|Hlen].
  { rewrite SortFacts.sort_with_short in H by assumption. discriminate. }
  destruct (Forall_Exists_dec (SortFacts.good CompareFacts.thrown)
              (SortFacts.good_dec CompareFacts.thrown) (passing data))
    as [Hall|Hex].
  { rewrite (SortFacts.sort_with_good semver_compare CompareFacts.thrown
               sv_compare CompareFacts.compare_good _ Hall) in H.
    discriminate. }
  destruct (SortFacts.sort_with_bad semver_compare CompareFacts.thrown
              sv_compare CompareFacts.compare_good CompareFacts.compare_bad
              (passing data) Hlen Hex) as [t [e' [Hin [Hb Hr]]]].
  rewrite Hr in H. injection H as <-.
  unfold CompareFacts.thrown in Hb.
  destruct (sv_error t) as [message|] eqn:E; [|discriminate].
  injection Hb as <-. exists data, t, message. auto.
Qed.

End Page.

End ReleasesFacts.

(** ** The latest version, whatever the catalog answers *)

Module LatestGeneral.

Section Loop.

Context {SV : Semver}.
Variable remote : Remote.

(** The page has been answered and holds no qualifying tag. *)
Definition barren (p : nat) : Prop :=
  exists data, listReleases remote p = Resolved data
               /\ List.filter Tag.is_release_tag (map tag_name data) = [].

Lemma barren_releases (p : nat) :
  barren p -> getNpmReleases remote p = Resolved [].
Proof.
  intros [data [Hd Hq]]. unfold getNpmReleases. rewrite Hd. simpl.
  rewrite Hq. reflexivity.
Qed.

Lemma releases_empty (p : nat) :
  getNpmReleases remote p = Resolved [] -> barren p.
Proof.
  intros H. unfold barren.
  destruct (ReleasesFacts.releases_resolved remote p [] H) as [data [F E]].
  exists data. split; [assumption|].
  fold (ReleasesFacts.passing data).
  destruct (ReleasesFacts.passing data) as [|t ts]; [reflexivity|].
  exfalso. apply (SortFacts.sort_nonempty sv_compare (t :: ts));
    [discriminate|symmetry; assumption].
Qed.

(** What ends the loop beside a tag: the rejection of a fetch, or the
    exception of the comparison on a page with two passing tags or more. *)
Definition page_failure (p : nat) (e : js_error) : Prop :=
  listReleases remote p = Rejected e
  \/ exists data t message,
       listReleases remote p = Resolved data
       /\ 2 <= length (List.filter Tag.is_release_tag (map tag_name data))
       /\ In t (map tag_name data)
       /\ Tag.is_release_tag t = true
       /\ sv_error t = Some message
       /\ e = TypeError message.

Lemma releases_failure (p : nat) (e : js_error) :
  getNpmReleases remote p = Rejected e -> page_failure p e.
Proof.
  intros H. apply ReleasesFacts.releases_rejected in H.
  destruct H as [H|[data [t [message [F [Hlen [Hin [He ->]]]]]]]];
    [left; assumption|right].
  apply filter_In in Hin as [Hin Hshape].
  exists data, t, message. auto 7.
Qed.

Lemma loop_passes (k : nat) :
  forall fuel page fetched,
    (forall j, page <= j < page + k -> barren j) ->
    latest_loop remote (k + fuel) [] page fetched
    = latest_loop remote fuel [] (page + k) (rev (seq page k) ++ fetched).
Proof.
  induction k as [|k IH]; intros fuel page fetched Hb.
  - simpl. rewrite Nat.add_0_r. reflexivity.
  - change (S k + fuel) with (S (k + fuel)). simpl latest_loop.
    rewrite barren_releases by (apply Hb; lia).
    rewrite IH by (intros j Hj; apply Hb; lia).
    replace (page + 1 + k) with (page + S k) by lia.
    f_equal. simpl. rewrite <- app_assoc. simpl.
    replace (page + 1) with (S page) by lia. reflexivity.
Qed.

(** What a loop that ended has seen. *)
Lemma loop_sound (fuel : nat) :
  forall page fetched r l,
    latest_loop remote fuel [] page fetched = Some (r, l) ->
    exists k,
      l = rev fetched ++ seq page (S k)
      /\ (forall j, page <= j < page + k -> barren j)
      /\ match r with
         | Rejected e => page_failure (page + k) e
         | Resolved o =>
             exists data m,
               listReleases remote (page + k) = Resolved data
               /\ o = Some m
               /\ In m (map tag_name data)
               /\ Tag.is_release_tag m = true
         end.
Proof.
  induction fuel as [|fuel IH]; intros page fetched r l H; simpl in H;
    [discriminate|].
  destruct (getNpmReleases remote page) as [rs|e] eqn:G.
  - destruct rs as [|t ts].
    + destruct (IH _ _ _ _ H) as [k [Hl [Hb Hr]]].
      exists (S k). split; [|split].
      * rewrite Hl. simpl. rewrite <- app_assoc. simpl.
        replace (page + 1) with (S page) by lia. reflexivity.
      * intros j Hj. destruct (Nat.eq_dec j page) as [->|N].
        -- apply releases_empty. assumption.
        -- apply Hb. lia.
      * replace (page + S k) with (page + 1 + k) by lia. assumption.
    + assert (Hend : latest_loop remote fuel (t :: ts) (page + 1)
                       (page :: fetched)
                     = Some (Resolved (Js.pop (t :: ts)), rev (page :: fetched)))
        by (destruct fuel; reflexivity).
      rewrite Hend in H. injection H as <- <-.
      exists 0. rewrite Nat.add_0_r. split; [reflexivity|].
      split; [intros j Hj; lia|].
      destruct (ReleasesFacts.releases_resolved remote page _ G)
        as [data [F E]].
      destruct (pop_some (t :: ts)) as [m Hm]; [discriminate|].
      exists data, m. split; [assumption|]. split; [assumption|].
      apply pop_in in Hm. rewrite E in Hm.
      eapply Permutation_in in Hm; [|symmetry; apply SortFacts.sort_perm].
      apply filter_In in Hm. assumption.
  - injection H as <- <-. exists 0. rewrite Nat.add_0_r.
    split; [reflexivity|]. split; [intros j Hj; lia|].
    apply releases_failure. assumption.
Qed.

End Loop.

End LatestGeneral.

(** X3: whatever the catalog answers, a [latestVersion] that has ended has
    fetched the pages 1, 2, ... up to some page, each once and in this
    order; every page before the last was answered without a qualifying
    tag; and its result is a tag of the last page that has the release
    shape, or the rejection of the last fetch, or the exception that
    [semver.compare] throws inside [sort] for a tag of the last page that
    has the release shape and is no version for the library, that page
    holding two such tags or more. *)
Theorem latestVersion_sound :
  forall (SV : Semver) (remote : Remote) (fuel : nat)
         (r : outcome (option string)) (fetched : list nat),
    latestVersion remote fuel = Some (r, fetched) ->
    exists k,
      fetched = seq 1 (S k)
      /\ (forall j, 1 <= j <= k -> LatestGeneral.barren remote j)
      /\ match r with
         | Rejected e =>
             listReleases remote (S k) = Rejected e
             \/ exists data t message,
                  listReleases remote (S k) = Resolved data
                  /\ 2 <= length (List.filter Tag.is_release_tag
                                    (map tag_name data))
                  /\ In t (map tag_name data)
                  /\ Tag.is_release_tag t = true
                  /\ sv_error t = Some message
                  /\ e = TypeError message
         | Resolved o =>
             exists data m,
               listReleases remote (S k) = Resolved data
               /\ o = Some m
               /\ In m (map tag_name data)
               /\ Tag.is_release_tag m = true
         end.
Proof.
  intros SV remote fuel r fetched H. unfold latestVersion in H.
  destruct (LatestGeneral.loop_sound remote fuel 1 [] r fetched H)
    as [k [Hl [Hb Hr]]].
  exists k. split; [exact Hl|]. split.
  - intros j Hj. apply Hb. lia.
  - exact Hr.
Qed.

Lemma latestVersion_sound_witness :
  exists k,
    [1; 2] = seq 1 (S k)
    /\ (forall j, 1 <= j <= k -> LatestGeneral.barren Examples.two_pages j)
    /\ exists data m,
         listReleases Examples.two_pages (S k) = Resolved data
         /\ Some "v8.1.0" = Some m
         /\ In m (map tag_name data)
         /\ Tag.is_release_tag m = true.
Proof.
  apply (latestVersion_sound semver_core Examples.two_pages 2
           (Resolved (Some "v8.1.0")) [1; 2]).
  reflexivity.
Defined.

(** X4: when the pages before page [n] are answered without a qualifying
    tag and the fetch of page [n] is rejected, [latestVersion] ends with that
    rejection after fetching pages 1 to [n]; [resolveVersion] of the empty
    specifier or of latest has no handler for it and never calls [done]. *)
Theorem latestVersion_rejected_fetch :
  forall (SV : Semver) (remote : Remote) (n : nat) (e : js_error) (fuel : nat),
    1 <= n -> n <= fuel ->
    (forall j, 1 <= j < n -> LatestGeneral.barren remote j) ->
    listReleases remote n = Rejected e ->
    latestVersion remote fuel = Some (Rejected e, seq 1 n)
    /\ resolveVersion remote fuel "" = Some NotCalled
    /\ resolveVersion remote fuel "latest" = Some NotCalled.
Proof.
  intros SV remote n e fuel H1 Hfuel Hb He.
  assert (L : latestVersion remote fuel = Some (Rejected e, seq 1 n)).
  { unfold latestVersion.
    replace fuel with ((n - 1) + S (fuel - n)) by lia.
    rewrite LatestGeneral.loop_passes by (intros j Hj; apply Hb; lia).
    replace (1 + (n - 1)) with n by lia. simpl.
    unfold getNpmReleases. rewrite He. simpl.
    f_equal. f_equal. rewrite app_nil_r, rev_involutive.
    destruct n as [|m]; [lia|].
    replace (S m - 1) with m by lia. rewrite seq_S. reflexivity. }
  split; [exact L|].
  unfold resolveVersion. simpl. rewrite L. auto.
Qed.

Lemma latestVersion_rejected_fetch_witness :
  latestVersion Outage.second_page_down 5
  = Some (Rejected (External "ETIMEDOUT"), [1; 2])
  /\ resolveVersion Outage.second_page_down 5 "" = Some NotCalled
  /\ resolveVersion Outage.second_page_down 5 "latest" = Some NotCalled.
Proof.
  apply (latestVersion_rejected_fetch semver_core Outage.second_page_down 2
           (External "ETIMEDOUT") 5); try lia; [|reflexivity].
  intros j Hj. assert (j = 1) as -> by lia.
  eexists. split; reflexivity.
Defined.

(** ** Resolution among the installed versions *)

Module LocalFacts.

Lemma js_index_last {A : Type} (l : list A) (x : A) :
  js_index (l ++ [x]) (Z.of_nat (length (l ++ [x])) - 1) = Some x.
Proof.
  unfold js_index. rewrite length_app. simpl.
  replace (Z.of_nat (length l + 1) - 1)%Z with (Z.of_nat (length l)) by lia.
  destruct (Z.of_nat (length l) <? 0)%Z eqn:E; [apply Z.ltb_lt in E; lia|].
  rewrite Nat2Z.id. rewrite nth_error_app2 by lia.
  rewrite Nat.sub_diag. reflexivity.
Qed.

Lemma js_index_empty {A : Type} :
  js_index (@nil A) (Z.of_nat (length (@nil A)) - 1) = None.
Proof. reflexivity. Qed.

Lemma sorted_last_greatest {A : Type} (R : A -> A -> Prop) (l : list A) (x : A) :
  StronglySorted R (l ++ [x]) -> forall y, In y l -> R y x.
Proof.
  induction l as [|a l IH]; intros S y Hy; [destruct Hy|].
  simpl in S. inversion S as [|? ? S' Ha]; subst.
  destruct Hy as [<-|Hy].
  - rewrite Forall_forall in Ha. apply Ha. apply in_or_app. right. left.
    reflexivity.
  - apply IH; assumption.
Qed.

Lemma last_cases {A : Type} (l : list A) :
  l = [] \/ exists l' x, l = l' ++ [x].
Proof.
  destruct l as [|a l]; [left; reflexivity|]. right.
  destruct (exists_last (l := a :: l)) as [l' [x E]]; [discriminate|].
  eauto.
Qed.

End LocalFacts.

(** X5: the first [resolveVersionLocally] of a process for latest reads the
    repository and hands [done] the valid entry with the greatest
    comparable projection, or [undefined] when the repository holds no
    valid entry; it never hands over an error. *)
Theorem resolveVersionLocally_latest :
  forall (SV : Semver) (VM : VersionManager) (remote : Remote)
         (repoPath : Fs.path) (w : world) (dir : list Fs.dirent),
    Fs.readdir (files w) repoPath = Resolved dir ->
    index_blind (map Fs.d_name dir) ->
    exists v,
      fst (fst (resolveVersionLocally remote repoPath "latest"
                  {| installedCache := None |} w)) = DoneValue v
      /\ ((forall x, In x (map Fs.d_name dir) -> is_valid_entry x = false) ->
          v = JUndefined)
      /\ ((exists x, In x (map Fs.d_name dir) /\ is_valid_entry x = true) ->
          exists m, v = JString m
                    /\ In m (map Fs.d_name dir) /\ is_valid_entry m = true
                    /\ forall x, In x (map Fs.d_name dir) ->
                                 is_valid_entry x = true ->
                                 (compareable x <= compareable m)%Z).
Proof.
  intros SV VM remote repoPath w dir Hread Hblind.
  destruct (InstalledFacts.installed_of_spec (map Fs.d_name dir) Hblind)
    as [Pm Hasc].
  unfold resolveVersionLocally, listInstalled. simpl. rewrite Hread. simpl.
  eexists. split; [reflexivity|].
  destruct (LocalFacts.last_cases (installed_of (map Fs.d_name dir)))
    as [E|[l' [m E]]]; rewrite E in *.
  - split; [reflexivity|]. intros [x [Hx Vx]]. exfalso.
    assert (H : In x (List.filter is_valid_entry (map Fs.d_name dir)))
      by (apply filter_In; auto).
    eapply Permutation_in in H; [|exact Pm]. destruct H.
  - rewrite LocalFacts.js_index_last.
    assert (Hm : In m (List.filter is_valid_entry (map Fs.d_name dir))).
    { eapply Permutation_in; [symmetry; exact Pm|].
      apply in_or_app. right. left. reflexivity. }
    apply filter_In in Hm as [Hm Vm]. split.
    + intros Hnone. rewrite (Hnone m Hm) in Vm. discriminate.
    + intros _. exists m. repeat split; try assumption.
      intros x Hx Vx.
      assert (H : In x (List.filter is_valid_entry (map Fs.d_name dir)))
        by (apply filter_In; auto).
      eapply Permutation_in in H; [|exact Pm].
      apply in_app_or in H as [H|[<-|[]]]; [|lia].
      apply (LocalFacts.sorted_last_greatest _ l' m Hasc x H).
Qed.

Lemma resolveVersionLocally_latest_witness :
  fst (fst (resolveVersionLocally Outage.runtime_18 Repo.repoPath "latest"
              {| installedCache := None |} Listing.listed))
  = DoneValue (JString "10.2.0").
Proof.
  destruct (resolveVersionLocally_latest semver_core padded_versions
              Outage.runtime_18 Repo.repoPath Listing.listed
              (Fs.entries (files Listing.listed) Repo.repoPath))
    as [v [Hv [_ Hsome]]].
  - reflexivity.
  - intros x i Hx. simpl in Hx.
    repeat (destruct Hx as [<-|Hx]; [destruct i; reflexivity|]).
    destruct Hx.
  - rewrite Hv. f_equal.
    destruct Hsome as [m [-> _]].
    + exists "8.1.0". split; [left; reflexivity|reflexivity].
    + vm_compute in Hv. injection Hv as Hv. congruence.
Defined.

(** X6: for a specifier that is a semantic range (and is not empty, latest
    or match), the first [resolveVersionLocally] of a process hands [done]
    a greatest installed version satisfying the range, or [null] when no
    installed version satisfies it: a miss is a value here, not the error
    that [resolveVersion] raises. *)
Theorem resolveVersionLocally_range :
  forall (SV : Semver) (L : SemverLaws SV) (VM : VersionManager)
         (remote : Remote) (repoPath : Fs.path) (w : world)
         (dir : list Fs.dirent) (spec : string),
    spec <> "" -> spec <> "latest" -> spec <> "match" ->
    Js.truthy (Js.of_option (sv_validRange spec)) = true ->
    Fs.readdir (files w) repoPath = Resolved dir ->
    exists v,
      fst (fst (resolveVersionLocally remote repoPath spec
                  {| installedCache := None |} w)) = DoneValue v
      /\ ((exists x, In x (installed_of (map Fs.d_name dir))
                     /\ sv_satisfies x spec = true) ->
          greatest_satisfying (map JString (installed_of (map Fs.d_name dir)))
            spec v)
      /\ ((forall x, In x (installed_of (map Fs.d_name dir)) ->
                     sv_satisfies x spec = false) ->
          v = JNull).
Proof.
  intros SV L VM remote repoPath w dir spec H1 H2 H3 Hrange Hread.
  assert (Hvr : sv_validRange spec <> None).
  { destruct (sv_validRange spec); [discriminate|discriminate Hrange]. }
  assert (E1 : String.eqb spec "" = false) by (apply String.eqb_neq; congruence).
  assert (E2 : String.eqb spec "latest" = false)
    by (apply String.eqb_neq; congruence).
  assert (E3 : String.eqb spec "match" = false)
    by (apply String.eqb_neq; congruence).
  unfold resolveVersionLocally, listInstalled. rewrite E1. simpl.
  rewrite Hread. simpl. rewrite E2, E3. unfold resolve_installed.
  rewrite Hrange.
  pose proof (ResolveFacts.maxSatisfying_spec spec
                (map JString (installed_of (map Fs.d_name dir))) Hvr) as Hinv.
  eexists. split; [reflexivity|].
  destruct (maxSatisfying (map JString (installed_of (map Fs.d_name dir))) spec)
    as [m|]; simpl in Hinv.
  - split; [intros _; exact Hinv|].
    intros Hnone. exfalso. destruct Hinv as [Hin [[s [Hs Hsat]] _]].
    apply in_map_iff in Hin as [x [<- Hx]]. simpl in Hs. injection Hs as <-.
    rewrite (Hnone x Hx) in Hsat. discriminate.
  - split; [|reflexivity].
    intros [x [Hx Hsat]]. exfalso.
    apply (Hinv (JString x)); [apply in_map; assumption|].
    exists x. split; [reflexivity|assumption].
Qed.

Lemma resolveVersionLocally_range_witness :
  fst (fst (resolveVersionLocally Outage.runtime_18 Repo.repoPath "^8.0.0"
              {| installedCache := None |} Listing.listed))
  = DoneValue (JString "8.1.0")
  /\ fst (fst (resolveVersionLocally Outage.runtime_18 Repo.repoPath "^9.0.0"
                 {| installedCache := None |} Listing.listed))
     = DoneValue JNull.
Proof.
  assert (N1 : "^8.0.0" <> "" /\ "^8.0.0" <> "latest" /\ "^8.0.0" <> "match")
    by (repeat split; discriminate).
  assert (N2 : "^9.0.0" <> "" /\ "^9.0.0" <> "latest" /\ "^9.0.0" <> "match")
    by (repeat split; discriminate).
  destruct N1 as [A1 [A2 A3]]. destruct N2 as [B1 [B2 B3]].
  split.
  - destruct (resolveVersionLocally_range semver_core semver_core_laws
                padded_versions Outage.runtime_18 Repo.repoPath Listing.listed
                (Fs.entries (files Listing.listed) Repo.repoPath) "^8.0.0"
                A1 A2 A3 eq_refl eq_refl)
      as [v [Hv _]].
    rewrite Hv. vm_compute in Hv. symmetry. exact Hv.
  - destruct (resolveVersionLocally_range semver_core semver_core_laws
                padded_versions Outage.runtime_18 Repo.repoPath Listing.listed
                (Fs.entries (files Listing.listed) Repo.repoPath) "^9.0.0"
                B1 B2 B3 eq_refl eq_refl)
      as [v [Hv [_ Hnone]]].
    rewrite Hv. f_equal. apply Hnone.
    intros x Hx. vm_compute in Hx.
    destruct Hx as [<-|[<-|[<-|[]]]]; reflexivity.
Defined.

(** X7: when the repository directory cannot be read, the first
    [resolveVersionLocally] of a process does not report that: the callback
    drops the error of [listInstalled], and for latest, as for any
    specifier that is a range, an exception escapes instead of a call of
    [done]; the cache stays empty, so the next call reads the directory
    again. *)
Theorem resolveVersionLocally_unreadable :
  forall (SV : Semver) (VM : VersionManager) (remote : Remote)
         (repoPath : Fs.path) (w : world) (e : js_error) (spec : string),
    Fs.readdir (files w) repoPath = Rejected e ->
    spec <> "" -> spec <> "match" ->
    spec = "latest" \/ Js.truthy (Js.of_option (sv_validRange spec)) = true ->
    resolveVersionLocally remote repoPath spec {| installedCache := None |} w
    = (Thrown (TypeError "Cannot read properties of undefined"),
       {| installedCache := None |}, emit (EvReaddir repoPath) w).
Proof.
  intros SV VM remote repoPath w e spec Hread H1 H3 Hspec.
  assert (E1 : String.eqb spec "" = false) by (apply String.eqb_neq; congruence).
  assert (E3 : String.eqb spec "match" = false)
    by (apply String.eqb_neq; congruence).
  unfold resolveVersionLocally, listInstalled. rewrite E1. simpl.
  rewrite Hread. simpl.
  destruct (String.eqb spec "latest") eqn:E2; [reflexivity|].
  rewrite E3. unfold resolve_installed.
  destruct Hspec as [-> | ->]; [discriminate E2|reflexivity].
Qed.

Lemma resolveVersionLocally_unreadable_witness :
  resolveVersionLocally Outage.runtime_18 Repo.repoPath "latest"
    {| installedCache := None |} Outage.no_repository
  = (Thrown (TypeError "Cannot read properties of undefined"),
     {| installedCache := None |},
     emit (EvReaddir Repo.repoPath) Outage.no_repository).
Proof.
  apply (resolveVersionLocally_unreadable semver_core padded_versions
           Outage.runtime_18 Repo.repoPath Outage.no_repository
           (External "ENOENT") "latest");
    try discriminate; [reflexivity|left; reflexivity].
Defined.

(** X8: a failure of the host runtime is treated differently by the two
    resolvers for match: [resolveVersionLocally] hands it to [done], while
    [resolveVersion] has no handler for the rejection and never calls
    [done]. *)
Theorem match_host_failure :
  forall (SV : Semver) (VM : VersionManager) (remote : Remote)
         (repoPath : Fs.path) (self : npmist) (w : world) (er : js_error)
         (fuel : nat),
    (getCurrentVersion remote = Rejected er
     \/ exists nodeVersion,
         getCurrentVersion remote = Resolved nodeVersion
         /\ getMatchingNpmVersion remote nodeVersion = Rejected er) ->
    fst (fst (resolveVersionLocally remote repoPath "match" self w))
    = DoneError er
    /\ resolveVersion remote fuel "match" = Some NotCalled.
Proof.
  intros SV VM remote repoPath self w er fuel H.
  unfold resolveVersionLocally, resolveVersion, matchingVersion. simpl.
  destruct (listInstalled repoPath self w) as [[listed self'] w'].
  destruct H as [H|[nodeVersion [H1 H2]]].
  - rewrite H. simpl. auto.
  - rewrite H1. simpl. rewrite H2. auto.
Qed.

Lemma match_host_failure_witness :
  fst (fst (resolveVersionLocally Examples.two_pages Repo.repoPath "match"
              {| installedCache := None |} Listing.listed))
  = DoneError (External "ENOENT")
  /\ resolveVersion Examples.two_pages 0 "match" = Some NotCalled.
Proof.
  apply (match_host_failure semver_core padded_versions Examples.two_pages
           Repo.repoPath {| installedCache := None |} Listing.listed
           (External "ENOENT") 0).
  left. reflexivity.
Defined.

(** ** Symlink repair: what it emits and what it leaves alone *)

Module WalkFacts.
Import Fs FsFacts.

Lemma extends_refl (p : event -> bool) (l : list event) : extends_with p l l.
Proof. exists []. rewrite app_nil_r. auto. Qed.

Lemma extends_trans (p : event -> bool) (l1 l2 l3 : list event) :
  extends_with p l1 l2 -> extends_with p l2 l3 -> extends_with p l1 l3.
Proof.
  intros [m1 [-> H1]] [m2 [-> H2]]. exists (m1 ++ m2).
  rewrite app_assoc, forallb_app, H1, H2. auto.
Qed.

Lemma extends_emit (p : event -> bool) (e : event) (w : world) :
  p e = true -> extends_with p (log w) (log (emit e w)).
Proof. intros H. exists [e]. simpl. rewrite H. auto. Qed.

Lemma extends_weaken (p q : event -> bool) (l l' : list event) :
  (forall e, p e = true -> q e = true) ->
  extends_with p l l' -> extends_with q l l'.
Proof.
  intros H [m [-> Hm]]. exists m. split; [reflexivity|].
  rewrite forallb_forall in *. auto.
Qed.

Lemma extends_filter_none (p q : event -> bool) (l l' : list event) :
  (forall e, p e = true -> q e = false) ->
  extends_with p l l' -> List.filter q l' = List.filter q l.
Proof.
  intros H [m [-> Hm]]. rewrite filter_app.
  assert (E : List.filter q m = []).
  { induction m as [|e m IH]; [reflexivity|]. simpl in *.
    apply andb_true_iff in Hm as [He Hm]. rewrite (H e He). auto. }
  rewrite E, app_nil_r. reflexivity.
Qed.

Lemma entry_name_spec (dir p : path) (n : string) :
  entry_name dir p = Some n <-> p = dir ++ [n].
Proof.
  revert p. induction dir as [|a dir IH]; intros p; simpl.
  - destruct p as [|b [|c p]]; split; try discriminate; try congruence.
  - destruct p as [|b p]; [split; discriminate|].
    destruct (String.eqb_spec a b) as [->|N].
    + rewrite IH. split; [intros ->; reflexivity|intros [= ->]; reflexivity].
    + split; [discriminate|intros [= -> _]; congruence].
Qed.

(** An entry that [readdir] reports stands in the file system under the
    directory, with the reported kind. *)
Lemma entries_in (fs : t) (dir : path) (d : dirent) :
  In d (entries fs dir) -> In (dir ++ [d_name d], d_kind d) fs.
Proof.
  induction fs as [|[p k] fs IH]; simpl; [tauto|].
  destruct (entry_name dir p) as [n|] eqn:E.
  - intros [<-|H]; [|right; apply IH; assumption].
    apply entry_name_spec in E. subst p. left. reflexivity.
  - intros H. right. apply IH. assumption.
Qed.

Lemma readdir_entries (fs : t) (dir : path) (l : list dirent) :
  readdir fs dir = Resolved l -> l = entries fs dir /\ kind_at fs dir = Some KDir.
Proof.
  unfold readdir. destruct (kind_at fs dir) as [[]|]; try discriminate.
  intros [= <-]. auto.
Qed.

Section Walk.

Variable host : Host.

(** The rejections of file operations come from the file system. *)
Definition external (A : Type) (r : outcome A) : Prop :=
  match r with
  | Resolved _ => True
  | Rejected e => exists code, e = External code
  end.

Lemma readdir_external fs p : external _ (readdir fs p).
Proof. unfold readdir. destruct (kind_at fs p) as [[]|]; simpl; eauto. Qed.

Lemma readlink_external fs p : external _ (readlink fs p).
Proof. unfold readlink. destruct (kind_at fs p) as [[]|]; simpl; eauto. Qed.

Lemma unlink_external fs p : external _ (unlink fs p).
Proof. unfold unlink. destruct (kind_at fs p) as [[]|]; simpl; eauto. Qed.

Lemma rename_external fs src dst : external _ (rename fs src dst).
Proof.
  unfold rename. destruct (kind_at fs src); simpl; eauto.
  destruct (is_prefix src dst); simpl; eauto.
  destruct (existsSync fs dst); simpl; eauto.
  destruct (negb (parent_is_dir fs dst)); simpl; eauto.
Qed.

(** One repair: its rejection is a file-system error, it logs repair events
    only. *)
Lemma repair_link_shape (dirPath filePath : path) (w w' : world)
      (r : outcome unit) :
  repair_link host dirPath filePath w = (r, w') ->
  external _ r /\ extends_with is_repair_event (log w) (log w').
Proof.
  unfold repair_link. simpl.
  pose proof (readlink_external (files w) filePath) as X1.
  destruct (readlink (files w) filePath) as [target|e].
  2:{ intros [= <- <-]. split; [assumption|]. exists [EvReadlink filePath]. auto. }
  pose proof (unlink_external (files w) filePath) as X2.
  destruct (unlink (files w) filePath) as [fs1|e].
  2:{ intros [= <- <-]. split; [assumption|].
      exists [EvReadlink filePath; EvUnlink filePath]. simpl.
      rewrite <- app_assoc. auto. }
  destruct (symlink_junction (junction_supported host) fs1 target filePath)
    as [fs2|e].
  { intros [= <- <-]. split; [exact I|].
    exists [EvReadlink filePath; EvUnlink filePath; EvSymlink target filePath].
    simpl. rewrite <- !app_assoc. auto. }
  pose proof (rename_external fs1 (Fs.join dirPath target) filePath) as X3.
  destruct (rename fs1 (Fs.join dirPath target) filePath) as [fs3|e'];
    intros [= <- <-]; (split; [assumption || exact I|]);
    exists [EvReadlink filePath; EvUnlink filePath; EvSymlink target filePath;
            EvRename (Fs.join dirPath target) filePath];
    simpl; rewrite <- !app_assoc; auto.
Qed.

Lemma sum_counts_external (ps : list (outcome nat)) (n : nat) :
  Forall (external nat) ps -> external _ (sum_counts ps n).
Proof.
  unfold sum_counts. induction 1 as [|p ps Hp _ IH]; simpl; [exact I|].
  destruct p as [a|e]; simpl; [|assumption].
  destruct (promise_all ps) as [l|e]; simpl in *; [exact I|assumption].
Qed.

Lemma repair_entries_shape
      (walk : path -> world -> option (outcome nat * world)) (dirPath : path) :
  (forall p w r w', walk p w = Some (r, w') ->
                    external _ r
                    /\ extends_with is_repair_event (log w) (log w')) ->
  forall todo n ps w r w',
    Forall (external nat) ps ->
    repair_entries host walk dirPath todo n ps w = Some (r, w') ->
    external _ r /\ extends_with is_repair_event (log w) (log w').
Proof.
  intros Hwalk todo. induction todo as [|file rest IH];
    intros n ps w r w' Hps H; simpl in H.
  - injection H as <- <-. split; [apply sum_counts_external; assumption|].
    apply extends_refl.
  - destruct (isSymbolicLink file).
    + destruct (repair_link host dirPath (dirPath ++ [d_name file]) w)
        as [[u|e] w1] eqn:R; apply repair_link_shape in R as [X E].
      * destruct (IH _ _ _ _ _ Hps H) as [X' E'].
        split; [assumption|]. eapply extends_trans; eassumption.
      * injection H as <- <-. auto.
    + destruct (isDirectory file).
      * destruct (walk (dirPath ++ [d_name file]) w) as [[r1 w1]|] eqn:W;
          [|discriminate].
        apply Hwalk in W as [X E].
        assert (Hps' : Forall (external nat) (ps ++ [r1])).
        { apply Forall_app. split; [assumption|]. constructor; [assumption|constructor]. }
        destruct (IH _ _ _ _ _ Hps' H) as [X' E'].
        split; [assumption|]. eapply extends_trans; eassumption.
      * eapply IH; eassumption.
Qed.

Lemma walk_shape (fuel : nat) :
  forall dirPath w r w',
    resolveLinkedWorkspaces host fuel dirPath w = Some (r, w') ->
    external _ r /\ extends_with is_repair_event (log w) (log w').
Proof.
  induction fuel as [|fuel IH]; intros dirPath w r w' H; simpl in H;
    [discriminate|].
  pose proof (readdir_external (files w) dirPath) as X.
  destruct (readdir (files w) dirPath) as [todo|e].
  - destruct (repair_entries_shape _ dirPath IH _ _ _ _ _ _
                (Forall_nil _) H) as [X' E].
    split; [assumption|].
    eapply extends_trans; [|exact E].
    apply (extends_emit is_repair_event (EvReaddir dirPath) w). reflexivity.
  - injection H as <- <-. split; [assumption|].
    apply (extends_emit is_repair_event (EvReaddir dirPath) w). reflexivity.
Qed.

End Walk.

End WalkFacts.

(** ** Install: its failures, its downloads *)

Lemma mkdirp_from_external (todo : list string) :
  forall fs done, WalkFacts.external _ (Fs.mkdirp_from fs done todo).
Proof.
  induction todo as [|s rest IH]; intros fs done; simpl; [exact I|].
  destruct (Fs.kind_at fs (rev done ++ [s])) as [[]|]; simpl; eauto.
Qed.

Lemma truthy_invalid {SV : Semver} (v : string) :
  Js.truthy (Js.of_option (valid (sv_clean v))) = true ->
  exists version, sv_clean v = Some version
                  /\ Js.truthy (Js.of_option (valid (Some version))) = true.
Proof.
  intros T. destruct (valid_truthy_some _ T) as [s E].
  exists s. rewrite E in T. auto.
Qed.

(** X9: [install] fails with the invalid-version error exactly for a
    specifier that does not clean to a valid version, and then before it
    has asked or changed anything; every other failure of [install] is an
    error handed over by the file system or the download. *)
Theorem install_failures :
  forall (SV : Semver) (host : Host) (repoPath : Fs.path) (v : string)
         (w : world),
    (Js.truthy (Js.of_option (valid (sv_clean v))) = false ->
     forall fuel,
       install host repoPath fuel v w
       = Some (Rejected (Error "Invalid version"), w))
    /\ (Js.truthy (Js.of_option (valid (sv_clean v))) = true ->
        forall fuel e w1,
          install host repoPath fuel v w = Some (Rejected e, w1) ->
          exists code, e = External code).
Proof.
  intros SV host repoPath v w. split.
  - intros T fuel. unfold install. rewrite T. reflexivity.
  - intros T fuel e w1 H. unfold install in H. rewrite T in H. simpl in H.
    destruct (truthy_invalid v T) as [version [Hc _]]. rewrite Hc in H.
    destruct (Fs.existsSync (files w) (Fs.join repoPath version));
      [discriminate|].
    pose proof (mkdirp_from_external (Fs.join repoPath version) (files w) [])
      as X.
    unfold Fs.mkdirp in H.
    destruct (Fs.mkdirp_from (files w) [] (Fs.join repoPath version))
      as [fs1|err].
    2:{ injection H as <- _. exact X. }
    unfold download_and_extract in H. simpl in H.
    destruct (downloadFileStream host (downloadUrl version))
      as [content [err|]].
    { injection H as <- _. eauto. }
    destruct (sv_gte version "8.0.0"); [|discriminate].
    destruct (resolveLinkedWorkspaces host fuel _ _) as [[[n|err] w2]|] eqn:W;
      try discriminate.
    injection H as <- _.
    apply WalkFacts.walk_shape in W as [X' _]. exact X'.
Qed.

Lemma install_failures_witness :
  install Repo.online Repo.repoPath 5 "README" Repo.one_installed
  = Some (Rejected (Error "Invalid version"), Repo.one_installed)
  /\ exists e w1,
       install broken_download Repo.repoPath 5 "8.1.0" Repo.one_installed
       = Some (Rejected e, w1)
       /\ exists code, e = External code.
Proof.
  split.
  - apply (proj1 (install_failures semver_core Repo.online Repo.repoPath
                    "README" Repo.one_installed) eq_refl 5).
  - destruct (install broken_download Repo.repoPath 5 "8.1.0"
                Repo.one_installed) as [[[r|e] w1]|] eqn:H;
      try (vm_compute in H; discriminate).
    exists e, w1. split; [reflexivity|].
    apply (proj2 (install_failures semver_core broken_download Repo.repoPath
                    "8.1.0" Repo.one_installed) eq_refl 5 e w1 H).
Defined.

(** X10: a failed [install] leaves what it has made. When the target
    directory was made and the download or the repair failed afterwards,
    the next [install] of the same version finds the directory and reports
    success at once, without downloading anything. *)
Theorem install_after_failure :
  forall (SV : Semver) (host : Host) (repoPath : Fs.path)
         (v version : string) (w w1 : world) (fs1 : Fs.t) (e : js_error)
         (fuel : nat),
    sv_clean v = Some version ->
    Js.truthy (Js.of_option (valid (Some version))) = true ->
    Fs.existsSync (files w) (Fs.join repoPath version) = false ->
    Fs.mkdirp (files w) (Fs.join repoPath version) = Resolved fs1 ->
    install host repoPath fuel v w = Some (Rejected e, w1) ->
    forall fuel',
      install host repoPath fuel' v w1
      = Some (Resolved version, emit (EvExists (Fs.join repoPath version)) w1).
Proof.
  intros SV host repoPath v version w w1 fs1 e fuel Hclean T E M H fuel'.
  cut (Fs.existsSync (files w1) (Fs.join repoPath version) = true).
  { intros X. unfold install. rewrite Hclean, T. simpl. rewrite X.
    reflexivity. }
  unfold install in H. rewrite Hclean, T in H. simpl in H.
  set (ap := Fs.join repoPath version) in *.
  rewrite E, M in H.
  apply FsFacts.mkdirp_exists in M.
  unfold download_and_extract in H. simpl in H.
  destruct (downloadFileStream host (downloadUrl version)) as [content failure].
  assert (K : Fs.kind_at (Fs.unpack fs1 ap content) ap = Some Fs.KDir).
  { unfold Fs.kind_at in *. destruct ap; [reflexivity|].
    unfold Fs.unpack. rewrite FsFacts.lookup_app, M. reflexivity. }
  destruct failure as [err|].
  { injection H as _ <-. eapply existsSync_kind_at. exact K. }
  destruct (sv_gte version "8.0.0"); [|discriminate].
  destruct (resolveLinkedWorkspaces host fuel (Fs.join ap "node_modules") _)
    as [[[n|err] w2]|] eqn:W; try discriminate.
  injection H as _ <-.
  rewrite join_node_modules in W.
  apply (RepairFacts.walk_keeps host ap) in W;
    [|apply FsFacts.proper_ancestor_self_child].
  apply RepairFacts.kind_at_lookup in W. simpl in W.
  eapply existsSync_kind_at. rewrite W. exact K.
Qed.

Lemma install_after_failure_witness :
  exists w1,
    install broken_download Repo.repoPath 5 "8.1.0" Repo.one_installed
    = Some (Rejected (External "ECONNRESET"), w1)
    /\ install broken_download Repo.repoPath 5 "8.1.0" w1
       = Some (Resolved "8.1.0",
               emit (EvExists ["nodist"; "npmv"; "8.1.0"]) w1).
Proof.
  destruct (install broken_download Repo.repoPath 5 "8.1.0" Repo.one_installed)
    as [[[r|e] w1]|] eqn:H; try (vm_compute in H; discriminate).
  exists w1.
  assert (E : e = External "ECONNRESET")
    by (vm_compute in H; injection H as H _; congruence).
  split; [rewrite E; reflexivity|].
  destruct (Fs.mkdirp (files Repo.one_installed) ["nodist"; "npmv"; "8.1.0"])
    as [fs1|err] eqn:M; [|vm_compute in M; discriminate].
  apply (install_after_failure semver_core broken_download Repo.repoPath
           "8.1.0" "8.1.0" Repo.one_installed w1 fs1 e 5
           eq_refl eq_refl eq_refl M H 5).
Defined.

Lemma repair_not_network (e : event) :
  is_repair_event e = true -> is_network e = false.
Proof. destruct e; simpl; congruence. Qed.

(** X11: whatever happens, [install] downloads at most once: either the
    log gains no download at all, or the target directory was absent and
    the log gains exactly one download, of the URL of the cleaned version,
    unpacked into the target directory. Symlink repair never touches the
    network. *)
Theorem install_downloads_once :
  forall (SV : Semver) (host : Host) (repoPath : Fs.path) (v : string)
         (w w1 : world) (fuel : nat) (r : outcome string),
    install host repoPath fuel v w = Some (r, w1) ->
    List.filter is_network (log w1) = List.filter is_network (log w)
    \/ exists version,
         sv_clean v = Some version
         /\ Fs.existsSync (files w) (Fs.join repoPath version) = false
         /\ List.filter is_network (log w1)
            = List.filter is_network (log w)
                ++ [EvDownload (downloadUrl version) (Fs.join repoPath version)].
Proof.
  intros SV host repoPath v w w1 fuel r H. unfold install in H.
  destruct (negb (Js.truthy (Js.of_option (valid (sv_clean v))))).
  { injection H as _ <-. left. reflexivity. }
  destruct (sv_clean v) as [version|] eqn:Hc.
  2:{ injection H as _ <-. left. reflexivity. }
  set (ap := Fs.join repoPath version) in *. simpl in H.
  destruct (Fs.existsSync (files w) ap) eqn:E.
  { injection H as _ <-. left. simpl. rewrite filter_app. simpl.
    rewrite app_nil_r. reflexivity. }
  destruct (Fs.mkdirp (files w) ap) as [fs1|err].
  2:{ injection H as _ <-. left. simpl. rewrite !filter_app. simpl.
      rewrite !app_nil_r. reflexivity. }
  right. exists version. split; [reflexivity|]. split; [exact E|].
  unfold download_and_extract in H. simpl in H.
  destruct (downloadFileStream host (downloadUrl version)) as [content failure].
  destruct failure as [err|]; simpl in H.
  { injection H as _ <-. simpl. rewrite !filter_app. simpl.
    rewrite !app_nil_r. reflexivity. }
  destruct (sv_gte version "8.0.0").
  - destruct (resolveLinkedWorkspaces host fuel _ _) as [[r2 w2]|] eqn:W;
      [|discriminate].
    apply WalkFacts.walk_shape in W as [_ Ext].
    apply (WalkFacts.extends_filter_none _ is_network _ _ repair_not_network)
      in Ext.
    simpl in Ext. rewrite !filter_app in Ext. simpl in Ext.
    rewrite !app_nil_r in Ext.
    destruct r2; injection H as _ <-; exact Ext.
  - injection H as _ <-. simpl. rewrite !filter_app. simpl.
    rewrite !app_nil_r. reflexivity.
Qed.

Lemma install_downloads_once_witness :
  exists w1,
    install Repo.online Repo.repoPath 5 "v8.1.0" Repo.one_installed
    = Some (Resolved "8.1.0", w1)
    /\ (List.filter is_network (log w1) = []
        \/ exists version,
             SemverCore.clean "v8.1.0" = Some version
             /\ Fs.existsSync (files Repo.one_installed)
                  (Fs.join Repo.repoPath version) = false
             /\ List.filter is_network (log w1)
                = [EvDownload (downloadUrl version)
                     (Fs.join Repo.repoPath version)]).
Proof.
  destruct (install Repo.online Repo.repoPath 5 "v8.1.0" Repo.one_installed)
    as [[[r|e] w1]|] eqn:H; try (vm_compute in H; discriminate).
  exists w1. split.
  - vm_compute in H. injection H as <- _. reflexivity.
  - exact (install_downloads_once semver_core Repo.online Repo.repoPath
             "v8.1.0" Repo.one_installed w1 5 (Resolved r) H).
Defined.

(** ** Remove: what it leaves, and removing twice *)

(** X12: [remove] changes nothing outside the directory of the version it
    removes: whatever stands at a path that is not at or below that
    directory, another installed version for one, is there afterwards as it
    was before, whether the removal succeeds or fails. *)
Theorem remove_leaves_others :
  forall (SV : Semver) (host : Host) (repoPath : Fs.path) (v : string)
         (w : world) (q : Fs.path),
    (forall version, sv_clean v = Some version ->
                     Fs.is_prefix (Fs.join repoPath version) q = false) ->
    Fs.kind_at (files (snd (remove host repoPath v w))) q
    = Fs.kind_at (files w) q.
Proof.
  intros SV host repoPath v w q Hout. unfold remove.
  destruct (negb (Js.truthy (Js.of_option (valid (sv_clean v)))));
    [reflexivity|].
  destruct (sv_clean v) as [version|]; [|reflexivity].
  specialize (Hout version eq_refl). simpl.
  destruct (Fs.existsSync (files w) (Fs.join repoPath version));
    [|reflexivity].
  simpl. destruct (rimraf_failure host (Fs.join repoPath version));
    [reflexivity|].
  simpl. unfold Fs.kind_at. destruct q; [reflexivity|].
  apply lookup_remove_tree_other. assumption.
Qed.

Lemma remove_leaves_others_witness :
  Fs.kind_at
    (files (snd (remove Trees.no_junctions Repo.repoPath "8.1.0"
                   Listing.listed)))
    ["nodist"; "npmv"; "10.2.0"]
  = Some Fs.KDir.
Proof.
  rewrite (remove_leaves_others semver_core Trees.no_junctions Repo.repoPath
             "8.1.0" Listing.listed ["nodist"; "npmv"; "10.2.0"]).
  - reflexivity.
  - intros version Hv. vm_compute in Hv. injection Hv as <-. reflexivity.
Defined.

(** X13: removing twice is removing once. After a [remove] that reported
    success, a second [remove] of the same specifier finds the directory
    absent: it asks for its existence, deletes nothing and reports the same
    version. *)
Theorem remove_twice :
  forall (SV : Semver) (host : Host) (repoPath : Fs.path)
         (v version : string) (w : world) (r : string),
    sv_clean v = Some version ->
    Fs.join repoPath version <> [] ->
    fst (remove host repoPath v w) = Resolved r ->
    r = version
    /\ remove host repoPath v (snd (remove host repoPath v w))
       = (Resolved version,
          emit (EvExists (Fs.join repoPath version))
            (snd (remove host repoPath v w))).
Proof.
  intros SV host repoPath v version w r Hclean Hne H.
  unfold remove in *. rewrite Hclean in *.
  destruct (negb (Js.truthy (Js.of_option (valid (Some version))))) eqn:T;
    [discriminate|].
  simpl in *.
  destruct (Fs.existsSync (files w) (Fs.join repoPath version)) eqn:E;
    simpl in *.
  - destruct (rimraf_failure host (Fs.join repoPath version));
      [discriminate|].
    simpl in *. injection H as <-. split; [reflexivity|].
    rewrite remove_tree_gone by assumption. reflexivity.
  - injection H as <-. split; [reflexivity|]. rewrite E. reflexivity.
Qed.

Lemma remove_twice_witness :
  remove Trees.no_junctions Repo.repoPath "6.14.0"
    (snd (remove Trees.no_junctions Repo.repoPath "6.14.0" Repo.one_installed))
  = (Resolved "6.14.0",
     emit (EvExists ["nodist"; "npmv"; "6.14.0"])
       (snd (remove Trees.no_junctions Repo.repoPath "6.14.0"
               Repo.one_installed))).
Proof.
  apply (remove_twice semver_core Trees.no_junctions Repo.repoPath
           "6.14.0" "6.14.0" Repo.one_installed "6.14.0");
    [reflexivity|discriminate|reflexivity].
Defined.

(** ** Symlink repair: more of what it does and does not *)

Module WalkMore.
Import Fs FsFacts.

Lemma unlinks_readdirs (l l' : list event) :
  extends_with is_readdir l l' -> unlinks l' = unlinks l.
Proof.
  intros [m [-> Hm]]. rewrite CountFacts.unlinks_app.
  assert (E : unlinks m = 0).
  { induction m as [|e m IH]; [reflexivity|]. simpl in Hm.
    apply andb_true_iff in Hm as [He Hm].
    destruct e; try discriminate. simpl. auto. }
  lia.
Qed.

Lemma link_free_child (fs : t) (dir : path) (n : string) :
  link_free fs dir -> link_free fs (dir ++ [n]).
Proof.
  intros H p k Hin Hp. apply (H p k Hin).
  eapply is_prefix_trans; [apply is_prefix_app|exact Hp].
Qed.

Lemma lookup_remove_key_same (fs : t) (p : path) :
  lookup (remove_key fs p) p = None.
Proof.
  induction fs as [|[q k] fs IH]; simpl; [reflexivity|].
  destruct (path_eqb q p) eqn:E; [assumption|]. simpl. rewrite E. assumption.
Qed.

Lemma parent_child (dir : path) (n : string) : parent (dir ++ [n]) = dir.
Proof. unfold parent. apply removelast_last. Qed.

Lemma child_not_root (dir : path) (n : string) : dir ++ [n] <> [].
Proof. destruct dir; discriminate. Qed.

Lemma kind_at_child (fs : t) (dir : path) (n : string) :
  kind_at fs (dir ++ [n]) = lookup fs (dir ++ [n]).
Proof.
  unfold kind_at. destruct (dir ++ [n]) eqn:E; [|reflexivity].
  exfalso. eapply child_not_root. eassumption.
Qed.

Section Walk.

Variable host : Host.

(** *** A tree without links *)

Lemma repair_entries_link_free
      (walk : path -> world -> option (outcome nat * world)) (dirPath : path) :
  (forall p w r w', link_free (files w) p -> walk p w = Some (r, w') ->
                    files w' = files w
                    /\ extends_with is_readdir (log w) (log w')) ->
  forall todo n ps w r w',
    link_free (files w) dirPath ->
    (forall d, In d todo -> In (dirPath ++ [d_name d], d_kind d) (files w)) ->
    repair_entries host walk dirPath todo n ps w = Some (r, w') ->
    files w' = files w /\ extends_with is_readdir (log w) (log w').
Proof.
  intros Hwalk todo. induction todo as [|file rest IH];
    intros n ps w r w' Hfree Hin H; simpl in H.
  - injection H as _ <-. split; [reflexivity|apply WalkFacts.extends_refl].
  - assert (Hk : d_kind file = KFile \/ d_kind file = KDir).
    { apply (Hfree (dirPath ++ [d_name file]) (d_kind file)).
      - apply Hin. left. reflexivity.
      - apply is_prefix_app. }
    assert (Hnl : isSymbolicLink file = false).
    { unfold isSymbolicLink. destruct Hk as [-> | ->]; reflexivity. }
    rewrite Hnl in H.
    destruct (isDirectory file).
    + destruct (walk (dirPath ++ [d_name file]) w) as [[r1 w1]|] eqn:W;
        [|discriminate].
      apply Hwalk in W as [F1 E1]; [|apply link_free_child; assumption].
      assert (Hfree1 : link_free (files w1) dirPath)
        by (rewrite F1; exact Hfree).
      assert (Hin1 : forall d, In d rest ->
                 In (dirPath ++ [d_name d], d_kind d) (files w1))
        by (rewrite F1; intros d Hd; apply Hin; right; exact Hd).
      destruct (IH _ _ _ _ _ Hfree1 Hin1 H) as [F2 E2].
      split; [congruence|]. eapply WalkFacts.extends_trans; eassumption.
    + eapply IH; [exact Hfree| |exact H].
      intros d Hd. apply Hin. right. assumption.
Qed.

Lemma walk_link_free (fuel : nat) :
  forall dirPath w r w',
    link_free (files w) dirPath ->
    resolveLinkedWorkspaces host fuel dirPath w = Some (r, w') ->
    files w' = files w /\ extends_with is_readdir (log w) (log w').
Proof.
  induction fuel as [|fuel IH]; intros dirPath w r w' Hfree H; simpl in H;
    [discriminate|].
  destruct (readdir (files w) dirPath) as [todo|e] eqn:R.
  - apply WalkFacts.readdir_entries in R as [-> _].
    apply (repair_entries_link_free _ dirPath IH) in H.
    + destruct H as [F E]. split; [exact F|].
      eapply WalkFacts.extends_trans; [|exact E].
      apply (WalkFacts.extends_emit is_readdir (EvReaddir dirPath) w).
      reflexivity.
    + exact Hfree.
    + intros d Hd. apply WalkFacts.entries_in. exact Hd.
  - injection H as _ <-. split; [reflexivity|].
    apply (WalkFacts.extends_emit is_readdir (EvReaddir dirPath) w).
    reflexivity.
Qed.

(** *** A volume that takes junctions everywhere *)

Hypothesis supported : forall p, junction_supported host p = true.

Definition no_rename (e : event) : bool := negb (is_rename e).

Lemma repair_link_no_rename (dirPath : path) (n : string) (w w' : world)
      (r : outcome unit) :
  kind_at (files w) dirPath = Some KDir ->
  repair_link host dirPath (dirPath ++ [n]) w = (r, w') ->
  extends_with no_rename (log w) (log w').
Proof.
  intros Hdir. unfold repair_link. simpl.
  destruct (readlink (files w) (dirPath ++ [n])) as [target|e].
  2:{ intros [= _ <-]. exists [EvReadlink (dirPath ++ [n])]. auto. }
  destruct (unlink (files w) (dirPath ++ [n])) as [fs1|e] eqn:U.
  2:{ intros [= _ <-].
      exists [EvReadlink (dirPath ++ [n]); EvUnlink (dirPath ++ [n])].
      simpl. rewrite <- app_assoc. auto. }
  assert (J : exists fs2,
             symlink_junction (junction_supported host) fs1 target
               (dirPath ++ [n]) = Resolved fs2).
  { unfold unlink in U.
    assert (E : fs1 = remove_key (files w) (dirPath ++ [n])).
    { destruct (kind_at (files w) (dirPath ++ [n])) as [[]|];
        try discriminate; injection U as <-; reflexivity. }
    unfold symlink_junction, existsSync.
    rewrite kind_at_child, E, lookup_remove_key_same.
    unfold parent_is_dir. rewrite parent_child.
    assert (Hd : kind_at (remove_key (files w) (dirPath ++ [n])) dirPath
                 = Some KDir).
    { rewrite <- Hdir. apply RepairFacts.kind_at_lookup.
      apply lookup_remove_key. intros X.
      apply (proper_ancestor_neq dirPath (dirPath ++ [n])
               (proper_ancestor_self_child dirPath n)).
      symmetry. exact X. }
    rewrite Hd.
    destruct (dirPath ++ [n]) eqn:X;
      [exfalso; eapply child_not_root; eassumption|].
    simpl. rewrite supported. eauto. }
  destruct J as [fs2 ->].
  intros [= _ <-].
  exists [EvReadlink (dirPath ++ [n]); EvUnlink (dirPath ++ [n]);
          EvSymlink target (dirPath ++ [n])].
  simpl. rewrite <- !app_assoc. auto.
Qed.

Lemma repair_entries_no_rename (fuel : nat) (dirPath : path) :
  (forall p w r w',
      resolveLinkedWorkspaces host fuel p w = Some (r, w') ->
      extends_with no_rename (log w) (log w')) ->
  forall todo n ps w r w',
    kind_at (files w) dirPath = Some KDir ->
    repair_entries host (resolveLinkedWorkspaces host fuel) dirPath todo n ps w
    = Some (r, w') ->
    extends_with no_rename (log w) (log w').
Proof.
  intros Hwalk todo. induction todo as [|file rest IH];
    intros n ps w r w' Hdir H; simpl in H.
  - injection H as _ <-. apply WalkFacts.extends_refl.
  - destruct (isSymbolicLink file).
    + destruct (repair_link host dirPath (dirPath ++ [d_name file]) w)
        as [[u|e] w1] eqn:R.
      * pose proof (repair_link_no_rename _ _ _ _ _ Hdir R) as E1.
        apply (RepairFacts.repair_link_keeps host dirPath) in R;
          [|apply proper_ancestor_self_child].
        apply RepairFacts.kind_at_lookup in R.
        eapply WalkFacts.extends_trans; [exact E1|].
        eapply IH; [|exact H]. rewrite R. exact Hdir.
      * injection H as _ <-. eapply repair_link_no_rename; eassumption.
    + destruct (isDirectory file).
      * destruct (resolveLinkedWorkspaces host fuel (dirPath ++ [d_name file]) w)
          as [[r1 w1]|] eqn:W; [|discriminate].
        pose proof (Hwalk _ _ _ _ W) as E1.
        apply (RepairFacts.walk_keeps host dirPath) in W;
          [|apply proper_ancestor_self_child].
        apply RepairFacts.kind_at_lookup in W.
        eapply WalkFacts.extends_trans; [exact E1|].
        eapply IH; [|exact H]. rewrite W. exact Hdir.
      * eapply IH; eassumption.
Qed.

Lemma walk_no_rename (fuel : nat) :
  forall dirPath w r w',
    resolveLinkedWorkspaces host fuel dirPath w = Some (r, w') ->
    extends_with no_rename (log w) (log w').
Proof.
  induction fuel as [|fuel IH]; intros dirPath w r w' H; simpl in H;
    [discriminate|].
  destruct (readdir (files w) dirPath) as [todo|e] eqn:R.
  - apply WalkFacts.readdir_entries in R as [_ Hdir].
    apply (repair_entries_no_rename fuel dirPath IH) in H; [|exact Hdir].
    eapply WalkFacts.extends_trans; [|exact H].
    apply (WalkFacts.extends_emit no_rename (EvReaddir dirPath) w).
    reflexivity.
  - injection H as _ <-.
    apply (WalkFacts.extends_emit no_rename (EvReaddir dirPath) w).
    reflexivity.
Qed.

End Walk.

End WalkMore.

(** X14: the count that symlink repair returns is the number of links it
    has removed and replaced, over all levels of the tree together, each by
    a junction or by the moved target. *)
Theorem repair_count_is_unlinks :
  forall (host : Host) (fuel : nat) (dirPath : Fs.path) (w w' : world)
         (n : nat),
    resolveLinkedWorkspaces host fuel dirPath w = Some (Resolved n, w') ->
    unlinks (log w') = unlinks (log w) + n.
Proof.
  intros host fuel dirPath w w' n H.
  eapply CountFacts.walk_counts. exact H.
Qed.

Lemma repair_count_is_unlinks_witness :
  exists w',
    resolveLinkedWorkspaces Trees.no_junctions 2 ["npm"; "node_modules"]
      (Trees.fresh Trees.link_to_workspace) = Some (Resolved 1, w')
    /\ unlinks (log w') = 1.
Proof.
  destruct (resolveLinkedWorkspaces Trees.no_junctions 2 ["npm"; "node_modules"]
              (Trees.fresh Trees.link_to_workspace))
    as [[[n|e] w']|] eqn:H; try (vm_compute in H; discriminate).
  exists w'.
  assert (E : n = 1) by (vm_compute in H; injection H as H _; congruence).
  subst n. split; [reflexivity|].
  apply (repair_count_is_unlinks Trees.no_junctions 2 ["npm"; "node_modules"]
           (Trees.fresh Trees.link_to_workspace) w' 1 H).
Defined.

Module KeepsSelf.
Import Fs FsFacts.

Section Self.

Variable host : Host.
Variable a : path.

Lemma repair_entries_keeps_at
      (walk : path -> world -> option (outcome nat * world)) (dirPath : path) :
  (forall p w r w', proper_ancestor a p -> walk p w = Some (r, w') ->
                    lookup (files w') a = lookup (files w) a) ->
  (forall name, proper_ancestor a (dirPath ++ [name])) ->
  forall todo n ps w r w',
    repair_entries host walk dirPath todo n ps w = Some (r, w') ->
    lookup (files w') a = lookup (files w) a.
Proof.
  intros Hwalk Ha todo. induction todo as [|file rest IH];
    intros n ps w r w' H; simpl in H.
  - injection H as _ <-. reflexivity.
  - pose proof (Ha (d_name file)) as Hc.
    destruct (isSymbolicLink file).
    + destruct (repair_link host dirPath (dirPath ++ [d_name file]) w)
        as [[u|e] w1] eqn:R.
      * rewrite (IH _ _ _ _ _ H).
        eapply RepairFacts.repair_link_keeps; eassumption.
      * injection H as _ <-.
        eapply RepairFacts.repair_link_keeps; eassumption.
    + destruct (isDirectory file).
      * destruct (walk (dirPath ++ [d_name file]) w) as [[r1 w1]|] eqn:W;
          [|discriminate].
        rewrite (IH _ _ _ _ _ H). eapply Hwalk; eassumption.
      * eapply IH; eassumption.
Qed.

Lemma prefix_child (dirPath : path) (name : string) :
  is_prefix a dirPath = true -> proper_ancestor a (dirPath ++ [name]).
Proof.
  intros H. apply is_prefix_iff in H. destruct H as [x ->].
  exists (x ++ [name]). split.
  - destruct x; discriminate.
  - rewrite app_assoc. reflexivity.
Qed.

(** The walk of a directory changes nothing at the directory or above. *)
Lemma walk_keeps_at (fuel : nat) :
  forall dirPath w r w',
    is_prefix a dirPath = true ->
    resolveLinkedWorkspaces host fuel dirPath w = Some (r, w') ->
    lookup (files w') a = lookup (files w) a.
Proof.
  induction fuel as [|fuel IH]; intros dirPath w r w' Ha H; simpl in H;
    [discriminate|].
  destruct (readdir (files w) dirPath) as [todo|e].
  - refine (repair_entries_keeps_at _ dirPath _ _ _ _ _ _ _ _ H).
    + intros p w0 r0 w0' Hp. apply IH. apply proper_ancestor_prefix. exact Hp.
    + intros name. apply prefix_child. exact Ha.
  - injection H as _ <-. reflexivity.
Qed.

End Self.

End KeepsSelf.

(** X15: symlink repair of a directory changes nothing at that directory
    and at any path above it, whether it goes through or is rejected half
    way, and wherever the links in the tree point: the directory it was
    asked to walk and all its ancestors stay what they were. *)
Theorem repair_keeps_ancestors :
  forall (host : Host) (fuel : nat) (dirPath above : Fs.path) (w w' : world)
         (r : outcome nat),
    Fs.is_prefix above dirPath = true ->
    resolveLinkedWorkspaces host fuel dirPath w = Some (r, w') ->
    Fs.kind_at (files w') above = Fs.kind_at (files w) above.
Proof.
  intros host fuel dirPath above w w' r Ha H.
  apply RepairFacts.kind_at_lookup.
  eapply KeepsSelf.walk_keeps_at; eassumption.
Qed.

Lemma repair_keeps_ancestors_witness :
  exists r w',
    resolveLinkedWorkspaces Trees.no_junctions 5 ["npm"; "node_modules"]
      (Trees.fresh Trees.link_beside_target) = Some (r, w')
    /\ Fs.kind_at (files w') ["npm"; "node_modules"] = Some Fs.KDir.
Proof.
  destruct (resolveLinkedWorkspaces Trees.no_junctions 5 ["npm"; "node_modules"]
              (Trees.fresh Trees.link_beside_target))
    as [[r w']|] eqn:H; [|vm_compute in H; discriminate].
  exists r, w'. split; [reflexivity|].
  rewrite (repair_keeps_ancestors Trees.no_junctions 5 ["npm"; "node_modules"]
             ["npm"; "node_modules"] (Trees.fresh Trees.link_beside_target)
             w' r).
  - reflexivity.
  - reflexivity.
  - exact H.
Defined.

(** X16: on a directory that holds no symbolic link and no junction, at any
    depth, symlink repair changes no file: it only reads directories, and
    when it goes through its count is 0. *)
Theorem repair_without_links :
  forall (host : Host) (fuel : nat) (dirPath : Fs.path) (w w' : world)
         (r : outcome nat),
    link_free (files w) dirPath ->
    resolveLinkedWorkspaces host fuel dirPath w = Some (r, w') ->
    files w' = files w
    /\ extends_with is_readdir (log w) (log w')
    /\ forall n, r = Resolved n -> n = 0.
Proof.
  intros host fuel dirPath w w' r Hfree H.
  destruct (WalkMore.walk_link_free host fuel dirPath w r w' Hfree H)
    as [F E].
  split; [exact F|]. split; [exact E|].
  intros n ->. apply CountFacts.walk_counts in H.
  rewrite (WalkMore.unlinks_readdirs _ _ E) in H. lia.
Qed.

Lemma repair_without_links_witness :
  exists w',
    resolveLinkedWorkspaces Trees.no_junctions 5 ["nodist"; "npmv"]
      Repo.one_installed = Some (Resolved 0, w')
    /\ files w' = files Repo.one_installed.
Proof.
  destruct (resolveLinkedWorkspaces Trees.no_junctions 5 ["nodist"; "npmv"]
              Repo.one_installed)
    as [[[n|e] w']|] eqn:H; try (vm_compute in H; discriminate).
  destruct (repair_without_links Trees.no_junctions 5 ["nodist"; "npmv"]
              Repo.one_installed w' (Resolved n)) as [F [_ Hn]].
  - intros p k Hin _. simpl in Hin.
    repeat (destruct Hin as [Hin|Hin];
            [injection Hin as _ <-; auto|]).
    destruct Hin.
  - exact H.
  - exists w'. rewrite (Hn n eq_refl). split; [reflexivity|exact F].
Defined.

(** X17: on a volume that takes a junction at every path, symlink repair
    never moves a directory: the rename that stands in for a refused
    junction is not called once. *)
Theorem repair_never_moves_with_junctions :
  forall (host : Host) (fuel : nat) (dirPath : Fs.path) (w w' : world)
         (r : outcome nat),
    (forall p, junction_supported host p = true) ->
    resolveLinkedWorkspaces host fuel dirPath w = Some (r, w') ->
    List.filter is_rename (log w') = List.filter is_rename (log w).
Proof.
  intros host fuel dirPath w w' r Hsup H.
  apply (WalkMore.walk_no_rename host Hsup) in H.
  apply (WalkFacts.extends_filter_none WalkMore.no_rename is_rename); [|exact H].
  intros e. unfold WalkMore.no_rename. destruct (is_rename e); simpl; congruence.
Qed.

Lemma repair_never_moves_with_junctions_witness :
  exists w',
    resolveLinkedWorkspaces Repo.online 5 ["npm"; "node_modules"]
      (Trees.fresh Trees.link_to_workspace) = Some (Resolved 1, w')
    /\ List.filter is_rename (log w') = []
    /\ Fs.kind_at (files w') ["npm"; "node_modules"; "arborist"]
       = Some (Fs.KJunction "../workspaces/arborist").
Proof.
  destruct (resolveLinkedWorkspaces Repo.online 5 ["npm"; "node_modules"]
              (Trees.fresh Trees.link_to_workspace))
    as [[[n|e] w']|] eqn:H; try (vm_compute in H; discriminate).
  exists w'.
  pose proof (repair_never_moves_with_junctions Repo.online 5
                ["npm"; "node_modules"] (Trees.fresh Trees.link_to_workspace)
                w' (Resolved n) (fun _ => eq_refl) H) as M.
  split; [|split].
  - vm_compute in H. injection H as <- _. reflexivity.
  - exact M.
  - vm_compute in H. injection H as _ <-. reflexivity.
Defined.

(** ** The cache of the installed set *)

(** X18: the installed set is read at most once per object. Once
    [listInstalled] has answered with a list, every later call answers with
    that same list without reading the directory, whatever has happened to
    the repository since; a call that fails leaves the cache empty, so the
    next call reads the directory again. *)
Theorem listInstalled_reads_once :
  forall (SV : Semver) (VM : VersionManager) (repoPath : Fs.path)
         (self self' : npmist) (w w' : world) (r : outcome (list string)),
    listInstalled repoPath self w = (r, self', w') ->
    match r with
    | Resolved l =>
        installedCache self' = Some l
        /\ forall w2, listInstalled repoPath self' w2 = (Resolved l, self', w2)
    | Rejected _ =>
        installedCache self = None /\ self' = self
        /\ log w' = log w ++ [EvReaddir repoPath]
    end.
Proof.
  intros SV VM repoPath self self' w w' r H. unfold listInstalled in H.
  destruct self as [cache]. simpl in H. destruct cache as [cached|].
  - injection H as <- <- <-. simpl. split; [reflexivity|].
    intros w2. reflexivity.
  - destruct (Fs.readdir (files w) repoPath) as [dir|e];
      injection H as <- <- <-; simpl.
    + split; [reflexivity|]. intros w2. reflexivity.
    + auto.
Qed.

Lemma listInstalled_reads_once_witness :
  exists self' w',
    listInstalled Repo.repoPath {| installedCache := None |} Listing.listed
    = (Resolved ["6.14.0"; "8.1.0"; "10.2.0"], self', w')
    /\ listInstalled Repo.repoPath self' Outage.no_repository
       = (Resolved ["6.14.0"; "8.1.0"; "10.2.0"], self', Outage.no_repository).
Proof.
  destruct (listInstalled Repo.repoPath {| installedCache := None |}
              Listing.listed) as [[r self'] w'] eqn:H.
  exists self', w'.
  pose proof (listInstalled_reads_once semver_core padded_versions
                Repo.repoPath _ _ _ _ _ H) as K.
  assert (E : r = Resolved ["6.14.0"; "8.1.0"; "10.2.0"])
    by (vm_compute in H; congruence).
  subst r. split; [reflexivity|]. apply (proj2 K).
Defined.

(** ** Strings: joining what was split, the segments of a path *)

Module PathText.
Import JsString.

Lemma split_nonempty (sep : ascii) (s : string) : split sep s <> [].
Proof.
  induction s as [|c s IH]; simpl; [discriminate|].
  destruct (Ascii.eqb c sep); [discriminate|].
  destruct (split sep s); [congruence|discriminate].
Qed.

Lemma concat_cons (sep x : string) (l : list string) :
  l <> [] -> String.concat sep (x :: l) = (x ++ sep ++ String.concat sep l)%string.
Proof. destruct l; [congruence|reflexivity]. Qed.

Lemma concat_head (sep : string) (c : ascii) (h : string) (t : list string) :
  String.concat sep (String c h :: t) = String c (String.concat sep (h :: t)).
Proof. destruct t; reflexivity. Qed.

(** Joining the segments of a text with the separator gives the text back. *)
Lemma join_split (sep : ascii) (s : string) :
  join (String sep EmptyString) (split sep s) = s.
Proof.
  unfold join. induction s as [|c s IH]; simpl; [reflexivity|].
  destruct (Ascii.eqb_spec c sep) as [->|N].
  - rewrite concat_cons by apply split_nonempty. simpl. rewrite IH. reflexivity.
  - pose proof (split_nonempty sep s) as Hne.
    destruct (split sep s) as [|h t]; [congruence|].
    rewrite concat_head, IH. reflexivity.
Qed.

Lemma segments_nonempty (s : string) : Fs.segments s <> [].
Proof.
  induction s as [|c s IH]; simpl; [discriminate|].
  destruct (Ascii.eqb c "\" || Ascii.eqb c "/"); [discriminate|].
  destruct (Fs.segments s); [congruence|discriminate].
Qed.

(** The segments of a text, a backslash and another text. *)
Lemma segments_app (a b : string) :
  Fs.segments (a ++ String "\" b) = Fs.segments a ++ Fs.segments b.
Proof.
  induction a as [|c a IH]; simpl; [reflexivity|].
  rewrite IH.
  destruct (Ascii.eqb c "\" || Ascii.eqb c "/"); [reflexivity|].
  pose proof (segments_nonempty a) as Hne.
  destruct (Fs.segments a) as [|h t]; [congruence|reflexivity].
Qed.

Lemma normalize_app (xs ys : list string) :
  forall acc,
    Fs.normalize acc (xs ++ ys) = Fs.normalize (rev (Fs.normalize acc xs)) ys.
Proof.
  induction xs as [|x xs IH]; intros acc; simpl.
  - rewrite rev_involutive. reflexivity.
  - destruct (String.eqb x "" || String.eqb x "."); [apply IH|].
    destruct (String.eqb x ".."); apply IH.
Qed.

(** The file that [setLocal] writes is the file that [getLocal] reads first. *)
Lemma local_file_key (cwd : string) :
  Store.key (cwd ++ "\.npm-version") = Store.key_in cwd "./.npm-version".
Proof.
  unfold Store.key, Store.key_in.
  rewrite (segments_app cwd ".npm-version"), !normalize_app. reflexivity.
Qed.

End PathText.

(** ** The active version, written and read back *)

Lemma string_app_assoc (a b c : string) :
  ((a ++ b) ++ c = a ++ (b ++ c))%string.
Proof. induction a as [|x a IH]; simpl; [reflexivity|]. rewrite IH. reflexivity. Qed.

Lemma put_same (st : Store.t) (k : Fs.path) (text : string) :
  Store.put st k text k = Some text.
Proof. unfold Store.put. rewrite FsFacts.path_eqb_refl. reflexivity. Qed.

(** X19: what [setGlobal] has written, [getGlobal] reads back trimmed: on
    a disk that takes the write, [setGlobal] calls back without an error
    and a following [getGlobal] gives the specifier without the white space
    around it, whatever the file held before. *)
Theorem global_round_trip :
  forall (write_failure : Fs.path -> option string) (nodistDir spec : string)
         (st : Store.t),
    write_failure (Store.key (nodistDir ++ "/.npm-version-global")) = None ->
    fst (setGlobal write_failure nodistDir spec st) = Resolved tt
    /\ getGlobal nodistDir (snd (setGlobal write_failure nodistDir spec st))
       = Resolved (JsString.trim spec).
Proof.
  intros write_failure nodistDir spec st H.
  unfold setGlobal, getGlobal. rewrite H. simpl.
  unfold Store.readFile. rewrite put_same. auto.
Qed.

Lemma global_round_trip_witness :
  getGlobal "C:\nodist"
    (snd (setGlobal writable "C:\nodist" " 8.1.0
" no_files))
  = Resolved "8.1.0".
Proof.
  apply (global_round_trip writable "C:\nodist" " 8.1.0
" no_files).
  reflexivity.
Defined.

(** X20: what [setLocal] has written in a working directory, [getLocal]
    from that directory finds first: it gives the specifier trimmed and the
    very path that [setLocal] reported, whatever files the directories above
    hold and whatever the file held before. *)
Theorem local_round_trip :
  forall (write_failure : Fs.path -> option string) (cwd spec : string)
         (st : Store.t),
    write_failure (Store.key_in cwd "./.npm-version") = None ->
    fst (setLocal write_failure cwd spec st)
    = Resolved (cwd ++ "\.npm-version")%string
    /\ getLocal_in cwd (snd (setLocal write_failure cwd spec st))
       = VersionStore.Found (JsString.trim spec) (cwd ++ "\.npm-version")%string.
Proof.
  intros write_failure cwd spec st H.
  unfold setLocal. rewrite H. simpl. split; [reflexivity|].
  unfold getLocal_in, VersionStore.getLocal.
  pose proof (PathText.split_nonempty "\" cwd) as Hne.
  pose proof (PathText.join_split "\" cwd) as Hjoin.
  destruct (rev (JsString.split "\" cwd)) as [|s rest] eqn:E.
  { exfalso. apply Hne. rewrite <- (rev_involutive (JsString.split "\" cwd)), E.
    reflexivity. }
  assert (R : rev (s :: rest) = JsString.split "\" cwd)
    by (rewrite <- E, rev_involutive; reflexivity).
  cbn [VersionStore.search]. rewrite R, Hjoin.
  unfold Store.readFile. rewrite PathText.local_file_key, put_same.
  reflexivity.
Qed.

Lemma local_round_trip_witness :
  getLocal_in "C:\work\app"
    (snd (setLocal writable "C:\work\app" "6.14.0 "
            (Store.put no_files ["C:"; "work"; ".npm-version"] "8.1.0")))
  = VersionStore.Found "6.14.0" "C:\work\app\.npm-version".
Proof.
  apply (local_round_trip writable "C:\work\app" "6.14.0 "
           (Store.put no_files ["C:"; "work"; ".npm-version"] "8.1.0")).
  reflexivity.
Defined.

(** X21: a missing version file is an error for the global scope and none
    for the local one: on a machine without the files, [getGlobal] hands
    its callback the read error, while [getLocal] from any directory calls
    back with no argument at all. *)
Theorem missing_version_files :
  forall (nodistDir cwd : string) (st : Store.t),
    (forall p, st p = None) ->
    getGlobal nodistDir st = Rejected (External "ENOENT")
    /\ getLocal_in cwd st = VersionStore.NoArguments.
Proof.
  intros nodistDir cwd st Hnone. split.
  - unfold getGlobal, Store.readFile. rewrite Hnone. reflexivity.
  - unfold getLocal_in, VersionStore.getLocal.
    assert (E : forall stack,
               VersionStore.search
                 (fun file => match Store.readFile st file with
                              | Resolved text => Some text
                              | Rejected _ => None
                              end) stack
               = VersionStore.NoArguments).
    { induction stack as [|s stack IH]; simpl; [reflexivity|].
      unfold Store.readFile at 1. rewrite Hnone. exact IH. }
    apply E.
Qed.

Lemma missing_version_files_witness :
  getGlobal "C:\nodist" no_files = Rejected (External "ENOENT")
  /\ getLocal_in "C:\work\app" no_files = VersionStore.NoArguments.
Proof.
  apply (missing_version_files "C:\nodist" "C:\work\app" no_files).
  intros p. reflexivity.
Defined.

(** ** The shape of a release tag *)

Module ShapeFacts.
Import Tag.

Lemma app_empty (s : string) : (s ++ "")%string = s.
Proof. induction s as [|c s IH]; simpl; [reflexivity|]. rewrite IH. reflexivity. Qed.

Lemma skip_digits_decomp (s : string) :
  exists d, all_digits d = true /\ s = (d ++ skip_digits s)%string.
Proof.
  induction s as [|c s [d [Hd E]]]; simpl.
  - exists EmptyString. auto.
  - destruct (is_digit c) eqn:C.
    + exists (String c d). simpl. rewrite C, Hd. split; [reflexivity|].
      rewrite <- E. reflexivity.
    + exists EmptyString. auto.
Qed.

Lemma digits_decomp (s r : string) :
  digits s = Some r -> exists a, is_number a = true /\ s = (a ++ r)%string.
Proof.
  unfold digits. destruct s as [|c s]; [discriminate|].
  destruct (is_digit c) eqn:C; [|discriminate]. intros [= <-].
  destruct (skip_digits_decomp s) as [d [Hd E]].
  exists (String c d). split.
  - unfold is_number. simpl. rewrite C, Hd. reflexivity.
  - simpl. rewrite <- E. reflexivity.
Qed.

Lemma dot_decomp (s r : string) : dot s = Some r -> s = String "." r.
Proof.
  unfold dot. destruct s as [|c s]; [discriminate|].
  destruct (Ascii.eqb_spec c "."); [|discriminate].
  intros [= <-]. subst. reflexivity.
Qed.

Lemma skip_digits_app (d r : string) :
  all_digits d = true -> skip_digits (d ++ r) = skip_digits r.
Proof.
  induction d as [|c d IH]; simpl; [reflexivity|].
  intros H. apply andb_true_iff in H as [C Hd]. rewrite C. auto.
Qed.

Lemma digits_number (a r : string) :
  is_number a = true -> digits (a ++ r) = Some (skip_digits r).
Proof.
  unfold is_number. destruct a as [|c a]; [discriminate|]. simpl.
  intros H. apply andb_true_iff in H as [C Ha]. rewrite C.
  rewrite skip_digits_app by assumption. reflexivity.
Qed.

Lemma mem_app (x : ascii) (a b : string) :
  JsString.mem x (a ++ b) = JsString.mem x a || JsString.mem x b.
Proof.
  induction a as [|c a IH]; simpl; [reflexivity|].
  rewrite IH, orb_assoc. reflexivity.
Qed.

Lemma mem_digits (x : ascii) (a : string) :
  is_digit x = false -> all_digits a = true -> JsString.mem x a = false.
Proof.
  intros Hx. induction a as [|c a IH]; simpl; [reflexivity|].
  intros H. apply andb_true_iff in H as [C Ha].
  destruct (Ascii.eqb_spec c x) as [->|_]; [congruence|]. auto.
Qed.

Lemma is_number_digits (a : string) : is_number a = true -> all_digits a = true.
Proof. unfold is_number. intros H. apply andb_true_iff in H. tauto. Qed.

Lemma shape_of_tag (s : string) : is_release_tag s = true -> release_shape s.
Proof.
  unfold is_release_tag. destruct s as [|v r]; [discriminate|].
  intros H. apply andb_true_iff in H as [Hv H].
  apply Ascii.eqb_eq in Hv. subst v.
  destruct (digits r) as [r1|] eqn:D1; [|discriminate]. simpl in H.
  destruct (dot r1) as [r2|] eqn:P1; [|discriminate]. simpl in H.
  destruct (digits r2) as [r3|] eqn:D2; [|discriminate]. simpl in H.
  destruct (dot r3) as [r4|] eqn:P2; [|discriminate]. simpl in H.
  destruct (digits r4) as [r5|] eqn:D3; [|discriminate].
  destruct r5; [|discriminate].
  apply digits_decomp in D1 as [a [Ha ->]].
  apply dot_decomp in P1 as ->.
  apply digits_decomp in D2 as [b [Hb ->]].
  apply dot_decomp in P2 as ->.
  apply digits_decomp in D3 as [c [Hc ->]].
  exists a, b, c. rewrite app_empty in *. auto.
Qed.

Lemma tag_of_shape (s : string) : release_shape s -> is_release_tag s = true.
Proof.
  intros [a [b [c [Ha [Hb [Hc ->]]]]]].
  unfold is_release_tag. simpl.
  rewrite (digits_number a) by assumption. simpl.
  rewrite (digits_number b) by assumption. simpl.
  rewrite <- (app_empty c).
  rewrite (digits_number c) by assumption. reflexivity.
Qed.

(** A release tag is the letter v and a rest that holds neither that letter
    nor a dollar sign. *)
Lemma tag_rest_plain (s : string) :
  is_release_tag s = true ->
  exists rest, s = String "v" rest
               /\ JsString.mem "v" rest = false
               /\ JsString.mem "$" rest = false.
Proof.
  intros H. apply shape_of_tag in H as [a [b [c [Ha [Hb [Hc ->]]]]]].
  apply is_number_digits in Ha, Hb, Hc.
  eexists. split; [reflexivity|].
  split; rewrite !mem_app; simpl;
    rewrite !mem_digits by (assumption || reflexivity); reflexivity.
Qed.

End ShapeFacts.

(** X22: the test of [getNpmReleases] accepts exactly the tags made of the
    letter v and three numbers with dots between them: no prerelease or
    build part, no library prefix, no missing or extra part. *)
Theorem release_tag_shape :
  forall s, Tag.is_release_tag s = true <-> release_shape s.
Proof.
  intros s. split;
    [apply ShapeFacts.shape_of_tag|apply ShapeFacts.tag_of_shape].
Qed.

Lemma release_tag_shape_witness :
  release_shape "v8.1.0" /\ ~ release_shape "v9.0.0-pre.1".
Proof.
  split.
  - apply (proj1 (release_tag_shape "v8.1.0")). reflexivity.
  - intros H. apply (proj2 (release_tag_shape "v9.0.0-pre.1")) in H.
    discriminate H.
Defined.

(** X23: for a release tag the download URL is the archive address
    followed by the tag as it stands, and the tag without its letter v (the
    cleaned version [install] passes on) gives the same URL. *)
Theorem downloadUrl_release_tag :
  forall s,
    Tag.is_release_tag s = true ->
    downloadUrl s
    = ("https://codeload.github.com/npm/cli/tar.gz/" ++ s)%string
    /\ downloadUrl (strip_leading_v s) = downloadUrl s.
Proof.
  intros s H. apply ShapeFacts.tag_rest_plain in H.
  destruct H as [rest [-> [Hv Hd]]].
  rewrite (DownloadUrlFacts.downloadUrl_leading_v rest Hd).
  simpl strip_leading_v.
  rewrite (DownloadUrlFacts.downloadUrl_without_v rest Hv Hd).
  unfold downloadUrl_spec.
  assert (S : strip_leading_v rest = rest).
  { destruct rest as [|c r]; [reflexivity|]. simpl in *.
    apply orb_false_iff in Hv as [-> _]. reflexivity. }
  rewrite S. simpl. auto.
Qed.

Lemma downloadUrl_release_tag_witness :
  downloadUrl "v8.1.0" = "https://codeload.github.com/npm/cli/tar.gz/v8.1.0"
  /\ downloadUrl "8.1.0" = downloadUrl "v8.1.0".
Proof.
  apply (downloadUrl_release_tag "v8.1.0"). reflexivity.
Defined.

(** ** One page of releases; what resolution hands over *)

(** X24: a page that is answered gives [getNpmReleases] exactly its tags of
    the release shape, each as often as the page holds it, when there is
    one such tag at most or the library builds a version from each of them;
    they come in ascending order, the tags being versions that
    [semver.compare] orders. When the page holds two such tags or more and
    one of them is no version for the library, [getNpmReleases] is rejected
    with the exception the comparison throws for such a tag. *)
Theorem getNpmReleases_page :
  forall (SV : Semver) (remote : Remote) (page : nat) (data : list release),
    listReleases remote page = Resolved data ->
    (length (List.filter Tag.is_release_tag (map tag_name data)) <= 1
     \/ Forall (fun t => sv_error t = None)
          (List.filter Tag.is_release_tag (map tag_name data)) ->
     exists rs,
       getNpmReleases remote page = Resolved rs
       /\ Permutation (List.filter Tag.is_release_tag (map tag_name data)) rs
       /\ (forall t, In t rs
                     <-> In t (map tag_name data) /\ Tag.is_release_tag t = true)
       /\ (SemverLaws SV -> Forall is_version rs ->
           StronglySorted (fun a b => (sv_compare a b <= 0)%Z) rs))
    /\ (2 <= length (List.filter Tag.is_release_tag (map tag_name data)) ->
        Exists (fun t => sv_error t <> None)
          (List.filter Tag.is_release_tag (map tag_name data)) ->
        exists t message,
          In t (map tag_name data)
          /\ Tag.is_release_tag t = true
          /\ sv_error t = Some message
          /\ getNpmReleases remote page = Rejected (TypeError message)).
Proof.
  intros SV remote page data H. unfold getNpmReleases. rewrite H. simpl.
  set (tags := List.filter Tag.is_release_tag (map tag_name data)).
  split.
  - intros Hplain.
    assert (E : Js.sort_with semver_compare tags
                = Resolved (Js.sort sv_compare tags)).
    { destruct Hplain as [Hlen|Hall].
      - rewrite SortFacts.sort_with_short by assumption.
        destruct tags as [|x [|y l]]; simpl in Hlen; try lia; reflexivity.
      - apply (SortFacts.sort_with_good semver_compare CompareFacts.thrown
                 sv_compare CompareFacts.compare_good).
        eapply Forall_impl; [|exact Hall]. intros t Ht.
        unfold SortFacts.good, CompareFacts.thrown. rewrite Ht. reflexivity. }
    exists (Js.sort sv_compare tags). split; [exact E|].
    pose proof (SortFacts.sort_perm sv_compare tags) as Pm.
    split; [exact Pm|]. split.
    + intros t. rewrite <- filter_In. split; intros X.
      * eapply Permutation_in; [symmetry; exact Pm|exact X].
      * eapply Permutation_in; [exact Pm|exact X].
    + intros L Hall.
      apply (SortFacts.sort_sorted sv_compare is_version
               (@compare_asym SV L) (@compare_trans SV L)).
      eapply Permutation_Forall; [symmetry; exact Pm|exact Hall].
  - intros Hlen Hex.
    destruct (SortFacts.sort_with_bad semver_compare CompareFacts.thrown
                sv_compare CompareFacts.compare_good CompareFacts.compare_bad
                tags Hlen) as [t [e [Hin [Hb Hr]]]].
    { eapply Exists_impl; [|exact Hex]. intros t Ht G. apply Ht.
      unfold SortFacts.good, CompareFacts.thrown in G.
      destruct (sv_error t); [discriminate|reflexivity]. }
    unfold CompareFacts.thrown in Hb.
    destruct (sv_error t) as [message|] eqn:E; [|discriminate].
    injection Hb as <-. apply filter_In in Hin as [Hin Hshape].
    exists t, message. auto.
Qed.

Lemma getNpmReleases_page_witness :
  getNpmReleases
    {| listReleases := fun _ =>
         Resolved [Examples.rel "v10.2.0" "v10.2.0";
                   Examples.rel "arborist-v2.0.0" "arborist: v2.0.0";
                   Examples.rel "v8.1.0" "v8.1.0";
                   Examples.rel "v9.0.0-pre.1" "v9.0.0-pre.1"];
       npm_pages := Resolved [];
       cli_pages := Resolved [];
       getCurrentVersion := Examples.no_runtime;
       getMatchingNpmVersion := fun _ => Examples.no_runtime |} 1
  = Resolved ["v8.1.0"; "v10.2.0"]
  /\ getNpmReleases Examples.leading_zero 1
     = Rejected (TypeError "Invalid Version: v01.0.0").
Proof.
  split.
  - match goal with
    | |- getNpmReleases ?remote 1 = _ =>
        destruct (getNpmReleases_page semver_core remote 1
                    [Examples.rel "v10.2.0" "v10.2.0";
                     Examples.rel "arborist-v2.0.0" "arborist: v2.0.0";
                     Examples.rel "v8.1.0" "v8.1.0";
                     Examples.rel "v9.0.0-pre.1" "v9.0.0-pre.1"] eq_refl)
          as [Hplain _]
    end.
    destruct Hplain as [rs [Hrs _]].
    { right. repeat constructor. }
    rewrite Hrs. vm_compute in Hrs. symmetry. exact Hrs.
  - destruct (getNpmReleases_page semver_core Examples.leading_zero 1
                [Examples.rel "v2.0.0" "v2.0.0";
                 Examples.rel "v01.0.0" "v01.0.0"] eq_refl)
      as [_ Hthrown].
    destruct Hthrown as [t [message [Hin [_ [He Hr]]]]].
    { simpl. lia. }
    { apply Exists_cons_tl, Exists_cons_hd. discriminate. }
    rewrite Hr. simpl in Hin. destruct Hin as [<-|[<-|[]]]; [discriminate|].
    vm_compute in He. injection He as <-. reflexivity.
Defined.

(** X25: except for match, [resolveVersion] never hands [done] an empty
    result: whenever [done] receives a value, the value is a non-empty text
    or another truthy value; a miss is always the error. For the empty
    specifier and latest the value is a tag of the release shape. *)
Theorem resolveVersion_value_truthy :
  forall (SV : Semver) (remote : Remote) (fuel : nat) (spec : string)
         (v : jsval),
    spec <> "match" ->
    resolveVersion remote fuel spec = Some (Called (Resolved v)) ->
    Js.truthy v = true
    /\ (spec = "" \/ spec = "latest" ->
        exists tag, v = JString tag /\ Tag.is_release_tag tag = true).
Proof.
  intros SV remote fuel spec v Hm H. unfold resolveVersion in H.
  destruct (String.eqb "latest" spec || String.eqb spec "") eqn:E.
  - destruct (latestVersion remote fuel) as [[[o|e] fetched]|] eqn:L;
      try discriminate.
    apply LatestGeneral.loop_sound in L as [k [_ [_ [data [m [_ [-> [_ Hm']]]]]]]].
    injection H as <-.
    split.
    + simpl. destruct m; [discriminate Hm'|reflexivity].
    + intros _. exists m. auto.
  - apply orb_false_iff in E as [E1 E2].
    apply String.eqb_neq in E1, E2.
    assert (E3 : String.eqb "match" spec = false)
      by (apply String.eqb_neq; congruence).
    rewrite E3 in H.
    destruct (listAvailable remote) as [available|e]; [|discriminate].
    unfold resolve_in in H.
    split; [|intros [->| ->]; congruence].
    destruct (Js.truthy (Js.of_option (sv_validRange spec))).
    + destruct (maxSatisfying available spec) as [x|]; simpl in H.
      * destruct (Js.truthy x) eqn:T; simpl in H; [|discriminate].
        injection H as <-. exact T.
      * discriminate.
    + destruct (Js.truthy (Js.of_option (sv_clean spec))) eqn:T; simpl in H;
        [|discriminate].
      injection H as <-. exact T.
Qed.

Lemma resolveVersion_value_truthy_witness :
  Js.truthy (JString "v8.1.0") = true
  /\ exists tag, JString "v8.1.0" = JString tag
                 /\ Tag.is_release_tag tag = true.
Proof.
  destruct (resolveVersion_value_truthy semver_core Examples.two_pages 2 ""
              (JString "v8.1.0")) as [T Hshape].
  - discriminate.
  - reflexivity.
  - split; [exact T|]. apply Hshape. left. reflexivity.
Defined.

(** ** Install, remove and the listing of the repository together *)

Module RepoFacts.
Import Fs FsFacts.

Lemma lookup_in (fs : t) (p : path) (k : kind) :
  lookup fs p = Some k -> In (p, k) fs.
Proof.
  induction fs as [|[q k'] fs IH]; simpl; [discriminate|].
  destruct (path_eqb q p) eqn:E.
  - apply path_eqb_eq in E. subst. intros [= ->]. left. reflexivity.
  - intros H. right. apply IH. exact H.
Qed.

Lemma in_lookup (fs : t) (p : path) (k : kind) :
  In (p, k) fs -> lookup fs p <> None.
Proof.
  induction fs as [|[q k'] fs IH]; simpl; [tauto|].
  intros [[= -> ->]|H].
  - rewrite path_eqb_refl. discriminate.
  - destruct (path_eqb q p); [discriminate|]. apply IH. exact H.
Qed.

Lemma in_entries (fs : t) (dir : path) (n : string) (k : kind) :
  In (dir ++ [n], k) fs -> In n (map d_name (entries fs dir)).
Proof.
  induction fs as [|[p k'] fs IH]; simpl; [tauto|].
  intros [[= -> ->]|H].
  - rewrite (proj2 (WalkFacts.entry_name_spec dir (dir ++ [n]) n) eq_refl).
    simpl. left. reflexivity.
  - destruct (entry_name dir p); [right|]; apply IH; exact H.
Qed.

(** The name is listed exactly when something stands at the path. *)
Lemma listed_iff (fs : t) (dir : path) (n : string) :
  In n (map d_name (entries fs dir)) <-> existsSync fs (dir ++ [n]) = true.
Proof.
  unfold existsSync. rewrite WalkMore.kind_at_child. split.
  - intros H. apply in_map_iff in H as [d [<- Hd]].
    apply WalkFacts.entries_in, in_lookup in Hd.
    destruct (lookup fs (dir ++ [d_name d])); congruence.
  - destruct (lookup fs (dir ++ [n])) as [k|] eqn:E; [|discriminate].
    intros _. eapply in_entries. apply lookup_in. exact E.
Qed.

Lemma filteri_from_subset {A : Type} (p : A -> nat -> bool) (l : list A) :
  forall i x, In x (Js.filteri_from p i l) -> In x l.
Proof.
  induction l as [|a l IH]; intros i x; simpl; [tauto|].
  destruct (p a i); simpl; [intros [->|H]|intros H]; eauto.
Qed.

Lemma installed_of_subset {SV : Semver} {VM : VersionManager}
      (ls : list string) (x : string) :
  In x (installed_of ls) -> In x ls.
Proof.
  unfold installed_of, Js.filteri. intros H.
  eapply Permutation_in in H; [|symmetry; apply SortFacts.sort_perm].
  eapply filteri_from_subset. exact H.
Qed.

End RepoFacts.

(** X26: an installed version is listed. After an [install] that reported
    success, the first [listInstalled] of a new process, reading the
    repository, has the cleaned version in its list (the version being the
    name of its directory in the repository). *)
Theorem install_then_listed :
  forall (SV : Semver) (VM : VersionManager) (host : Host)
         (repoPath : Fs.path) (v version r : string) (w w1 : world)
         (fuel : nat) (dir : list Fs.dirent),
    sv_clean v = Some version ->
    Js.truthy (Js.of_option (valid (Some version))) = true ->
    Fs.join repoPath version = repoPath ++ [version] ->
    install host repoPath fuel v w = Some (Resolved r, w1) ->
    Fs.readdir (files w1) repoPath = Resolved dir ->
    index_blind (map Fs.d_name dir) ->
    exists l,
      fst (fst (listInstalled repoPath {| installedCache := None |} w1))
      = Resolved l
      /\ In version l.
Proof.
  intros SV VM host repoPath v version r w w1 fuel dir Hclean T Hjoin H
         Hread Hblind.
  destruct (install_leaves_directory host repoPath fuel v version w w1 r
              Hclean T H) as [_ E].
  rewrite Hjoin in E.
  unfold listInstalled. simpl. rewrite Hread. simpl.
  eexists. split; [reflexivity|].
  destruct (InstalledFacts.installed_of_spec (map Fs.d_name dir) Hblind)
    as [Pm _].
  eapply Permutation_in; [exact Pm|].
  apply filter_In. split; [|exact T].
  apply WalkFacts.readdir_entries in Hread as [-> _].
  apply RepoFacts.listed_iff. exact E.
Qed.

Lemma install_then_listed_witness :
  exists w1 l,
    install Repo.online Repo.repoPath 5 "v8.1.0" Repo.one_installed
    = Some (Resolved "8.1.0", w1)
    /\ fst (fst (listInstalled Repo.repoPath {| installedCache := None |} w1))
       = Resolved l
    /\ In "8.1.0" l.
Proof.
  destruct (install Repo.online Repo.repoPath 5 "v8.1.0" Repo.one_installed)
    as [[[r|e] w1]|] eqn:H; try (vm_compute in H; discriminate).
  assert (E : r = "8.1.0") by (vm_compute in H; injection H as H _; congruence).
  subst r.
  destruct (Fs.readdir (files w1) Repo.repoPath) as [dir|e] eqn:R.
  2:{ vm_compute in H. injection H as <-. vm_compute in R. discriminate. }
  destruct (install_then_listed semver_core padded_versions Repo.online
              Repo.repoPath "v8.1.0" "8.1.0" "8.1.0" Repo.one_installed w1 5
              dir eq_refl eq_refl eq_refl H R) as [l [Hl Hin]].
  - intros x i Hx. vm_compute in H. injection H as <-.
    vm_compute in R. injection R as <-. simpl in Hx.
    repeat (destruct Hx as [<-|Hx]; [destruct i; reflexivity|]).
    destruct Hx.
  - exists w1, l. auto.
Defined.

(** X27: a removed version is not listed. After a [remove] that reported
    success, no [listInstalled] of a new process that reads the repository
    has the version in its list. *)
Theorem remove_then_not_listed :
  forall (SV : Semver) (VM : VersionManager) (host : Host)
         (repoPath : Fs.path) (v version r : string) (w : world)
         (l : list string),
    sv_clean v = Some version ->
    Fs.join repoPath version = repoPath ++ [version] ->
    fst (remove host repoPath v w) = Resolved r ->
    fst (fst (listInstalled repoPath {| installedCache := None |}
                (snd (remove host repoPath v w)))) = Resolved l ->
    ~ In version l.
Proof.
  intros SV VM host repoPath v version r w l Hclean Hjoin H Hl Hin.
  assert (Gone : Fs.existsSync (files (snd (remove host repoPath v w)))
                   (repoPath ++ [version]) = false).
  { unfold remove in *. rewrite Hclean in *.
    destruct (negb (Js.truthy (Js.of_option (valid (Some version)))));
      [discriminate|].
    simpl in *. rewrite Hjoin in *.
    destruct (Fs.existsSync (files w) (repoPath ++ [version])) eqn:E;
      simpl in *; [|exact E].
    destruct (rimraf_failure host (repoPath ++ [version])); [discriminate|].
    simpl. apply remove_tree_gone. apply WalkMore.child_not_root. }
  unfold listInstalled in Hl. simpl in Hl.
  destruct (Fs.readdir (files (snd (remove host repoPath v w))) repoPath)
    as [dir|e] eqn:R; [|discriminate].
  simpl in Hl. injection Hl as <-.
  apply RepoFacts.installed_of_subset in Hin.
  apply WalkFacts.readdir_entries in R as [-> _].
  apply RepoFacts.listed_iff in Hin. congruence.
Qed.

Lemma remove_then_not_listed_witness :
  ~ In "6.14.0" ["8.1.0"; "10.2.0"]
  /\ fst (fst (listInstalled Repo.repoPath {| installedCache := None |}
                 (snd (remove Trees.no_junctions Repo.repoPath "6.14.0"
                         Listing.listed))))
     = Resolved ["8.1.0"; "10.2.0"].
Proof.
  split; [|reflexivity].
  apply (remove_then_not_listed semver_core padded_versions Trees.no_junctions
           Repo.repoPath "6.14.0" "6.14.0" "6.14.0" Listing.listed
           ["8.1.0"; "10.2.0"]); reflexivity.
Defined.

(** X28: removing really uninstalls. After a [remove] that reported
    success, an [install] of the same version does not take the shortcut of
    an existing directory: it calls [mkdirp] for the directory again, and
    when it reports success it has downloaded the archive again. *)
Theorem remove_then_install_again :
  forall (SV : Semver) (host : Host) (repoPath : Fs.path)
         (v version r : string) (w w2 : world) (fuel : nat)
         (r2 : outcome string),
    sv_clean v = Some version ->
    Fs.join repoPath version <> [] ->
    fst (remove host repoPath v w) = Resolved r ->
    install host repoPath fuel v (snd (remove host repoPath v w))
    = Some (r2, w2) ->
    In (EvMkdirp (Fs.join repoPath version)) (log w2)
    /\ (forall r', r2 = Resolved r' ->
        In (EvDownload (downloadUrl version) (Fs.join repoPath version))
           (log w2)).
Proof.
  intros SV host repoPath v version r w w2 fuel r2 Hclean Hne H Hi.
  assert (Gone : Fs.existsSync (files (snd (remove host repoPath v w)))
                   (Fs.join repoPath version) = false
                 /\ Js.truthy (Js.of_option (valid (Some version))) = true).
  { unfold remove in *. rewrite Hclean in *.
    destruct (Js.truthy (Js.of_option (valid (Some version))));
      [|discriminate].
    simpl in *. split; [|reflexivity].
    destruct (Fs.existsSync (files w) (Fs.join repoPath version)) eqn:E;
      simpl in *; [|exact E].
    destruct (rimraf_failure host (Fs.join repoPath version)); [discriminate|].
    simpl. apply remove_tree_gone. exact Hne. }
  destruct Gone as [Gone T].
  set (w1 := snd (remove host repoPath v w)) in *.
  set (ap := Fs.join repoPath version) in *.
  assert (Hlog : exists more,
             log w2 = (log w1 ++ [EvExists ap; EvMkdirp ap]) ++ more
             /\ (forall r', r2 = Resolved r' ->
                 In (EvDownload (downloadUrl version) ap) more)).
  { unfold install in Hi. rewrite Hclean, T in Hi. simpl in Hi.
    fold ap in Hi. rewrite Gone in Hi.
    destruct (Fs.mkdirp (files w1) ap) as [fs1|err].
    2:{ injection Hi as <- <-. exists []. simpl. split; [|discriminate].
        rewrite app_nil_r, <- app_assoc. reflexivity. }
    unfold download_and_extract in Hi. simpl in Hi.
    destruct (downloadFileStream host (downloadUrl version))
      as [content failure].
    assert (Base : forall w3,
               extends_with is_repair_event
                 (((log w1 ++ [EvExists ap]) ++ [EvMkdirp ap])
                    ++ [EvDownload (downloadUrl version) ap]) (log w3) ->
               exists more,
                 log w3 = (log w1 ++ [EvExists ap; EvMkdirp ap]) ++ more
                 /\ (forall r', r2 = Resolved r' ->
                     In (EvDownload (downloadUrl version) ap) more)).
    { intros w3 [m [-> _]].
      exists ([EvDownload (downloadUrl version) ap] ++ m). split.
      - rewrite <- !app_assoc. reflexivity.
      - intros _ _. left. reflexivity. }
    destruct failure as [err|].
    { injection Hi as _ <-. apply Base. apply WalkFacts.extends_refl. }
    destruct (sv_gte version "8.0.0").
    - destruct (resolveLinkedWorkspaces host fuel _ _) as [[r3 w3]|] eqn:W;
        [|discriminate].
      apply WalkFacts.walk_shape in W as [_ Ext].
      destruct r3; injection Hi as _ <-; apply Base; exact Ext.
    - injection Hi as _ <-. apply Base. apply WalkFacts.extends_refl. }
  destruct Hlog as [more [-> Hd]]. split.
  - apply in_or_app. left. apply in_or_app. right. right. left. reflexivity.
  - intros r' Hr. apply in_or_app. right. exact (Hd r' Hr).
Qed.

Lemma remove_then_install_again_witness :
  exists w2,
    install Repo.online Repo.repoPath 5 "6.14.0"
      (snd (remove Repo.online Repo.repoPath "6.14.0" Repo.one_installed))
    = Some (Resolved "6.14.0", w2)
    /\ In (EvMkdirp ["nodist"; "npmv"; "6.14.0"]) (log w2)
    /\ In (EvDownload (downloadUrl "6.14.0") ["nodist"; "npmv"; "6.14.0"])
          (log w2).
Proof.
  destruct (install Repo.online Repo.repoPath 5 "6.14.0"
              (snd (remove Repo.online Repo.repoPath "6.14.0"
                      Repo.one_installed)))
    as [[[r|e] w2]|] eqn:H; try (vm_compute in H; discriminate).
  exists w2.
  destruct (remove_then_install_again semver_core Repo.online Repo.repoPath
              "6.14.0" "6.14.0" "6.14.0" Repo.one_installed w2 5 (Resolved r))
    as [M D]; [reflexivity|discriminate|reflexivity|exact H|].
  split; [|split].
  - vm_compute in H. injection H as <- _. reflexivity.
  - exact M.
  - exact (D r eq_refl).
Defined.
